(** * worklogr: collector, persistence, token store and retry transport

    A shallow embedding of the Go sources of worklogr (package collector,
    package database, the authentication settings of package config,
    auth.TokenStore, auth.SlackAuthManager, the retrying Slack client and
    transport of package services and utils.TimezoneManager) together with
    the properties stated for them.

    Conventions of the embedding:
    - a [time.Time] is its instant (nanoseconds since the Unix epoch, a [Z])
      plus the offset of its location; monotonic clock readings are not
      modelled (every value that went through [UTC], [In] or a parser has
      none);
    - a [time.Duration] is a [Z] count of nanoseconds, saturating where Go
      saturates;
    - a Go [error] is a value of an inductive type whose constructors name the
      [fmt.Errorf] sites of the source;
    - pointers to events are the events themselves (no nil entries in a slice
      returned by a service client);
    - what the operating system, the SQL engine or the network decide is an
      explicit environment argument. *)

From Stdlib Require Import ZArith Lia Ascii String.
From Stdlib Require Import Floats.PrimFloat.
From stdpp Require Import gmap strings list fin_maps sorting.

Local Open Scope Z_scope.

(** ** time.Time and time.Duration *)

Record Time := mkTime {
  unixNano : Z;     (* the instant *)
  zoneOffset : Z    (* seconds east of UTC of the value's location *)
}.

Definition Duration := Z.

Definition Nanosecond : Duration := 1.
Definition Second : Duration := 1000000000.
Definition Minute : Duration := 60 * Second.
Definition Hour : Duration := 60 * Minute.

Definition minDuration : Duration := - 2 ^ 63.
Definition maxDuration : Duration := 2 ^ 63 - 1.

(* t.After(u), t.Before(u), t.Equal(u): comparisons of instants. *)
Definition After (t u : Time) : bool := unixNano u <? unixNano t.
Definition Before (t u : Time) : bool := unixNano t <? unixNano u.

(* t.Sub(u): the difference, saturated to the range of a Duration. *)
Definition Sub (t u : Time) : Duration :=
  let d := unixNano t - unixNano u in
  if (minDuration <=? d) && (d <=? maxDuration) then d
  else if Before t u then minDuration else maxDuration.

(* t.UTC() and t.In(loc): same instant, other location. *)
Definition UTC (t : Time) : Time := mkTime (unixNano t) 0.
Definition In (t : Time) (offset : Z) : Time := mkTime (unixNano t) offset.

(* t.Format("2006-01-02 15:04:05"): the wall clock of the value's location
   with the sub-second part dropped, read as a count of whole seconds. *)
Definition FormatSeconds (t : Time) : Z :=
  (unixNano t + zoneOffset t * Second) `div` Second.

Global Instance Time_eq_dec : EqDecision Time.
Proof. solve_decision. Defined.

(** ** config.Event and config.EventAttachment *)

Record EventAttachment := mkAttachment {
  FileID : string;
  AttTitle : string;
  MimeType : string;
  ExportAs : string;
  TextFull : string;
  Truncated : bool
}.

Record Event := mkEvent {
  ID : string;
  Service : string;
  Type_ : string;
  Title : string;
  Content : string;
  Timestamp : Time;
  Metadata : string;
  UserID : string;
  Attachments : list EventAttachment
}.

Global Instance EventAttachment_eq_dec : EqDecision EventAttachment.
Proof. solve_decision. Defined.

Global Instance Event_eq_dec : EqDecision Event.
Proof. solve_decision. Defined.

(* The instant of an event, the key of every ordering below. *)
Definition ts (e : Event) : Z := unixNano (Timestamp e).

Definition le_ts (a b : Event) : Prop := ts a <= ts b.

Global Instance le_ts_dec : RelDecision le_ts.
Proof. intros a b. unfold le_ts. apply _. Defined.

(** ** config.ServiceConfig, config.AuthConfig, config.Config *)

Module Config.

Record ServiceConfig := mkServiceConfig {
  ClientID : string;
  ClientSecret : string;
  AccessToken : string;
  RefreshToken : string;
  TokenExpiresAt : option Time;
  Enabled : bool;
  UseOkta : bool;
  AutoRefresh : bool;
  ValidationInterval : Duration;
  MaxRetries : Z;
  RetryBackoffMultiplier : float
}.

Record AuthConfig := mkAuthConfig {
  authAccessToken : string;
  authRefreshToken : string;
  authTokenExpiresAt : option Time;
  authAutoRefresh : bool;
  authValidationInterval : Duration;
  authMaxRetries : Z;
  authRetryBackoffMultiplier : float
}.

Record GoogleCalendarOptions := mkGoogleCalendarOptions {
  FetchDriveAttachments : option bool;
  AttachmentTextMaxChars : Z
}.

Record Config := mkConfig {
  Slack : ServiceConfig;
  GitHub : ServiceConfig;
  GoogleCal : ServiceConfig;
  CalendarOptions : GoogleCalendarOptions;
  DatabasePath : string;
  Timezone : string
}.

Definition ToAuthConfig (sc : ServiceConfig) : AuthConfig :=
  mkAuthConfig (AccessToken sc) (RefreshToken sc) (TokenExpiresAt sc) (AutoRefresh sc)
               (ValidationInterval sc) (MaxRetries sc) (RetryBackoffMultiplier sc).

Definition UpdateFromAuthConfig (sc : ServiceConfig) (authConfig : AuthConfig)
    : ServiceConfig :=
  mkServiceConfig (ClientID sc) (ClientSecret sc)
    (authAccessToken authConfig) (authRefreshToken authConfig)
    (authTokenExpiresAt authConfig) (Enabled sc) (UseOkta sc)
    (authAutoRefresh authConfig) (authValidationInterval authConfig)
    (authMaxRetries authConfig) (authRetryBackoffMultiplier authConfig).

(* if sc.X == 0 { sc.X = default }, for the three fields in turn *)
Definition SetDefaultAuthValues (sc : ServiceConfig) : ServiceConfig :=
  mkServiceConfig (ClientID sc) (ClientSecret sc) (AccessToken sc) (RefreshToken sc)
    (TokenExpiresAt sc) (Enabled sc) (UseOkta sc) (AutoRefresh sc)
    (if ValidationInterval sc =? 0 then 5 * Minute else ValidationInterval sc)
    (if MaxRetries sc =? 0 then 3 else MaxRetries sc)
    (if PrimFloat.eqb (RetryBackoffMultiplier sc) 0 then 2%float
     else RetryBackoffMultiplier sc).

Inductive AuthConfigError :=
  | ErrValidationInterval   (* "validation_interval must be at least 1 minute" *)
  | ErrMaxRetries           (* "max_retries must be non-negative" *)
  | ErrBackoffMultiplier.   (* "retry_backoff_multiplier must be at least 1.0" *)

Definition ValidateAuthConfig (sc : ServiceConfig) : option AuthConfigError :=
  if ValidationInterval sc <? Minute then Some ErrValidationInterval
  else if MaxRetries sc <? 0 then Some ErrMaxRetries
  else if PrimFloat.ltb (RetryBackoffMultiplier sc) 1 then Some ErrBackoffMultiplier
  else None.

Definition MigrateConfig (c : Config) : Config :=
  mkConfig (SetDefaultAuthValues (Slack c)) (SetDefaultAuthValues (GitHub c))
           (SetDefaultAuthValues (GoogleCal c)) (CalendarOptions c)
           (DatabasePath c) (Timezone c).

Definition ShouldFetchDriveAttachments (o : GoogleCalendarOptions) : bool :=
  match FetchDriveAttachments o with
  | None => true
  | Some b => b
  end.

Definition EffectiveAttachmentTextMaxChars (o : GoogleCalendarOptions) : Z :=
  if AttachmentTextMaxChars o <=? 0 then 100000 else AttachmentTextMaxChars o.

End Config.

(** ** The collector's merge-step sort

    [sortEventsByTimestamp] works on the slice in place: [events[j]] and
    [events[j+1]] are read and, when the left one is strictly after the
    right one, exchanged. *)

Module Collector.

(* The body of the inner loop at index [j].  An index outside the slice makes
   Go panic; the loop bounds keep [j+1 < n], so that branch is never taken. *)
Definition compareSwap (events : list Event) (j : nat) : list Event :=
  match events !! j, events !! S j with
  | Some a, Some b =>
      if After (Timestamp a) (Timestamp b)
      then <[S j := a]> (<[j := b]> events)
      else events
  | _, _ => events
  end.

(* for j := 0; j < n-i-1; j++ { ... } *)
Definition innerLoop (n i : nat) (events : list Event) : list Event :=
  foldl compareSwap events (seq 0 (n - i - 1)).

(* for i := 0; i < n-1; i++ { ... } *)
Definition sortEventsByTimestamp (events : list Event) : list Event :=
  let n := length events in
  foldl (fun es i => innerLoop n i es) events (seq 0 (n - 1)).

(** *** CollectEvents *)

Inductive FetchError := UpstreamError (msg : string).

(* ServiceClient: the one method CollectEvents(startTime, endTime). *)
Definition ServiceClient : Type := Time -> Time -> FetchError + list Event.

Inductive CollectError :=
  | ErrNoCollectableServices.   (* "収集可能なサービスがありません" *)

(* What one call leaves behind: the returned pair, the names whose fetch
   function was invoked (one entry per invocation), the names the filter
   loop warned about and the names whose failure was logged. *)
Record CollectResult := mkCollectResult {
  events : list Event;
  err : option CollectError;
  called : list string;
  warned : list string;
  failed : list string
}.

(* The filter loop: servicesToCollect is ec.services itself when no name is
   given, otherwise a fresh map holding the named services that exist. *)
Definition filterStep (services : gmap string ServiceClient)
    (acc : gmap string ServiceClient * list string) (serviceName : string)
    : gmap string ServiceClient * list string :=
  match services !! serviceName with
  | Some client => (<[serviceName := client]> acc.1, acc.2)
  | None => (acc.1, acc.2 ++ [serviceName])
  end.

Definition servicesToCollect (services : gmap string ServiceClient)
    (serviceNames : list string) : gmap string ServiceClient * list string :=
  if (0 <? length serviceNames)%nat
  then foldl (filterStep services) (∅, []) serviceNames
  else (services, []).

(* One worker: it calls the client once and, on success, appends under the
   mutex; on failure it logs and returns. *)
Record Accumulator := mkAcc {
  allEvents : list Event;
  invoked : list string;
  errors : list string
}.

Definition worker (startTime endTime : Time) (candidates : gmap string ServiceClient)
    (acc : Accumulator) (serviceName : string) : Accumulator :=
  match candidates !! serviceName with
  | Some client =>
      match client startTime endTime with
      | inr evs => mkAcc (allEvents acc ++ evs) (invoked acc ++ [serviceName]) (errors acc)
      | inl _ => mkAcc (allEvents acc) (invoked acc ++ [serviceName])
                       (errors acc ++ [serviceName])
      end
  | None => acc
  end.

(* The names of the candidate services, the domain of the map. *)
Definition candidateNames (candidates : gmap string ServiceClient) : list string :=
  (map_to_list candidates).*1.

(* A schedule is the order in which the workers, one per candidate, reach
   their fetch and their append: Go fixes neither the iteration order of a
   map nor the interleaving of goroutines. *)
Definition schedule_of (candidates : gmap string ServiceClient)
    (order : list string) : Prop :=
  order ≡ₚ candidateNames candidates.

(* CollectEvents with the workers run in the order [order].  The older body
   of the function, a plain range loop over servicesToCollect that logs a
   failed fetch and continues, is the same function: its schedule is the
   iteration order of the map. *)
Definition CollectEvents (services : gmap string ServiceClient)
    (order : list string) (startTime endTime : Time)
    (serviceNames : list string) : CollectResult :=
  let '(candidates, warnings) := servicesToCollect services serviceNames in
  if (size candidates =? 0)%nat
  then mkCollectResult [] (Some ErrNoCollectableServices) [] warnings []
  else
    let acc := foldl (worker startTime endTime candidates) (mkAcc [] [] []) order in
    mkCollectResult (sortEventsByTimestamp (allEvents acc)) None
                    (invoked acc) warnings (errors acc).

(* The events a service contributes: its result when the fetch succeeds,
   nothing when it fails. *)
Definition contribution (startTime endTime : Time) (client : ServiceClient)
    : list Event :=
  match client startTime endTime with
  | inr evs => evs
  | inl _ => []
  end.

Definition succeeds (startTime endTime : Time) (client : ServiceClient) : Prop :=
  exists evs, client startTime endTime = inr evs.

(** *** ValidateTimeRange (collector boundary) *)

Inductive RangeError :=
  | ErrStartAfterEnd    (* "開始時刻は終了時刻より後にできません" *)
  | ErrFutureEnd        (* "終了時刻は未来にできません" *)
  | ErrRangeTooLarge.   (* "時間範囲は1年を超えることはできません" *)

(* [now] is the value of time.Now() at the second test. *)
Definition ValidateTimeRange (now startTime endTime : Time) : option RangeError :=
  if After startTime endTime then Some ErrStartAfterEnd
  else if After endTime now then Some ErrFutureEnd
  else if 365 * 24 * Hour <? Sub endTime startTime then Some ErrRangeTooLarge
  else None.

End Collector.

(** ** utils.TimezoneManager.ValidateTimeRange *)

Module TimezoneManager.

Definition ConvertToTimezone (location : Z) (t : Time) : Time := In t location.

Definition ValidateTimeRange (location : Z) (now startTime endTime : Time)
    : option Collector.RangeError :=
  let start := ConvertToTimezone location startTime in
  let end_ := ConvertToTimezone location endTime in
  if After start end_ then Some Collector.ErrStartAfterEnd
  else
    let now' := In now location in
    if After end_ now' then Some Collector.ErrFutureEnd
    else if 365 * 24 * Hour <? Sub end_ start then Some Collector.ErrRangeTooLarge
    else None.

End TimezoneManager.

(** ** database.DatabaseManager

    The two tables are lists of rows in insertion order.  The statements of
    the source are given their SQL meaning: [INSERT OR REPLACE] deletes the
    rows that conflict on the primary key and inserts the new row, a
    transaction works on a copy that [Commit] publishes and [Rollback]
    drops.  Whether a call into the driver reports an error is decided by the
    environment: [fails n] says so for the [n]-th call of the run. *)

Module Database.

Record EventRow := mkEventRow {
  row_id : string;
  row_service : string;
  row_type : string;
  row_title : string;
  row_content : string;
  row_timestamp : Time;
  row_metadata : string;
  row_user_id : string;
  row_created_at : Time
}.

Record AttachmentRow := mkAttachmentRow {
  att_id : string;
  att_event_id : string;
  att_file_id : string;
  att_title : string;
  att_mime_type : string;
  att_export_as : string;
  att_text_full : string;
  att_truncated : Z;
  att_created_at : Time
}.

Record Tables := mkTables {
  events : list EventRow;
  event_attachments : list AttachmentRow
}.

Inductive DBError :=
  | ErrBegin                          (* "failed to begin transaction" *)
  | ErrPrepare                        (* "failed to prepare statement" *)
  | ErrInsertEvent (id : string)      (* "failed to insert event %s" *)
  | ErrPrepareAttachment              (* "failed to prepare attachment statement" *)
  | ErrInsertAttachment (id : string) (* "failed to insert attachment for event %s" *)
  | ErrCommit                         (* "failed to commit transaction" *)
  | ErrQueryEvents                    (* "failed to query events" *)
  | ErrQueryAttachments.              (* "failed to query event attachments" *)

Record Env := mkEnv {
  fails : nat -> bool;          (* does the n-th driver call report an error *)
  current_timestamp : Time      (* CURRENT_TIMESTAMP, the default of created_at *)
}.

(* One connection: the committed tables and, while a transaction is open,
   its working copy. *)
Record Conn := mkConn {
  committed : Tables;
  pending : option Tables
}.

Record St := mkSt {
  calls : nat;
  conn : Conn
}.

(* Code that talks to the driver: it may stop with an error, and the state of
   the connection survives the error (a deferred call still sees it). *)
Definition M (A : Type) : Type := St -> (DBError + A) * St.

Definition ret {A} (a : A) : M A := fun s => (inr a, s).

Definition bind {A B} (m : M A) (k : A -> M B) : M B :=
  fun s => match m s with
           | (inr a, s') => k a s'
           | (inl e, s') => (inl e, s')
           end.

Notation "x <- m ;; k" := (bind m (fun x => k))
  (at level 100, m at next level, right associativity).
Notation "m ;;; k" := (bind m (fun _ => k))
  (at level 100, right associativity).

(* defer f(): [f] runs on the connection when the body is left, whatever the
   body returned. *)
Definition defer {A} (cleanup : Conn -> Conn) (body : M A) : M A :=
  fun s => let '(r, s') := body s in (r, mkSt (calls s') (cleanup (conn s'))).

(* for _, x := range xs { ... } with an early return on error *)
Fixpoint forEach {A} (xs : list A) (body : A -> M unit) : M unit :=
  match xs with
  | [] => ret tt
  | x :: xs' => body x ;;; forEach xs' body
  end.

(* A call into the driver: it fails when the environment says so, otherwise
   it has its effect on the connection. *)
Definition driverCall (env : Env) (e : DBError) (effect : Conn -> Conn) : M unit :=
  fun s =>
    if fails env (calls s)
    then (inl e, mkSt (S (calls s)) (conn s))
    else (inr tt, mkSt (S (calls s)) (effect (conn s))).

Definition onPending (f : Tables -> Tables) (c : Conn) : Conn :=
  mkConn (committed c) (f <$> pending c).

Definition txBegin (c : Conn) : Conn := mkConn (committed c) (Some (committed c)).

Definition txCommit (c : Conn) : Conn :=
  match pending c with
  | Some t => mkConn t None
  | None => c
  end.

(* tx.Rollback(): drops the working copy; after Commit it finds none. *)
Definition txRollback (c : Conn) : Conn := mkConn (committed c) None.

(* INSERT OR REPLACE INTO events *)
Definition insertOrReplaceEvent (r : EventRow) (rows : list EventRow) : list EventRow :=
  filter (fun x => row_id x ≠ row_id r) rows ++ [r].

(* INSERT OR REPLACE INTO event_attachments *)
Definition insertOrReplaceAttachment (r : AttachmentRow) (rows : list AttachmentRow)
    : list AttachmentRow :=
  filter (fun x => att_id x ≠ att_id r) rows ++ [r].

Definition eventRow (env : Env) (event : Event) : EventRow :=
  mkEventRow (ID event) (Service event) (Type_ event) (Title event) (Content event)
             (Timestamp event) (Metadata event) (UserID event)
             (current_timestamp env).

(* strings.ReplaceAll(s, " ", "_") *)
Fixpoint replaceSpaces (s : string) : string :=
  match s with
  | EmptyString => EmptyString
  | String c s' =>
      String (if Ascii.eqb c " "%char then "_"%char else c) (replaceSpaces s')
  end.

Definition attachmentRowID (eventID fileID : string) : string :=
  replaceSpaces (eventID +:+ "__" +:+ fileID).

Definition attachmentRow (env : Env) (event : Event) (a : EventAttachment)
    : AttachmentRow :=
  mkAttachmentRow (attachmentRowID (ID event) (FileID a)) (ID event) (FileID a)
                  (AttTitle a) (MimeType a) (ExportAs a) (TextFull a)
                  (if Truncated a then 1 else 0) (current_timestamp env).

Definition execInsertEvent (env : Env) (event : Event) : M unit :=
  driverCall env (ErrInsertEvent (ID event))
    (onPending (fun t => mkTables (insertOrReplaceEvent (eventRow env event) (events t))
                                  (event_attachments t))).

Definition execInsertAttachment (env : Env) (event : Event) (a : EventAttachment)
    : M unit :=
  driverCall env (ErrInsertAttachment (ID event))
    (onPending (fun t => mkTables (events t)
                 (insertOrReplaceAttachment (attachmentRow env event a)
                                            (event_attachments t)))).

Definition insertAttachmentsTx (env : Env) (event : Event) : M unit :=
  if (length (Attachments event) =? 0)%nat then ret tt
  else
    driverCall env ErrPrepareAttachment id ;;;
    forEach (Attachments event) (fun a =>
      if String.eqb (FileID a) "" then ret tt
      else execInsertAttachment env event a).

Definition insertEventsBody (env : Env) (events : list Event) : M unit :=
  driverCall env ErrPrepare id ;;;
  forEach events (fun event =>
    execInsertEvent env event ;;;
    insertAttachmentsTx env event) ;;;
  driverCall env ErrCommit txCommit.

Definition insertEventsM (env : Env) (events : list Event) : M unit :=
  driverCall env ErrBegin txBegin ;;;
  defer txRollback (insertEventsBody env events).

(* InsertEvents on stored tables [db]: the returned error, if any, and the
   tables stored afterwards. *)
Definition InsertEvents (env : Env) (db : Tables) (events : list Event)
    : option DBError * Tables :=
  match insertEventsM env events (mkSt 0 (mkConn db None)) with
  | (inl e, s) => (Some e, committed (conn s))
  | (inr _, s) => (None, committed (conn s))
  end.

(** *** GetEvents *)

(* What a query does: it reads the committed tables unless the driver
   reports an error. *)
Definition queryCall {A} (env : Env) (e : DBError) (q : Tables -> A) : M A :=
  fun s =>
    if fails env (calls s)
    then (inl e, mkSt (S (calls s)) (conn s))
    else (inr (q (committed (conn s))), mkSt (S (calls s)) (conn s)).

Fixpoint foldM {A B} (f : B -> A -> M B) (xs : list A) (b : B) : M B :=
  match xs with
  | [] => ret b
  | x :: xs' => b' <- f b x ;; foldM f xs' b'
  end.

(* The timestamp column.  The driver binds a time.Time as the text of
   t.Format("2006-01-02 15:04:05.999999999-07:00"): the wall clock of the
   value's location, the fraction of the second without its trailing zeros,
   and the offset of the location in hours and minutes.  The column keeps
   that text, and the driver parses it with the same layout when a row is
   scanned.

   Two counts of seconds delimit the years of four digits. *)
Definition year0 : Z := -62167219200.        (* 0000-01-01 00:00:00 UTC *)
Definition year10000 : Z := 253402300800.    (* 10000-01-01 00:00:00 UTC *)

Definition fourDigitYear (seconds : Z) : bool :=
  (year0 <=? seconds) && (seconds <? year10000).

(* The wall clock the text shows, in nanoseconds, and the offset it shows, in
   minutes: "-07:00" has no room for the seconds of an offset, and Format
   drops them. *)
Definition wallNano (t : Time) : Z := unixNano t + zoneOffset t * Second.
Definition textOffset (t : Time) : Z := Z.quot (zoneOffset t) 60.

(* What the driver reads back from the text: the wall clock shown, at the
   offset shown. *)
Definition readBack (t : Time) : Time :=
  mkTime (wallNano t - textOffset t * Minute) (textOffset t * 60).

(* SQL datetime(timestamp) on the stored text: the instant in UTC as
   "YYYY-MM-DD HH:MM:SS", read as a count of whole seconds, or NULL (None)
   where the engine does not read the text.  The engine reads a year of four
   digits and an offset of at most 14 hours 59 minutes.  It cuts a text with
   the offset 00:00 to its whole second; with another offset it moves the
   wall clock to UTC on its scale of milliseconds, to which it rounds the
   fraction first.  Beyond the year 9999 the answer is NULL.  Before the year
   0000 the engine answers a text with a sign, which sorts before every year
   of four digits; against bounds of the years 0000 to 9999 such a row is not
   selected, which is what NULL gives as well, and the model answers NULL.
   Bounds before the year 0000 are outside the model. *)
Definition datetime (t : Time) : option Z :=
  if fourDigitYear (wallNano t `div` Second) && (Z.abs (textOffset t) <? 15 * 60)
  then
    let seconds :=
      if textOffset t =? 0 then wallNano t `div` Second
      else ((wallNano t + 500000) `div` 1000000 - textOffset t * 60000) `div` 1000 in
    if fourDigitYear seconds then Some seconds else None
  else None.

(* SQL datetime(?) on a bound.  The bound reaches the query as the text
   "YYYY-MM-DD HH:MM:SS" that Format made of it, given here as the count of
   whole seconds it shows; datetime leaves such a text as it is, or answers
   NULL. *)
Definition datetimeBound (seconds : Z) : option Z :=
  if fourDigitYear seconds then Some seconds else None.

(* datetime(timestamp) >= datetime(?) AND datetime(timestamp) <= datetime(?);
   a comparison with NULL is not true. *)
Definition rowInRange (lo hi : option Z) (r : EventRow) : bool :=
  match lo, hi, datetime (row_timestamp r) with
  | Some lo, Some hi, Some d => (lo <=? d) && (d <=? hi)
  | _, _, _ => false
  end.

(* AND service IN (?, ...), present when a service is named *)
Definition serviceSelected (services : list string) (r : EventRow) : bool :=
  if (0 <? length services)%nat then bool_decide (row_service r ∈ services) else true.

(* ORDER BY timestamp and timestamp < ? compare the stored texts byte by
   byte.  In texts with a year of four digits the fields up to the seconds
   have fixed widths, so the wall clock decides first, together with the
   fraction: a text without fraction goes on with the sign of the offset,
   which sorts before the ".", and a digit sorts after both signs.  Then the
   offset decides: "+" sorts before "-", and under either sign the hours and
   minutes decide. *)
Definition offsetSign (t : Time) : Z := if textOffset t <? 0 then 1 else 0.

Definition text_le (a b : Time) : Prop :=
  wallNano a < wallNano b
  \/ wallNano a = wallNano b
     /\ (offsetSign a < offsetSign b
         \/ offsetSign a = offsetSign b
            /\ Z.abs (textOffset a) <= Z.abs (textOffset b)).

Definition text_lt (a b : Time) : Prop := ¬ text_le b a.

Global Instance text_le_dec : RelDecision text_le.
Proof. intros a b. unfold text_le. apply _. Defined.

Global Instance text_lt_dec : RelDecision text_lt.
Proof. intros a b. unfold text_lt. apply _. Defined.

Definition row_le (a b : EventRow) : Prop :=
  text_le (row_timestamp a) (row_timestamp b).

Global Instance row_le_dec : RelDecision row_le.
Proof. intros a b. unfold row_le. apply _. Defined.

(* SELECT ... FROM events WHERE ... ORDER BY timestamp ASC.  SQL leaves the
   order of rows with equal keys open, the model takes that of a merge
   sort. *)
Definition selectEvents (lo hi : option Z) (services : list string) (t : Tables)
    : list EventRow :=
  merge_sort row_le
    (filter (fun r => rowInRange lo hi r && serviceSelected services r) (events t)).

(* rows.Scan into a fresh Event *)
Definition scanEvent (r : EventRow) : Event :=
  mkEvent (row_id r) (row_service r) (row_type r) (row_title r) (row_content r)
          (readBack (row_timestamp r)) (row_metadata r) (row_user_id r) [].

Definition att_le (a b : AttachmentRow) : Prop :=
  unixNano (att_created_at a) <= unixNano (att_created_at b).

Global Instance att_le_dec : RelDecision att_le.
Proof. intros a b. unfold att_le. apply _. Defined.

(* SELECT ... FROM event_attachments WHERE event_id IN (chunk)
   ORDER BY created_at ASC *)
Definition selectAttachments (chunk : list string) (t : Tables) : list AttachmentRow :=
  merge_sort att_le (filter (fun r => att_event_id r ∈ chunk) (event_attachments t)).

Definition scanAttachment (r : AttachmentRow) : EventAttachment :=
  mkAttachment (att_file_id r) (att_title r) (att_mime_type r) (att_export_as r)
               (att_text_full r) (negb (att_truncated r =? 0)).

Definition appendAttachment (a : EventAttachment) (e : Event) : Event :=
  mkEvent (ID e) (Service e) (Type_ e) (Title e) (Content e) (Timestamp e)
          (Metadata e) (UserID e) (Attachments e ++ [a]).

Fixpoint updateFirst (id : string) (f : Event -> Event) (evs : list Event)
    : list Event :=
  match evs with
  | [] => []
  | e :: rest =>
      if String.eqb (ID e) id then f e :: rest else e :: updateFirst id f rest
  end.

(* eventByID[id] is the last event of the slice with that ID (later entries
   overwrite earlier ones); updating through the map updates that event. *)
Definition updateByID (id : string) (f : Event -> Event) (evs : list Event)
    : list Event :=
  reverse (updateFirst id f (reverse evs)).

Definition chunkSize : nat := 900.

(* for i := 0; i < len(ids); i += chunkSize { chunk := ids[i:min(i+chunkSize, len)] } *)
Definition chunks (ids : list string) : list (list string) :=
  (fun k => take chunkSize (drop (k * chunkSize) ids))
    <$> seq 0 ((length ids + chunkSize - 1) / chunkSize)%nat.

Definition populateAttachments (env : Env) (evs : list Event) : M (list Event) :=
  if (length evs =? 0)%nat then ret evs
  else
    let ids := ID <$> filter (fun e => ID e ≠ "") evs in
    if (length ids =? 0)%nat then ret evs
    else
      foldM (fun evs chunk =>
               rows <- queryCall env ErrQueryAttachments (selectAttachments chunk) ;;
               ret (foldl (fun evs r =>
                             updateByID (att_event_id r)
                                        (appendAttachment (scanAttachment r)) evs)
                          evs rows))
            (chunks ids) evs.

Definition getEventsM (env : Env) (startTime endTime : Time) (services : list string)
    : M (list Event) :=
  let startTimeUTC := UTC startTime in
  let endTimeUTC := UTC endTime in
  rows <- queryCall env ErrQueryEvents
            (selectEvents (datetimeBound (FormatSeconds startTimeUTC))
                          (datetimeBound (FormatSeconds endTimeUTC)) services) ;;
  populateAttachments env (scanEvent <$> rows).

Definition GetEvents (env : Env) (db : Tables) (startTime endTime : Time)
    (services : list string) : DBError + list Event :=
  (getEventsM env startTime endTime services (mkSt 0 (mkConn db None))).1.

(** *** InsertEvent, GetEventsByService, DeleteOldEvents, GetStats *)

(* InsertEvent: the transaction of InsertEvents for one event.  The message
   of its Exec site names no id; its label carries the empty one. *)
Definition insertEventM (env : Env) (event : Event) : M unit :=
  driverCall env ErrBegin txBegin ;;;
  defer txRollback
    (driverCall env ErrPrepare id ;;;
     driverCall env (ErrInsertEvent "")
       (onPending (fun t => mkTables (insertOrReplaceEvent (eventRow env event) (events t))
                                     (event_attachments t))) ;;;
     insertAttachmentsTx env event ;;;
     driverCall env ErrCommit txCommit).

Definition InsertEvent (env : Env) (db : Tables) (event : Event)
    : option DBError * Tables :=
  match insertEventM env event (mkSt 0 (mkConn db None)) with
  | (inl e, s) => (Some e, committed (conn s))
  | (inr _, s) => (None, committed (conn s))
  end.

Definition GetEventsByService (env : Env) (db : Tables) (service : string)
    (startTime endTime : Time) : DBError + list Event :=
  GetEvents env db startTime endTime [service].

Inductive MaintenanceError :=
  | ErrDeleteOldEvents    (* "failed to delete old events" *)
  | ErrRowsAffected       (* "failed to get rows affected" *)
  | ErrTotalEvents        (* "failed to get total events" *)
  | ErrEventsByService    (* "failed to get events by service" *)
  | ErrScanStats.         (* "failed to scan service stats" *)

(* -d on an int64 *)
Definition negDuration (d : Duration) : Duration :=
  if d =? minDuration then minDuration else - d.

(* DeleteOldEvents, with [now] for time.Now().  The bound is a time.Time and
   reaches the statement as a text of the same layout as the column's, so
   "timestamp < ?" compares two texts.  The statement runs outside any
   transaction: its effect is there when RowsAffected is asked for. *)
Definition DeleteOldEvents (env : Env) (now : Time) (olderThan : Duration)
    (db : Tables) : option MaintenanceError * Tables :=
  let cutoff := mkTime (unixNano now + negDuration olderThan) (zoneOffset now) in
  if fails env 0 then (Some ErrDeleteOldEvents, db)
  else
    let db' := mkTables (filter (fun r => ¬ text_lt (row_timestamp r) cutoff)
                                (events db))
                        (event_attachments db) in
    if fails env 1 then (Some ErrRowsAffected, db') else (None, db').

(* SELECT service, COUNT( * ) FROM events GROUP BY service has one row per
   service that has rows; [order] is the order in which the engine delivers
   them. *)
Definition countOf (service : string) (rows : list EventRow) : nat :=
  length (filter (fun r => row_service r = service) rows).

Definition groupsIn (order : list string) (rows : list EventRow)
    : list (string * nat) :=
  (fun service => (service, countOf service rows)) <$> order.

(* for rows.Next() { if err := rows.Scan(...); err != nil { return nil, err };
   stats[service] = count }; return stats, nil.  Whether a Next or a Scan
   fails is asked of the environment, as one call each.  A Next that fails
   ends the loop as the end of the rows does, and nobody asks rows.Err() for
   the reason. *)
Fixpoint statsLoop (env : Env) (call : nat) (groups : list (string * nat))
    (stats : gmap string nat) : MaintenanceError + gmap string nat :=
  match groups with
  | [] => inr stats
  | (service, count) :: rest =>
      if fails env call then inr stats
      else if fails env (S call) then inl ErrScanStats
      else statsLoop env (S (S call)) rest (<[service := count]> stats)
  end.

Definition GetStats (env : Env) (order : list string) (db : Tables)
    : MaintenanceError + gmap string nat :=
  if fails env 0 then inl ErrTotalEvents
  else
    let stats : gmap string nat := <["total" := length (events db)]> ∅ in
    if fails env 1 then inl ErrEventsByService
    else statsLoop env 2 (groupsIn order (events db)) stats.


End Database.

(** ** auth.TokenStore

    The store is one JSON file holding a list of [StoredToken].  The file is
    modelled by what [loadTokens] can make of it; reading, sealing the secret
    part and writing are decided by the environment of each call. *)

Module TokenStore.

Record StoredToken := mkStoredToken {
  ServiceName : string;
  AccessToken : string;
  RefreshToken : string;
  TokenType : string;
  ExpiresAt : option Time;
  Scopes : list string;
  CreatedAt : Time;
  LastRefresh : option Time;
  EncryptedData : string
}.

Inductive StoreFile :=
  | NoFile                                  (* the path does not exist *)
  | Garbage                                 (* content json.Unmarshal rejects *)
  | TokensFile (tokens : list StoredToken).

Inductive WriteOutcome :=
  | WriteOk
  | WriteRefused      (* os.WriteFile fails before touching the file *)
  | WriteTorn.        (* os.WriteFile fails after truncating the file *)

Record Env := mkEnv {
  read_denied : bool;     (* os.ReadFile fails for another reason than absence *)
  (* json.Marshal, AES-GCM with a fresh nonce and base64 of the secret part;
     None when one of them fails *)
  seal : string -> string -> option Time -> list string -> option string;
  now : Time;             (* time.Now() *)
  write : WriteOutcome
}.

Inductive StoreError :=
  | ErrNotExist        (* os.ReadFile: no such file *)
  | ErrRead            (* os.ReadFile: any other failure *)
  | ErrParse           (* "トークンストアの解析に失敗しました" *)
  | ErrSeal            (* serialising or encrypting the token data failed *)
  | ErrLoadExisting    (* "既存トークンの読み込みに失敗しました" *)
  | ErrLoad            (* "トークンの読み込みに失敗しました" *)
  | ErrWrite.          (* os.WriteFile failed *)

Definition loadTokens (env : Env) (file : StoreFile) : StoreError + list StoredToken :=
  if read_denied env then inl ErrRead
  else
    match file with
    | NoFile => inl ErrNotExist
    | Garbage => inl ErrParse
    | TokensFile tokens => inr tokens
    end.

Definition saveTokens (env : Env) (tokens : list StoredToken) (file : StoreFile)
    : option StoreError * StoreFile :=
  match write env with
  | WriteOk => (None, TokensFile tokens)
  | WriteRefused => (Some ErrWrite, file)
  | WriteTorn => (Some ErrWrite, Garbage)
  end.

(* for i, token := range tokens { if token.ServiceName == serviceName {
     tokens[i] = storedToken; found = true; break } }
   The result is None when the loop ends with found == false. *)
Fixpoint replaceFirst (serviceName : string) (storedToken : StoredToken)
    (tokens : list StoredToken) : option (list StoredToken) :=
  match tokens with
  | [] => None
  | token :: rest =>
      if String.eqb (ServiceName token) serviceName
      then Some (storedToken :: rest)
      else (fun rest' => token :: rest') <$> replaceFirst serviceName storedToken rest
  end.

Definition upsert (serviceName : string) (storedToken : StoredToken)
    (tokens : list StoredToken) : list StoredToken :=
  match replaceFirst serviceName storedToken tokens with
  | Some tokens' => tokens'
  | None => tokens ++ [storedToken]
  end.

Definition StoreToken (env : Env) (file : StoreFile)
    (serviceName accessToken refreshToken : string) (expiresAt : option Time)
    (scopes : list string) : option StoreError * StoreFile :=
  match seal env accessToken refreshToken expiresAt scopes with
  | None => (Some ErrSeal, file)
  | Some encryptedData =>
      let storedToken :=
        mkStoredToken serviceName "" "" "access" None [] (now env) None encryptedData in
      match loadTokens env file with
      | inl ErrNotExist => saveTokens env (upsert serviceName storedToken []) file
      | inl _ => (Some ErrLoadExisting, file)
      | inr tokens => saveTokens env (upsert serviceName storedToken tokens) file
      end
  end.

(* for _, token := range tokens { if token.ServiceName != serviceName { keep } } *)
Definition DeleteToken (env : Env) (file : StoreFile) (serviceName : string)
    : option StoreError * StoreFile :=
  match loadTokens env file with
  | inl _ => (Some ErrLoad, file)
  | inr tokens =>
      saveTokens env (filter (fun token => ServiceName token ≠ serviceName) tokens) file
  end.

Definition setLastRefresh (t : Time) (token : StoredToken) : StoredToken :=
  mkStoredToken (ServiceName token) (AccessToken token) (RefreshToken token)
                (TokenType token) (ExpiresAt token) (Scopes token) (CreatedAt token)
                (Some t) (EncryptedData token).

(* for i, token := range tokens { if token.ServiceName == serviceName {
     tokens[i].LastRefresh = &now; break } } *)
Fixpoint touchFirst (serviceName : string) (t : Time) (tokens : list StoredToken)
    : list StoredToken :=
  match tokens with
  | [] => []
  | token :: rest =>
      if String.eqb (ServiceName token) serviceName
      then setLastRefresh t token :: rest
      else token :: touchFirst serviceName t rest
  end.

Definition UpdateRefreshTime (env : Env) (file : StoreFile) (serviceName : string)
    : option StoreError * StoreFile :=
  match loadTokens env file with
  | inl _ => (Some ErrLoad, file)
  | inr tokens => saveTokens env (touchFirst serviceName (now env) tokens) file
  end.

(* ListServices, on a readable store. *)
Definition serviceNames (tokens : list StoredToken) : list string :=
  ServiceName <$> tokens.

(* The calls a client of the store can make, and a run of them, each in the
   environment it meets. *)
Inductive Op :=
  | OpStoreToken (serviceName accessToken refreshToken : string)
                 (expiresAt : option Time) (scopes : list string)
  | OpUpdateRefreshTime (serviceName : string)
  | OpDeleteToken (serviceName : string).

Definition step (file : StoreFile) (c : Env * Op) : StoreFile :=
  match c.2 with
  | OpStoreToken n a r e s => (StoreToken c.1 file n a r e s).2
  | OpUpdateRefreshTime n => (UpdateRefreshTime c.1 file n).2
  | OpDeleteToken n => (DeleteToken c.1 file n).2
  end.

Definition run (file : StoreFile) (cs : list (Env * Op)) : StoreFile :=
  foldl step file cs.


(** *** GetToken, ListServices *)

(* The decrypted token data as GetToken reads it: each field is there when
   the JSON value has the type the code asserts. *)
Record TokenData := mkTokenData {
  access_token : option string;
  refresh_token : option string;
  scopes : option (list (option string));   (* an array; its string elements *)
  expires_at : option string
}.

Inductive Unsealed :=
  | BadBase64                  (* base64 decoding fails *)
  | BadCipher                  (* AES-GCM does not open *)
  | BadJSON                    (* json.Unmarshal fails *)
  | Opened (d : TokenData).

Record Opener := mkOpener {
  unseal : string -> Unsealed;              (* base64, decrypt, json.Unmarshal *)
  parseRFC3339 : string -> option Time      (* time.Parse(time.RFC3339, s) *)
}.

Inductive GetError :=
  | ErrGetLoad          (* "トークンの読み込みに失敗しました" *)
  | ErrDecode           (* "暗号化データのデコードに失敗しました" *)
  | ErrDecrypt          (* "トークンデータの復号化に失敗しました" *)
  | ErrUnmarshal        (* "復号化されたトークンデータの解析に失敗しました" *)
  | ErrTokenNotFound.   (* "サービス %s のトークンが見つかりません" *)

(* for _, token := range tokens { if token.ServiceName == serviceName { ... } } *)
Fixpoint findToken (serviceName : string) (tokens : list StoredToken)
    : option StoredToken :=
  match tokens with
  | [] => None
  | token :: rest =>
      if String.eqb (ServiceName token) serviceName then Some token
      else findToken serviceName rest
  end.

Definition fillToken (opener : Opener) (token : StoredToken) (d : TokenData)
    : StoredToken :=
  let accessToken :=
    match access_token d with Some a => a | None => AccessToken token end in
  let refreshToken :=
    match refresh_token d with Some r => r | None => RefreshToken token end in
  let tokenScopes :=
    match scopes d with
    | Some l => (fun scope => match scope with Some s => s | None => "" end : string) <$> l
    | None => Scopes token
    end in
  let expiresAt :=
    match expires_at d with
    | Some expiresAtStr =>
        if String.eqb expiresAtStr "" then ExpiresAt token
        else match parseRFC3339 opener expiresAtStr with
             | Some t => Some t
             | None => ExpiresAt token
             end
    | None => ExpiresAt token
    end in
  mkStoredToken (ServiceName token) accessToken refreshToken (TokenType token)
                expiresAt tokenScopes (CreatedAt token) (LastRefresh token)
                (EncryptedData token).

Definition GetToken (opener : Opener) (env : Env) (file : StoreFile)
    (serviceName : string) : GetError + StoredToken :=
  match loadTokens env file with
  | inl _ => inl ErrGetLoad
  | inr tokens =>
      match findToken serviceName tokens with
      | None => inl ErrTokenNotFound
      | Some token =>
          match unseal opener (EncryptedData token) with
          | BadBase64 => inl ErrDecode
          | BadCipher => inl ErrDecrypt
          | BadJSON => inl ErrUnmarshal
          | Opened d => inr (fillToken opener token d)
          end
      end
  end.

Definition ListServices (env : Env) (file : StoreFile) : GetError + list string :=
  match loadTokens env file with
  | inl _ => inl ErrGetLoad
  | inr tokens => inr (serviceNames tokens)
  end.


End TokenStore.

(** ** auth.SlackAuthManager

    The manager embeds BaseAuthManager: a configuration and a status.  The
    remote validation of a token is an argument; the store, when there is
    one, is the token file. *)

Module SlackAuthManager.

Record AuthStatus := mkAuthStatus {
  IsValid : bool;
  StatusExpiresAt : option Time;
  LastChecked : Time;
  ErrorMessage : string;
  StatusTokenType : string
}.

(* auth.AuthConfig has the fields of config.AuthConfig. *)
Record Manager := mkManager {
  config : Config.AuthConfig;
  status : AuthStatus;
  hasStore : bool            (* s.store != nil *)
}.

Inductive AuthError :=
  | ErrValidation                     (* the validator returned an error *)
  | ErrNoRefreshToken                 (* "リフレッシュトークンが設定されていません" *)
  | ErrRefreshUnsupported             (* "Slackトークンのリフレッシュには再認証が必要です" *)
  | ErrNoStore                        (* "トークンストアが設定されていません" *)
  | ErrFromStore (e : TokenStore.GetError)   (* "ストアからのトークン取得に失敗" *)
  | ErrDelete (e : TokenStore.StoreError).

Definition NewBaseAuthManager (now : Time) (cfg : Config.AuthConfig) (withStore : bool)
    : Manager :=
  mkManager cfg (mkAuthStatus false None now "" "access") withStore.

(* BaseAuthManager.IsTokenExpired *)
Definition IsTokenExpired (now : Time) (m : Manager) : bool :=
  match Config.authTokenExpiresAt (config m) with
  | None => false
  | Some expiresAt => After now expiresAt
  end.

(* BaseAuthManager.UpdateStatus *)
Definition UpdateStatus (now : Time) (isValid : bool) (errorMessage : string)
    (m : Manager) : Manager :=
  mkManager (config m)
            (mkAuthStatus isValid (Config.authTokenExpiresAt (config m)) now
                          errorMessage (StatusTokenType (status m)))
            (hasStore m).

(* What ValidateSlackToken answers: the text of an error, or a status of
   which the manager keeps IsValid and ErrorMessage. *)
Definition Validator : Type := string -> string + bool * string.

(* ValidateToken: the manager afterwards, the returned error, the token file
   afterwards, and whether the validator was called.  The clock readings of
   one call are taken as one instant, [now]. *)
Definition ValidateToken (validate : Validator) (env : TokenStore.Env) (now : Time)
    (m : Manager) (file : TokenStore.StoreFile)
    : Manager * option AuthError * TokenStore.StoreFile * bool :=
  if String.eqb (Config.authAccessToken (config m)) ""
  then (UpdateStatus now false "アクセストークンが設定されていません" m, None, file, false)
  else if IsTokenExpired now m
  then (UpdateStatus now false "トークンの有効期限が切れています" m, None, file, false)
  else
    match validate (Config.authAccessToken (config m)) with
    | inl text =>
        (UpdateStatus now false ("トークン検証エラー: " +:+ text) m,
         Some ErrValidation, file, true)
    | inr (isValid, errorMessage) =>
        let m' := UpdateStatus now isValid errorMessage m in
        if isValid && hasStore m
        then (m', None,
              (TokenStore.StoreToken env file "slack"
                 (Config.authAccessToken (config m)) (Config.authRefreshToken (config m))
                 (Config.authTokenExpiresAt (config m))
                 ["chat:write"; "channels:read"]).2,
              true)
        else (m', None, file, true)
    end.

Definition RefreshToken (m : Manager) : AuthError :=
  if String.eqb (Config.authRefreshToken (config m)) "" then ErrNoRefreshToken
  else ErrRefreshUnsupported.

Definition ShouldRefresh (m : Manager) : bool :=
  negb (IsValid (status m))
  && negb (String.eqb (Config.authRefreshToken (config m)) "").

Definition setToken (accessToken refreshToken : string) (expiresAt : option Time)
    (cfg : Config.AuthConfig) : Config.AuthConfig :=
  Config.mkAuthConfig accessToken refreshToken expiresAt
    (Config.authAutoRefresh cfg) (Config.authValidationInterval cfg)
    (Config.authMaxRetries cfg) (Config.authRetryBackoffMultiplier cfg).

Definition UpdateTokenFromStore (opener : TokenStore.Opener) (env : TokenStore.Env)
    (m : Manager) (file : TokenStore.StoreFile) : Manager * option AuthError :=
  if negb (hasStore m) then (m, Some ErrNoStore)
  else
    match TokenStore.GetToken opener env file "slack" with
    | inl e => (m, Some (ErrFromStore e))
    | inr storedToken =>
        (mkManager (setToken (TokenStore.AccessToken storedToken)
                             (TokenStore.RefreshToken storedToken)
                             (TokenStore.ExpiresAt storedToken) (config m))
                   (status m) (hasStore m),
         None)
    end.

Definition ClearToken (env : TokenStore.Env) (now : Time) (m : Manager)
    (file : TokenStore.StoreFile)
    : Manager * option AuthError * TokenStore.StoreFile :=
  let m' := UpdateStatus now false "トークンがクリアされました"
              (mkManager (setToken "" "" None (config m)) (status m) (hasStore m)) in
  if hasStore m
  then
    match TokenStore.DeleteToken env file "slack" with
    | (Some e, file') => (m', Some (ErrDelete e), file')
    | (None, file') => (m', None, file')
    end
  else (m', None, file).

End SlackAuthManager.

(** ** services.RetryTransport *)

Module Retry.

(* strconv.Atoi: an optional sign, then decimal digits only, the value within
   the range of a 64-bit int. *)
Fixpoint digits (s : string) (acc : Z) : option Z :=
  match s with
  | EmptyString => Some acc
  | String c rest =>
      let d := Z.of_nat (nat_of_ascii c) - 48 in
      if (0 <=? d) && (d <=? 9) then digits rest (10 * acc + d) else None
  end.

Definition Atoi (s : string) : option Z :=
  match s with
  | EmptyString => None
  | String c rest =>
      let '(neg, body) :=
        if Ascii.eqb c "-"%char then (true, rest)
        else if Ascii.eqb c "+"%char then (false, rest)
        else (false, s) in
      match body with
      | EmptyString => None
      | _ =>
          match digits body 0 with
          | Some n =>
              let v := if neg : bool then - n else n in
              if (- 2 ^ 63 <=? v) && (v <=? 2 ^ 63 - 1) then Some v else None
          | None => None
          end
      end
  end.

Record Response := mkResponse {
  StatusCode : Z;
  RetryAfter : string    (* resp.Header.Get("Retry-After"), "" when absent *)
}.

Definition StatusTooManyRequests : Z := 429.

Inductive Sleep :=
  | SleepNetwork (d : Duration)      (* time.Sleep after a transport error *)
  | SleepRateLimit (d : Duration).   (* time.Sleep(retryAfter) after a 429 *)

Inductive TransportError := NetworkError.

Inductive RoundTripError :=
  | ErrRequestFailed (attempts : Z).   (* "request failed after %d attempts" *)

Record Outcome := mkOutcome {
  response : option Response;
  error : option RoundTripError;
  sleeps : list Sleep
}.

Section transport.

(* time.Parse(time.RFC1123, s) *)
Variable parseRFC1123 : string -> option Time.

(* [now] is time.Now() inside time.Until. *)
Definition getRetryAfterDelay (now : Time) (resp : Response) : Duration :=
  let retryAfterHeader := RetryAfter resp in
  if String.eqb retryAfterHeader "" then 60 * Second
  else
    match Atoi retryAfterHeader with
    | Some seconds =>
        let seconds := if 300 <? seconds then 300 else seconds in
        let seconds := if seconds <? 1 then 1 else seconds in
        seconds * Second
    | None =>
        match parseRFC1123 retryAfterHeader with
        | Some retryTime =>
            let delay := Sub retryTime now in
            let delay := if 5 * Minute <? delay then 5 * Minute else delay in
            let delay := if delay <? 1 * Second then 1 * Second else delay in
            delay
        | None => 60 * Second
        end
    end.

(* The wrapped transport answers the attempt-th call; the clock is read when
   that answer is examined. *)
Variable Transport : Z -> TransportError + Response.
Variable clock : Z -> Time.
Variable MaxRetries : Z.

(* for attempt := 0; attempt <= rt.MaxRetries; attempt++ { ... }, with the
   number of iterations left as the structural argument. *)
Fixpoint roundTripFrom (left : nat) (attempt : Z) (slept : list Sleep) : Outcome :=
  match left with
  | O => mkOutcome None None slept   (* return resp, err: both still nil *)
  | S left' =>
      match Transport attempt with
      | inl _ =>
          if attempt =? MaxRetries
          then mkOutcome None (Some (ErrRequestFailed (MaxRetries + 1))) slept
          else roundTripFrom left' (attempt + 1)
                 (slept ++ [SleepNetwork ((attempt + 1) * Second)])
      | inr resp =>
          if negb (StatusCode resp =? StatusTooManyRequests)
          then mkOutcome (Some resp) None slept
          else if attempt =? MaxRetries
          then mkOutcome (Some resp) None slept
          else
            let retryAfter := getRetryAfterDelay (clock attempt) resp in
            roundTripFrom left' (attempt + 1) (slept ++ [SleepRateLimit retryAfter])
      end
  end.

Definition RoundTrip : Outcome :=
  roundTripFrom (Z.to_nat (MaxRetries + 1)) 0 [].

End transport.


(** *** RetryableSlackClient *)

(* NewRetryableSlackClient: the retry budget given to the transport and kept
   by the client. *)
Record RetryableSlackClient := mkRetryableSlackClient {
  transportMaxRetries : Z;     (* RetryTransport.MaxRetries *)
  maxRetries : Z
}.

Definition NewRetryableSlackClient (maxRetries : Z) : RetryableSlackClient :=
  let maxRetries := if maxRetries <=? 0 then 3 else maxRetries in
  mkRetryableSlackClient maxRetries maxRetries.

(* What apiCall() returns: nil, a *slack.RateLimitedError with its
   RetryAfter, or any other error. *)
Inductive CallResult :=
  | CallOk
  | CallRateLimited (retryAfter : Z)
  | CallFailed.

Inductive APIError :=
  | ErrFailedAfter (attempts : Z) (lastErr : option CallResult).
                             (* "%s failed after %d attempts: %w" *)

Record CallOutcome := mkCallOutcome {
  callError : option APIError;
  callCount : nat;               (* how often apiCall was invoked *)
  callSleeps : list Duration
}.

(* the product of two int64 *)
Definition mul64 (a b : Z) : Z := (a * b + 2 ^ 63) `mod` 2 ^ 64 - 2 ^ 63.

Section api_call.

Variable apiCall : Z -> CallResult.   (* the answer to the attempt-th call *)
Variable r : RetryableSlackClient.

(* for attempt := 0; attempt <= r.maxRetries; attempt++ { ... } followed by
   the final return. *)
Fixpoint retryableFrom (left : nat) (attempt : Z) (calls : nat)
    (slept : list Duration) (lastErr : option CallResult) : CallOutcome :=
  match left with
  | O => mkCallOutcome (Some (ErrFailedAfter (maxRetries r + 1) lastErr)) calls slept
  | S left' =>
      match apiCall attempt with
      | CallOk => mkCallOutcome None (S calls) slept
      | CallRateLimited retryAfter =>
          if attempt =? maxRetries r
          then mkCallOutcome
                 (Some (ErrFailedAfter (maxRetries r + 1)
                                       (Some (CallRateLimited retryAfter))))
                 (S calls) slept
          else
            let delay := mul64 retryAfter Second in
            let delay := if 5 * Minute <? delay then 5 * Minute else delay in
            retryableFrom left' (attempt + 1) (S calls) (slept ++ [delay])
                          (Some (CallRateLimited retryAfter))
      | CallFailed =>
          mkCallOutcome (Some (ErrFailedAfter (maxRetries r + 1) (Some CallFailed)))
                        (S calls) slept
      end
  end.

Definition RetryableAPICall : CallOutcome :=
  retryableFrom (Z.to_nat (maxRetries r + 1)) 0 0 [] None.

End api_call.

(* A sleep that answers a rate-limited response lies within [1s, 300s]. *)
Definition rateLimitSleepBounded (s : Sleep) : Prop :=
  match s with
  | SleepRateLimit d => 1 * Second <= d <= 300 * Second
  | SleepNetwork _ => True
  end.

End Retry.

(** ** collector.EventCollector: initialization, status, CollectAndStore *)

Module EventCollector.
Import Collector.

(* prioritizeCalendarService: google_calendar entries are moved to the
   front. *)
Definition prioritizeStep (acc : list string * list string) (serviceName : string)
    : list string * list string :=
  if String.eqb serviceName "google_calendar"
  then (acc.1 ++ [serviceName], acc.2)
  else (acc.1, acc.2 ++ [serviceName]).

Definition prioritizeCalendarService (serviceNames : list string) : list string :=
  let '(prioritized, others) := foldl prioritizeStep ([], []) serviceNames in
  prioritized ++ others.

(* The constructors of package services; None stands for a returned error. *)
Record Clients := mkClients {
  NewSlackClient : string -> Config.Config -> option ServiceClient;
  NewGitHubClientWithConfig : string -> Config.Config -> option ServiceClient;
  NewCalendarClient : Config.Config -> option ServiceClient
}.

Inductive InitError :=
  | ErrNoTargets                    (* "初期化対象サービスが指定されていません" *)
  | ErrDisabled (name : string)     (* "サービス '%s' は設定で無効です" *)
  | ErrNoToken (name : string)      (* "サービス '%s' のアクセストークンが未設定です" *)
  | ErrClientInit (name : string)   (* "...クライアントの初期化に失敗しました" *)
  | ErrUnknownService (name : string) (* "未知のサービスが指定されました: %s" *)
  | ErrNoServices.                  (* "有効または適切に設定されたサービスがありません" *)

(* InitializeServices: every enabled service whose client can be built is
   registered; a client that cannot be built is only warned about. *)
Definition InitializeServices (k : Clients) (cfg : Config.Config)
    : option InitError * gmap string ServiceClient :=
  let services : gmap string ServiceClient := ∅ in
  let services :=
    if Config.Enabled (Config.Slack cfg)
       && negb (String.eqb (Config.AccessToken (Config.Slack cfg)) "")
    then match NewSlackClient k (Config.AccessToken (Config.Slack cfg)) cfg with
         | Some client => <["slack" := client]> services
         | None => services
         end
    else services in
  let services :=
    if Config.Enabled (Config.GitHub cfg)
       && negb (String.eqb (Config.AccessToken (Config.GitHub cfg)) "")
    then match NewGitHubClientWithConfig k (Config.AccessToken (Config.GitHub cfg)) cfg with
         | Some client => <["github" := client]> services
         | None => services
         end
    else services in
  let services :=
    if Config.Enabled (Config.GoogleCal cfg)
    then match NewCalendarClient k cfg with
         | Some client => <["google_calendar" := client]> services
         | None => services
         end
    else services in
  if (size services =? 0)%nat then (Some ErrNoServices, services)
  else (None, services).

(* The body of the switch of InitializeServicesFor for one name: the client
   to register, or the error the function returns at once. *)
Definition initializeOne (k : Clients) (cfg : Config.Config) (serviceName : string)
    : InitError + ServiceClient :=
  if String.eqb serviceName "slack" then
    if negb (Config.Enabled (Config.Slack cfg)) then inl (ErrDisabled "slack")
    else if String.eqb (Config.AccessToken (Config.Slack cfg)) ""
    then inl (ErrNoToken "slack")
    else match NewSlackClient k (Config.AccessToken (Config.Slack cfg)) cfg with
         | Some client => inr client
         | None => inl (ErrClientInit "slack")
         end
  else if String.eqb serviceName "github" then
    if negb (Config.Enabled (Config.GitHub cfg)) then inl (ErrDisabled "github")
    else if String.eqb (Config.AccessToken (Config.GitHub cfg)) ""
    then inl (ErrNoToken "github")
    else match NewGitHubClientWithConfig k (Config.AccessToken (Config.GitHub cfg)) cfg with
         | Some client => inr client
         | None => inl (ErrClientInit "github")
         end
  else if String.eqb serviceName "google_calendar" then
    if negb (Config.Enabled (Config.GoogleCal cfg))
    then inl (ErrDisabled "google_calendar")
    else match NewCalendarClient k cfg with
         | Some client => inr client
         | None => inl (ErrClientInit "google_calendar")
         end
  else inl (ErrUnknownService serviceName).

(* for _, serviceName := range orderedServiceNames { switch ... } *)
Fixpoint initializeEach (k : Clients) (cfg : Config.Config)
    (serviceNames : list string) (services : gmap string ServiceClient)
    : option InitError * gmap string ServiceClient :=
  match serviceNames with
  | [] => (None, services)
  | serviceName :: rest =>
      match initializeOne k cfg serviceName with
      | inl e => (Some e, services)
      | inr client => initializeEach k cfg rest (<[serviceName := client]> services)
      end
  end.

Definition InitializeServicesFor (k : Clients) (cfg : Config.Config)
    (serviceNames : list string) : option InitError * gmap string ServiceClient :=
  if (length serviceNames =? 0)%nat then (Some ErrNoTargets, ∅)
  else
    match initializeEach k cfg (prioritizeCalendarService serviceNames) ∅ with
    | (Some e, services) => (Some e, services)
    | (None, services) =>
        if (size services =? 0)%nat then (Some ErrNoServices, services)
        else (None, services)
    end.

Definition isGCloudAuthenticated : bool := true.

Definition isServiceAuthenticated (cfg : Config.Config) (serviceName : string) : bool :=
  if String.eqb serviceName "slack"
  then negb (String.eqb (Config.AccessToken (Config.Slack cfg)) "")
  else if String.eqb serviceName "github"
  then negb (String.eqb (Config.AccessToken (Config.GitHub cfg)) "")
  else if String.eqb serviceName "google_calendar"
  then negb (String.eqb (Config.AccessToken (Config.GoogleCal cfg)) "")
       || isGCloudAuthenticated
  else false.

Definition isServiceEnabled (cfg : Config.Config) (serviceName : string) : bool :=
  if String.eqb serviceName "slack" then Config.Enabled (Config.Slack cfg)
  else if String.eqb serviceName "github" then Config.Enabled (Config.GitHub cfg)
  else if String.eqb serviceName "google_calendar"
  then Config.Enabled (Config.GoogleCal cfg)
  else false.

Definition isServiceInitialized (services : gmap string ServiceClient)
    (serviceName : string) : bool :=
  bool_decide (is_Some (services !! serviceName)).

Record ServiceStatus := mkServiceStatus {
  Name : string;
  StatusEnabled : bool;
  Authenticated : bool;
  Initialized : bool
}.

Definition GetServiceStatus (cfg : Config.Config)
    (services : gmap string ServiceClient) : gmap string ServiceStatus :=
  foldl (fun status serviceName =>
           <[serviceName := mkServiceStatus serviceName
                              (isServiceEnabled cfg serviceName)
                              (isServiceAuthenticated cfg serviceName)
                              (isServiceInitialized services serviceName)]> status)
        ∅ ["slack"; "github"; "google_calendar"].

Definition GetEnabledServices (cfg : Config.Config) : list string :=
  let services := [] in
  let services := if Config.Enabled (Config.Slack cfg)
                  then services ++ ["slack"] else services in
  let services := if Config.Enabled (Config.GitHub cfg)
                  then services ++ ["github"] else services in
  let services := if Config.Enabled (Config.GoogleCal cfg)
                  then services ++ ["google_calendar"] else services in
  services.

Inductive StoreError :=
  | ErrCollect (e : CollectError)       (* "イベント収集に失敗しました" *)
  | ErrInsert (e : Database.DBError).   (* "イベント保存に失敗しました" *)

(* CollectAndStore on the stored tables [db]: the returned error and the
   tables stored afterwards. *)
Definition CollectAndStore (services : gmap string ServiceClient)
    (order : list string) (env : Database.Env) (db : Database.Tables)
    (startTime endTime : Time) (serviceNames : list string)
    : option StoreError * Database.Tables :=
  let r := CollectEvents services order startTime endTime serviceNames in
  match err r with
  | Some e => (Some (ErrCollect e), db)
  | None =>
      if (length (events r) =? 0)%nat then (None, db)
      else
        match Database.InsertEvents env db (events r) with
        | (Some e, db') => (Some (ErrInsert e), db')
        | (None, db') => (None, db')
        end
  end.

Inductive UpdateError :=
  | ErrUnknownAuthService (name : string).   (* "未知のサービス: %s" *)

(* UpdateAuthConfig: the returned error and the configuration afterwards.
   The AuthConfig of package auth is copied field by field into one of
   package config.  The authentication managers, which the method then builds
   again from the configuration, are not part of this result. *)
Definition UpdateAuthConfig (cfg : Config.Config) (serviceName : string)
    (authConfig : Config.AuthConfig) : option UpdateError * Config.Config :=
  if String.eqb serviceName "slack" then
    (None, Config.mkConfig (Config.UpdateFromAuthConfig (Config.Slack cfg) authConfig)
             (Config.GitHub cfg) (Config.GoogleCal cfg) (Config.CalendarOptions cfg)
             (Config.DatabasePath cfg) (Config.Timezone cfg))
  else if String.eqb serviceName "github" then
    (None, Config.mkConfig (Config.Slack cfg)
             (Config.UpdateFromAuthConfig (Config.GitHub cfg) authConfig)
             (Config.GoogleCal cfg) (Config.CalendarOptions cfg)
             (Config.DatabasePath cfg) (Config.Timezone cfg))
  else if String.eqb serviceName "calendar" then
    (None, Config.mkConfig (Config.Slack cfg) (Config.GitHub cfg)
             (Config.UpdateFromAuthConfig (Config.GoogleCal cfg) authConfig)
             (Config.CalendarOptions cfg)
             (Config.DatabasePath cfg) (Config.Timezone cfg))
  else (Some (ErrUnknownAuthService serviceName), cfg).

End EventCollector.

(** ** Specification-side definitions

    Notions the statements and their proofs are phrased with. *)

(* One pass of [k] comparisons, by recursion on the slice. *)
Fixpoint pass (k : nat) (l : list Event) : list Event :=
  match k, l with
  | S k', a :: b :: rest =>
      if After (Timestamp a) (Timestamp b)
      then b :: pass k' (a :: rest)
      else a :: pass k' (b :: rest)
  | _, _ => l
  end.

(* The slice from index [p] on is in order and holds the latest events. *)
Definition settled (p : nat) (l : list Event) : Prop :=
  StronglySorted le_ts (drop p l)
  /\ Forall (fun x => Forall (le_ts x) (drop p l)) (take p l).

(* The events of the services that answer: what the claims call the union of
   the successful services' events. *)
Definition successfulEvents (startTime endTime : Time)
    (candidates : gmap string Collector.ServiceClient) : list Event :=
  mjoin ((fun kc => Collector.contribution startTime endTime kc.2)
           <$> map_to_list candidates).

(* What the worker for [name] appends. *)
Definition answer (startTime endTime : Time)
    (candidates : gmap string Collector.ServiceClient) (name : string) : list Event :=
  match candidates !! name with
  | Some client => Collector.contribution startTime endTime client
  | None => []
  end.

(* None of the [c] driver calls from the [a]-th on reports an error. *)
Definition clean (env : Database.Env) (a c : nat) : Prop :=
  forall n, (a <= n < a + c)%nat -> Database.fails env n = false.

(* The driver calls [insertAttachmentsTx] makes for an event when none fails:
   the Prepare and one Exec per attachment with a file id. *)
Definition attachmentCalls (event : Event) : nat :=
  if (length (Attachments event) =? 0)%nat then 0%nat
  else S (length (filter (fun a => FileID a ≠ "") (Attachments event))).

(* The driver calls of a whole [InsertEvents] run: Begin, Prepare, for every
   event its Exec and its attachment calls, Commit. *)
Definition callCount (evs : list Event) : nat :=
  (2 + sum_list ((fun e => S (attachmentCalls e)) <$> evs) + 1)%nat.

(* What a batch does to the tables when every statement is executed. *)
Definition applyAttachment (env : Database.Env) (event : Event)
    (rows : list Database.AttachmentRow) (a : EventAttachment)
    : list Database.AttachmentRow :=
  if String.eqb (FileID a) "" then rows
  else Database.insertOrReplaceAttachment (Database.attachmentRow env event a) rows.

Definition applyEvent (env : Database.Env) (t : Database.Tables) (event : Event)
    : Database.Tables :=
  Database.mkTables
    (Database.insertOrReplaceEvent (Database.eventRow env event) (Database.events t))
    (foldl (applyAttachment env event) (Database.event_attachments t)
           (Attachments event)).

Definition applyBatch (env : Database.Env) (t : Database.Tables) (evs : list Event)
    : Database.Tables :=
  foldl (applyEvent env) t evs.

Definition succeeded {A} (r : Database.DBError + A) : Prop :=
  match r with
  | inr _ => True
  | inl _ => False
  end.

(* [m] makes [cost] driver calls when none fails; it succeeds exactly when
   none fails and then has the effect [F] on the connection; when it fails
   the committed tables are as before. *)
Definition obeys (env : Database.Env) (m : Database.M unit)
    (F : Database.Conn -> Database.Conn) (cost : nat) : Prop :=
  forall s,
    (succeeded (m s).1 <-> clean env (Database.calls s) cost)
    /\ (succeeded (m s).1 ->
        Database.conn (m s).2 = F (Database.conn s)
        /\ Database.calls (m s).2 = (Database.calls s + cost)%nat)
    /\ (~ succeeded (m s).1 ->
        Database.committed (Database.conn (m s).2)
        = Database.committed (Database.conn s)).

(* The rows of the events table with the given id. *)
Definition rowsWithID (id : string) (rows : list Database.EventRow)
    : list Database.EventRow :=
  filter (fun r => Database.row_id r = id) rows.

(* The effect of one attachment of [event] on the connection. *)
Definition attachmentEffect (env : Database.Env) (event : Event)
    (a : EventAttachment) : Database.Conn -> Database.Conn :=
  if String.eqb (FileID a) "" then id
  else Database.onPending
         (fun t => Database.mkTables (Database.events t)
            (Database.insertOrReplaceAttachment (Database.attachmentRow env event a)
                                                (Database.event_attachments t))).

(* The events table after the Execs of a batch. *)
Definition storeRows (env : Database.Env) (rows : list Database.EventRow)
    (evs : list Event) : list Database.EventRow :=
  foldl (fun rows e => Database.insertOrReplaceEvent (Database.eventRow env e) rows)
        rows evs.

(* The client InitializeServicesFor registers for a name, when it can. *)
Definition built (k : EventCollector.Clients) (cfg : Config.Config) (n : string)
    : option Collector.ServiceClient :=
  match EventCollector.initializeOne k cfg n with
  | inr client => Some client
  | inl _ => None
  end.

(* The row ids a batch writes into the attachments table. *)
Definition writtenAttachmentIDs (evs : list Event) : list string :=
  e ← evs;
  (fun a => Database.attachmentRowID (ID e) (FileID a))
    <$> filter (fun a => FileID a ≠ "") (Attachments e).

(* What the JSON and cipher libraries guarantee between StoreToken and
   GetToken: a payload sealed from four values opens to a JSON object that
   holds them again (a nil slice as null, a nil expiry as null, an expiry as a
   text that time.Parse reads back). *)
Definition sealedScopes (s : list string) (d : option (list (option string))) : Prop :=
  (d = None /\ s = []) \/ d = Some (Some <$> s).

Definition sealedExpiry (opener : TokenStore.Opener) (e : option Time)
    (d : option string) : Prop :=
  match e with
  | None => d = None
  | Some t => exists str, d = Some str /\ str ≠ ""
                          /\ TokenStore.parseRFC3339 opener str = Some t
  end.

Definition Opens (opener : TokenStore.Opener) (env : TokenStore.Env) : Prop :=
  forall a r e s c,
    TokenStore.seal env a r e s = Some c ->
    exists d, TokenStore.unseal opener c = TokenStore.Opened d
              /\ TokenStore.access_token d = Some a
              /\ TokenStore.refresh_token d = Some r
              /\ sealedScopes s (TokenStore.scopes d)
              /\ sealedExpiry opener e (TokenStore.expires_at d).

(* A stored token with its refresh time set. *)
Definition refreshedAt (t : Time) (serviceName target : string)
    (token : TokenStore.StoredToken) : TokenStore.StoredToken :=
  if decide (serviceName = target) then TokenStore.setLastRefresh t token else token.

(* The sleep by which RoundTrip answers the attempt-th answer of the wrapped
   transport when it retries it: a transport error or a 429 response; none
   for any other response. *)
Definition retried (parseRFC1123 : string -> option Time)
    (Transport : Z -> Retry.TransportError + Retry.Response) (clock : Z -> Time)
    (attempt : Z) : option Retry.Sleep :=
  match Transport attempt with
  | inl _ => Some (Retry.SleepNetwork ((attempt + 1) * Second))
  | inr resp =>
      if Retry.StatusCode resp =? Retry.StatusTooManyRequests
      then Some (Retry.SleepRateLimit
                   (Retry.getRetryAfterDelay parseRFC1123 (clock attempt) resp))
      else None
  end.

(* The sleep by which RetryableAPICall answers a rate-limited call. *)
Definition rateLimitWait (apiCall : Z -> Retry.CallResult) (attempt : Z)
    (d : Duration) : Prop :=
  exists retryAfter,
    apiCall attempt = Retry.CallRateLimited retryAfter
    /\ d = Z.min (5 * Minute) (Retry.mul64 retryAfter Second).

(* The authentication settings the configuration holds for a service, under
   the names UpdateAuthConfig knows. *)
Definition authOf (cfg : Config.Config) (serviceName : string)
    : option Config.AuthConfig :=
  if String.eqb serviceName "slack" then Some (Config.ToAuthConfig (Config.Slack cfg))
  else if String.eqb serviceName "github"
  then Some (Config.ToAuthConfig (Config.GitHub cfg))
  else if String.eqb serviceName "calendar"
  then Some (Config.ToAuthConfig (Config.GoogleCal cfg))
  else None.

(* What of a service's configuration is not an authentication setting. *)
Definition identityOf (sc : Config.ServiceConfig) : string * string * bool * bool :=
  (Config.ClientID sc, Config.ClientSecret sc, Config.Enabled sc, Config.UseOkta sc).

(* No character of [s] is one of [bad]. *)
Fixpoint avoids (bad : list ascii) (s : string) : bool :=
  match s with
  | EmptyString => true
  | String c s' => bool_decide (c ∉ bad) && avoids bad s'
  end.

(* A timestamp that the engine reads to the whole second of its instant and
   that the driver reads back as it was written: the year has four digits on
   the wall clock and in UTC, the offset is a whole number of minutes below
   fifteen hours, and the fraction of the second does not round up to the
   next second on a scale of milliseconds. *)
Definition plain (t : Time) : bool :=
  Database.fourDigitYear (unixNano t `div` Second)
  && Database.fourDigitYear (Database.wallNano t `div` Second)
  && (zoneOffset t `mod` 60 =? 0) && (Z.abs (zoneOffset t) <? 15 * 3600)
  && (unixNano t `mod` Second <? 999500000).


(* The loop body of populateAttachments for one attachment row. *)
Definition attach (evs : list Event) (r : Database.AttachmentRow) : list Event :=
  Database.updateByID (Database.att_event_id r)
    (Database.appendAttachment (Database.scanAttachment r)) evs.

(* An event as the events table holds it: without its attachments. *)
Definition withoutAttachments (e : Event) : Event :=
  mkEvent (ID e) (Service e) (Type_ e) (Title e) (Content e) (Timestamp e)
          (Metadata e) (UserID e) [].

(* Every attachment of every event is the scan of a stored attachment row of
   that event's id. *)
Definition attachmentsFrom (rows : list Database.AttachmentRow) (evs : list Event)
    : Prop :=
  forall e a, e ∈ evs -> a ∈ Attachments e ->
    exists r, r ∈ rows /\ Database.att_event_id r = ID e
              /\ a = Database.scanAttachment r.

(* What hydrating the attachments leaves alone: the id and the timestamp. *)
Definition key (e : Event) : string * Time := (ID e, Timestamp e).

(* The tokens a readable store file holds; none when there is no file. *)
Definition tokensOf (file : TokenStore.StoreFile) : list TokenStore.StoredToken :=
  match file with
  | TokenStore.TokensFile tokens => tokens
  | _ => []
  end.

(* The events with instant [t], in the order of the list. *)
Definition atInstant (t : Z) (l : list Event) : list Event :=
  filter (fun e => ts e = t) l.

(** ** The scenarios of collector_test.go *)

Module Scenario.
Import Collector.

(* time.Date(2026, 2, 23, 10, 0, 0, 0, time.UTC) *)
Definition base : Time := mkTime (1771840800 * Second) 0.

Definition Add (t : Time) (d : Duration) : Time :=
  mkTime (unixNano t + d) (zoneOffset t).

Definition makeEvent (id : string) (t : Time) : Event :=
  mkEvent id "test" "test" ("title-" +:+ id) ("content-" +:+ id) t "" "" [].

(* mockServiceClient: it answers with its events, or with its error. *)
Definition mockServiceClient (events : list Event) (err : option FetchError)
    : ServiceClient :=
  fun _ _ => match err with
             | Some e => inl e
             | None => inr events
             end.

Definition okService : ServiceClient :=
  mockServiceClient [makeEvent "ok-1" (Add base (1 * Minute));
                     makeEvent "ok-2" (Add base (2 * Minute))] None.

Definition failedService : ServiceClient :=
  mockServiceClient [] (Some (UpstreamError "upstream failed")).

Definition slackService : ServiceClient :=
  mockServiceClient [makeEvent "slack-1" (Add base (1 * Minute))] None.

Definition githubService : ServiceClient :=
  mockServiceClient [makeEvent "github-1" (Add base (2 * Minute))] None.

(* TestCollectEventsParallelSortedByTimestamp: each service hands its events
   over latest first. *)
Definition slowService : ServiceClient :=
  mockServiceClient [makeEvent "slow-2" (Add base (3 * Minute));
                     makeEvent "slow-1" (Add base (1 * Minute))] None.

Definition fastService : ServiceClient :=
  mockServiceClient [makeEvent "fast-2" (Add base (4 * Minute));
                     makeEvent "fast-1" (Add base (2 * Minute))] None.

Definition slowAndFast : gmap string ServiceClient :=
  {[ "slow" := slowService; "fast" := fastService ]}.

Definition partial : gmap string ServiceClient :=
  {[ "ok" := okService; "failed" := failedService ]}.

Definition onlyFailing : gmap string ServiceClient :=
  {[ "failed" := failedService ]}.

Definition slackAndGithub : gmap string ServiceClient :=
  {[ "slack" := slackService; "github" := githubService ]}.

(* A token store with one token, and an environment without faults. *)
Definition slackToken : TokenStore.StoredToken :=
  TokenStore.mkStoredToken "slack" "" "" "access" None [] base None "c2VhbGVk".

Definition calm : TokenStore.Env :=
  TokenStore.mkEnv false (fun a _ _ _ => Some ("sealed:" +:+ a)) base
                   TokenStore.WriteOk.

Definition tokenCalls : list (TokenStore.Env * TokenStore.Op) :=
  [ (calm, TokenStore.OpStoreToken "github" "ghp" "" None []);
    (calm, TokenStore.OpStoreToken "slack" "xoxp" "" None []);
    (calm, TokenStore.OpUpdateRefreshTime "github");
    (calm, TokenStore.OpDeleteToken "slack") ].

(* An empty database, a driver that never fails, one that fails at its
   [k]-th call, and a batch of two events, the first with a note attached. *)
Definition emptyDB : Database.Tables := Database.mkTables [] [].

Definition steady : Database.Env := Database.mkEnv (fun _ => false) base.

Definition failingAt (k : nat) : Database.Env :=
  Database.mkEnv (fun n => (n =? k)%nat) base.

Definition notes : EventAttachment :=
  mkAttachment "doc-1" "Notes" "text/plain" "txt" "minutes" false.

Definition batch : list Event :=
  [ mkEvent "cal-1" "google_calendar" "event_attended" "Standup" "" 
            (Add base (1 * Minute)) "" "me" [notes];
    makeEvent "ok-2" (Add base (2 * Minute)) ].

(* A stored event 200ms after [base], and one 1.5s after it. *)
Definition earlyRow : Database.EventRow :=
  Database.mkEventRow "early" "slack" "message" "hi" ""
                      (Add base (200 * 1000000)) "" "me" base.


(* Two events half an hour apart: the earlier one written in Tokyo (10:00
   UTC, 19:00 on the wall clock there), the later one in UTC (10:30). *)
Definition tokyoRow : Database.EventRow :=
  Database.mkEventRow "a-jst" "slack" "message" "first" ""
                      (mkTime (unixNano base) (9 * 3600)) "" "me" base.

Definition utcRow : Database.EventRow :=
  Database.mkEventRow "b-utc" "slack" "message" "second" ""
                      (Add base (30 * Minute)) "" "me" base.

(* Two rows 0.4 ms before base + 1s, one written in Tokyo and one in UTC. *)
Definition almostTokyoRow : Database.EventRow :=
  Database.mkEventRow "almost-jst" "slack" "message" "" ""
                      (mkTime (unixNano base + 999600000) (9 * 3600)) "" "me" base.

Definition almostUtcRow : Database.EventRow :=
  Database.mkEventRow "almost-utc" "slack" "message" "" ""
                      (Add base 999600000) "" "me" base.

(* A row written in UTC at 12:00, and the clock of a machine in Tokyo at
   20:00 there, which is 11:00 UTC. *)
Definition noonRow : Database.EventRow :=
  Database.mkEventRow "c-utc" "slack" "message" "third" ""
                      (Add base (2 * Hour)) "" "me" base.

Definition tokyoEvening : Time := mkTime (unixNano base + 1 * Hour) (9 * 3600).

(* A configuration with slack and github enabled and tokens set, constructors
   that build the mock clients, and one whose GitHub constructor fails. *)
Definition someService (enabled : bool) (accessToken : string) : Config.ServiceConfig :=
  Config.mkServiceConfig "" "" accessToken "" None enabled false false 0 0 0%float.

Definition twoEnabled : Config.Config :=
  Config.mkConfig (someService true "xoxp-1") (someService true "ghp-1")
                  (someService false "") (Config.mkGoogleCalendarOptions None 0)
                  "worklogr.db" "Asia/Tokyo".

Definition mockClients : EventCollector.Clients :=
  EventCollector.mkClients (fun _ _ => Some slackService)
                           (fun _ _ => Some githubService)
                           (fun _ => Some okService).

(* A token environment that seals one particular token, and the opener that
   goes with it. *)
Definition slackScopes : list string := ["chat:write"; "channels:read"].

Definition vault : TokenStore.Env :=
  TokenStore.mkEnv false
    (fun a r e s =>
       if bool_decide (a = "xoxp-1" /\ r = "" /\ e = None /\ s = slackScopes)
       then Some "c2VhbGVkLTE=" else None)
    base TokenStore.WriteOk.

Definition vaultOpener : TokenStore.Opener :=
  TokenStore.mkOpener
    (fun c => if String.eqb c "c2VhbGVkLTE="
              then TokenStore.Opened
                     (TokenStore.mkTokenData (Some "xoxp-1") (Some "")
                        (Some (Some <$> slackScopes)) None)
              else TokenStore.BadCipher)
    (fun _ => None).

(* A Slack manager with a store and a token, and a validator that accepts
   every token. *)
Definition slackManager : SlackAuthManager.Manager :=
  SlackAuthManager.NewBaseAuthManager base
    (Config.mkAuthConfig "xoxp-1" "" None false 0 0 0%float) true.

Definition acceptAll : SlackAuthManager.Validator := fun _ => inr (true, "").

End Scenario.

(** * Properties *)

(** ** The bubble sort of the collector *)

Section bubble_sort.
Import Collector.

Lemma compareSwap_cons x l j :
  compareSwap (x :: l) (S j) = x :: compareSwap l j.
Proof.
  unfold compareSwap. simpl.
  destruct (l !! j) as [a|]; [|done].
  destruct (l !! S j) as [b|]; [|done].
  by destruct (After _ _).
Qed.

Lemma foldl_compareSwap_cons x l s k :
  foldl compareSwap (x :: l) (seq (S s) k) = x :: foldl compareSwap l (seq s k).
Proof.
  revert l s. induction k as [|k IH]; intros l s; [done|].
  simpl. by rewrite compareSwap_cons, IH.
Qed.

Lemma compareSwap_short l j : (length l <= 1)%nat -> compareSwap l j = l.
Proof.
  destruct l as [|a [|b rest]]; simpl; intros Hlen; [done| |lia].
  unfold compareSwap. by destruct j.
Qed.

Lemma foldl_compareSwap_short l js :
  (length l <= 1)%nat -> foldl compareSwap l js = l.
Proof.
  intros Hlen. induction js as [|j js IH]; [done|].
  simpl. by rewrite compareSwap_short.
Qed.

Lemma foldl_compareSwap_pass k l :
  foldl compareSwap l (seq 0 k) = pass k l.
Proof.
  revert l. induction k as [|k IH]; intros l; [by destruct l|].
  destruct l as [|a [|b rest]].
  - by rewrite foldl_compareSwap_short by (simpl; lia).
  - by rewrite foldl_compareSwap_short by (simpl; lia).
  - simpl. unfold compareSwap at 2. simpl.
    destruct (After _ _); rewrite foldl_compareSwap_cons; by rewrite IH.
Qed.

Lemma pass_perm k l : pass k l ≡ₚ l.
Proof.
  revert l. induction k as [|k IH]; intros [|a [|b rest]]; simpl; try done.
  destruct (After _ _).
  - rewrite IH. apply perm_swap.
  - by rewrite IH.
Qed.

Lemma pass_length k l : length (pass k l) = length l.
Proof. apply Permutation_length, pass_perm. Qed.

(* Events of one instant keep their order: an exchange only ever involves two
   events of different instants. *)
Lemma pass_stable t k l :
  atInstant t (pass k l) = atInstant t l.
Proof.
  revert l. induction k as [|k IH]; intros [|a [|b rest]]; simpl; try done.
  unfold atInstant in *.
  destruct (After _ _) eqn:Hab.
  - unfold After in Hab. apply Z.ltb_lt in Hab.
    rewrite (filter_cons _ b), IH, !filter_cons.
    unfold ts in *. repeat case_decide; try done; lia.
  - by rewrite (filter_cons _ a), IH, !filter_cons.
Qed.

(* After [k] comparisons the latest of the first [k+1] events sits at index
   [k]; what lies behind is untouched. *)
Lemma pass_spec k l :
  (k < length l)%nat ->
  exists l' m,
    pass k l = l' ++ m :: drop (S k) l
    /\ l' ++ [m] ≡ₚ take (S k) l
    /\ Forall (fun x => le_ts x m) (take (S k) l).
Proof.
  revert l. induction k as [|k IH]; intros l Hlen.
  - destruct l as [|a rest]; simpl in Hlen; [lia|].
    exists [], a. simpl. rewrite drop_0, take_0.
    repeat split; [done|]. repeat constructor. unfold le_ts. lia.
  - destruct l as [|a [|b rest]]; simpl in Hlen; try lia.
    simpl pass. destruct (After _ _) eqn:Hab; unfold After in Hab.
    + apply Z.ltb_lt in Hab.
      destruct (IH (a :: rest)) as (l' & m & Heq & Hperm & Hall); [simpl; lia|].
      exists (b :: l'), m. rewrite Heq. simpl in *.
      split; [done|]. split.
      * rewrite Hperm. apply perm_swap.
      * apply Forall_cons in Hall as [Ha Hall].
        repeat constructor; try done. unfold le_ts, ts in *. lia.
    + apply Z.ltb_ge in Hab.
      destruct (IH (b :: rest)) as (l' & m & Heq & Hperm & Hall); [simpl; lia|].
      exists (a :: l'), m. rewrite Heq. simpl in *.
      split; [done|]. split.
      * by rewrite Hperm.
      * apply Forall_cons in Hall as [Hb Hall].
        repeat constructor; try done. unfold le_ts, ts in *. lia.
Qed.

Lemma settled_pass p l :
  (2 <= p <= length l)%nat -> settled p l -> settled (p - 1) (pass (p - 1) l).
Proof.
  intros Hp [Hsorted Hsplit].
  destruct (pass_spec (p - 1) l) as (l' & m & Heq & Hperm & Hmax); [lia|].
  replace (S (p - 1)) with p in * by lia.
  assert (Hlen : length l' = (p - 1)%nat).
  { apply Permutation_length in Hperm.
    rewrite length_app, length_take in Hperm. simpl in Hperm. lia. }
  assert (Hin : forall x, x ∈ l' ++ [m] -> x ∈ take p l).
  { intros x. by rewrite Hperm. }
  rewrite Forall_forall in Hsplit, Hmax.
  unfold settled. rewrite Heq.
  rewrite drop_app_length', take_app_length' by done.
  assert (Hm : m ∈ l' ++ [m]) by (apply elem_of_app; right; by apply list_elem_of_singleton).
  split.
  - constructor; [done|]. by apply Hsplit, Hin.
  - apply Forall_forall. intros x Hx.
    assert (Hx' : x ∈ l' ++ [m]) by (apply elem_of_app; by left).
    constructor.
    + by apply Hmax, Hin.
    + by apply Hsplit, Hin.
Qed.

Lemma outer_loop_settled n c l :
  length l = n -> (c <= n - 1)%nat ->
  let l' := foldl (fun es i => innerLoop n i es) l (seq 0 c) in
  length l' = n /\ settled (n - c) l'.
Proof.
  intros Hn. induction c as [|c IH]; intros Hc.
  - simpl. split; [done|]. unfold settled.
    rewrite Nat.sub_0_r, drop_ge, take_ge by lia.
    split; [constructor|]. apply Forall_forall. intros; constructor.
  - cbv zeta in *. rewrite seq_S, foldl_app. simpl.
    destruct IH as [Hlen Hset]; [lia|].
    unfold innerLoop at 1 3. rewrite foldl_compareSwap_pass.
    split; [by rewrite pass_length|].
    replace (n - S c)%nat with (n - c - 1)%nat by lia.
    apply settled_pass; [lia|done].
Qed.

Lemma outer_loop_invariant (R : list Event -> list Event -> Prop) n l idx :
  Reflexive R -> Transitive R ->
  (forall k es, R (pass k es) es) ->
  R (foldl (fun es i => innerLoop n i es) l idx) l.
Proof.
  intros Hrefl Htrans Hpass. revert l.
  induction idx as [|i idx IH]; intros l; simpl; [done|].
  etrans; [apply IH|]. unfold innerLoop. rewrite foldl_compareSwap_pass.
  apply Hpass.
Qed.

Lemma sort_sorted l : StronglySorted le_ts (sortEventsByTimestamp l).
Proof.
  unfold sortEventsByTimestamp.
  destruct (outer_loop_settled (length l) (length l - 1) l) as [Hlen [Hs Hsplit]];
    [done|lia|].
  set (l' := foldl _ _ _) in *.
  destruct l' as [|a rest]; [constructor|].
  simpl in Hlen.
  replace (length l - (length l - 1))%nat with 1%nat in * by lia.
  simpl in Hs, Hsplit. rewrite drop_0 in Hs, Hsplit. rewrite take_0 in Hsplit.
  apply Forall_cons in Hsplit as [Ha _].
  by constructor.
Qed.

Lemma sort_perm l : sortEventsByTimestamp l ≡ₚ l.
Proof.
  unfold sortEventsByTimestamp.
  apply (outer_loop_invariant (≡ₚ)); try apply _.
  intros. apply pass_perm.
Qed.

Lemma sort_stable t l :
  atInstant t (sortEventsByTimestamp l) = atInstant t l.
Proof.
  unfold sortEventsByTimestamp.
  apply (outer_loop_invariant (fun a b => atInstant t a = atInstant t b)).
  - by intros ?.
  - intros ??? -> ->. done.
  - intros. apply pass_stable.
Qed.

End bubble_sort.

(** C10. [sortEventsByTimestamp] returns a permutation of its input, in
    ascending order of timestamp, in which the events of any one instant keep
    the relative order they had in the input: the sort is stable. *)
Theorem sortEventsByTimestamp_stable (events : list Event) :
  let sorted := Collector.sortEventsByTimestamp events in
  sorted ≡ₚ events
  /\ StronglySorted le_ts sorted
  /\ forall t, atInstant t sorted = atInstant t events.
Proof.
  cbv zeta. split; [apply sort_perm|]. split; [apply sort_sorted|].
  intros t. apply sort_stable.
Qed.

(** ** CollectEvents *)

Section collect.
Import Collector.

Implicit Types (services candidates : gmap string ServiceClient).
Implicit Types (order names : list string).

(* The filter loop keeps, of the initialized services, those that are named;
   it warns once for every name that is not initialized. *)
Lemma filter_loop services names m w :
  let r := foldl (filterStep services) (m, w) names in
  (forall n, r.1 !! n = if decide (n ∈ names)
                        then match services !! n with Some c => Some c | None => m !! n end
                        else m !! n)
  /\ r.2 = w ++ filter (fun n => services !! n = None) names.
Proof.
  revert m w. induction names as [|x names IH]; intros m w; simpl.
  - split; [done|]. by rewrite app_nil_r.
  - destruct (services !! x) as [c|] eqn:Hx.
    + replace (filterStep services (m, w) x) with (<[x:=c]> m, w)
        by (unfold filterStep; by rewrite Hx).
      destruct (IH (<[x:=c]> m) w) as [Hm Hw]. split.
      * intros n. rewrite Hm.
        destruct (decide (n = x)) as [->|Hne].
        -- rewrite Hx, lookup_insert_eq.
           rewrite (decide_True (P := x ∈ x :: names)) by (apply elem_of_cons; auto).
           by destruct (decide (x ∈ names)).
        -- rewrite lookup_insert_ne by done.
           destruct (decide (n ∈ names)) as [Hin|Hnin].
           ++ rewrite decide_True; [done|]. apply elem_of_cons; auto.
           ++ rewrite decide_False; [done|]. rewrite elem_of_cons. tauto.
      * rewrite Hw, filter_cons. by rewrite decide_False by congruence.
    + replace (filterStep services (m, w) x) with (m, w ++ [x])
        by (unfold filterStep; by rewrite Hx).
      destruct (IH m (w ++ [x])) as [Hm Hw]. split.
      * intros n. rewrite Hm.
        destruct (decide (n = x)) as [->|Hne].
        -- rewrite Hx.
           rewrite (decide_True (P := x ∈ x :: names)) by (apply elem_of_cons; auto).
           by destruct (decide (x ∈ names)).
        -- destruct (decide (n ∈ names)) as [Hin|Hnin].
           ++ rewrite decide_True; [done|]. apply elem_of_cons; auto.
           ++ rewrite decide_False; [done|]. rewrite elem_of_cons. tauto.
      * rewrite Hw, filter_cons, decide_True by done. by rewrite <- app_assoc.
Qed.

Lemma servicesToCollect_lookup services names n :
  (servicesToCollect services names).1 !! n =
    if decide (names = []) then services !! n
    else if decide (n ∈ names) then services !! n else None.
Proof.
  unfold servicesToCollect. destruct names as [|x names]; [done|].
  rewrite decide_False by done.
  change (0 <? length (x :: names))%nat with true. cbv iota.
  destruct (filter_loop services (x :: names) ∅ []) as [Hm _].
  rewrite Hm. rewrite lookup_empty.
  destruct (decide _); [|done]. by destruct (services !! n).
Qed.

Lemma servicesToCollect_warned services names :
  (servicesToCollect services names).2 = filter (fun n => services !! n = None) names.
Proof.
  unfold servicesToCollect. destruct names as [|x names]; [done|].
  change (0 <? length (x :: names))%nat with true. cbv iota.
  by destruct (filter_loop services (x :: names) ∅ []) as [_ ->].
Qed.

Lemma workers_fold startTime endTime candidates order acc :
  let r := foldl (worker startTime endTime candidates) acc order in
  allEvents r = allEvents acc ++ mjoin (answer startTime endTime candidates <$> order)
  /\ invoked r = invoked acc ++ filter (fun n => is_Some (candidates !! n)) order.
Proof.
  revert acc. induction order as [|n order IH]; intros acc; simpl.
  - by rewrite !app_nil_r.
  - destruct (IH (worker startTime endTime candidates acc n)) as [He Hi].
    rewrite He, Hi, filter_cons. unfold worker, answer, contribution.
    destruct (candidates !! n) as [client|] eqn:Hn.
    + rewrite decide_True by eauto.
      destruct (client startTime endTime); simpl; by rewrite <- !app_assoc.
    + rewrite decide_False by (by intros [? ?]). done.
Qed.

Lemma schedule_answers startTime endTime candidates order :
  schedule_of candidates order ->
  mjoin (answer startTime endTime candidates <$> order)
  ≡ₚ successfulEvents startTime endTime candidates.
Proof.
  unfold schedule_of, candidateNames, successfulEvents. intros ->.
  rewrite <- list_fmap_compose.
  apply join_Permutation. apply reflexive_eq.
  apply Forall_fmap_ext, Forall_forall. intros [k c] Hkc.
  apply elem_of_map_to_list in Hkc. simpl. unfold answer. by rewrite Hkc.
Qed.

Lemma schedule_NoDup candidates order :
  schedule_of candidates order -> NoDup order.
Proof.
  unfold schedule_of, candidateNames. intros ->. apply NoDup_fst_map_to_list.
Qed.

Lemma schedule_elem candidates order n :
  schedule_of candidates order -> n ∈ order <-> is_Some (candidates !! n).
Proof.
  unfold schedule_of, candidateNames. intros ->.
  rewrite list_elem_of_fmap. split.
  - intros ([k c] & -> & Hkc). apply elem_of_map_to_list in Hkc. eauto.
  - intros [c Hc]. exists (n, c). split; [done|]. by apply elem_of_map_to_list.
Qed.

Lemma schedule_invoked candidates order :
  schedule_of candidates order ->
  filter (fun n => is_Some (candidates !! n)) order = order.
Proof.
  intros Hs.
  assert (Hall : Forall (fun n => is_Some (candidates !! n)) order).
  { apply Forall_forall. intros n. by apply schedule_elem. }
  clear Hs. induction Hall as [|n order Hn _ IH]; [done|].
  by rewrite filter_cons, decide_True, IH.
Qed.

(* The shape of a call that finds a candidate. *)
Lemma CollectEvents_run services order startTime endTime names :
  let candidates := (servicesToCollect services names).1 in
  let r := CollectEvents services order startTime endTime names in
  candidates ≠ ∅ ->
  err r = None
  /\ events r = sortEventsByTimestamp
                  (mjoin (answer startTime endTime candidates <$> order))
  /\ called r = filter (fun n => is_Some (candidates !! n)) order
  /\ warned r = (servicesToCollect services names).2.
Proof.
  cbv zeta. intros Hne. unfold CollectEvents.
  destruct (servicesToCollect services names) as [candidates warnings]; simpl in *.
  destruct (Nat.eqb_spec (size candidates) 0) as [Hz|Hnz].
  { by apply map_size_empty_iff in Hz. }
  simpl.
  destruct (workers_fold startTime endTime candidates order (mkAcc [] [] []))
    as [He Hi].
  simpl in He, Hi. by rewrite He, Hi.
Qed.

(* The shape of a call that finds none. *)
Lemma CollectEvents_none services order startTime endTime names :
  (servicesToCollect services names).1 = ∅ ->
  CollectEvents services order startTime endTime names
  = mkCollectResult [] (Some ErrNoCollectableServices) []
                    (servicesToCollect services names).2 [].
Proof.
  intros He. unfold CollectEvents.
  destruct (servicesToCollect services names) as [candidates warnings]; simpl in *.
  subst. by rewrite map_size_empty.
Qed.

End collect.

Section collect_claims.
Import Collector.

(** C1 (as the code has it). [CollectEvents] returns an error exactly when
    the service filter leaves no candidate; when there are candidates and
    every one of them fails, it returns no event and a nil error. *)
Theorem CollectEvents_error_iff_no_candidate
    (services : gmap string ServiceClient) (order : list string)
    (startTime endTime : Time) (serviceNames : list string) :
  let candidates := (servicesToCollect services serviceNames).1 in
  let r := CollectEvents services order startTime endTime serviceNames in
  (err r ≠ None <-> candidates = ∅)
  /\ ((forall name client, candidates !! name = Some client ->
         ~ succeeds startTime endTime client) ->
      events r = [] /\ (candidates ≠ ∅ -> err r = None)).
Proof.
  cbv zeta. split.
  - destruct (decide ((servicesToCollect services serviceNames).1 = ∅)) as [He|Hne].
    + by rewrite CollectEvents_none.
    + destruct (CollectEvents_run services order startTime endTime serviceNames Hne)
        as [-> _]. tauto.
  - intros Hfail.
    destruct (decide ((servicesToCollect services serviceNames).1 = ∅)) as [He|Hne].
    + by rewrite CollectEvents_none.
    + destruct (CollectEvents_run services order startTime endTime serviceNames Hne)
        as (Herr & -> & _). split; [|done].
      set (candidates := (servicesToCollect services serviceNames).1) in *.
      assert (Hnil : mjoin (answer startTime endTime candidates <$> order) = []).
      { clear Herr. induction order as [|n order IH]; [done|].
        csimpl. rewrite IH, app_nil_r. unfold answer, contribution.
        destruct (candidates !! n) as [client|] eqn:Hn; [|done].
        destruct (client startTime endTime) as [e|evs] eqn:Hc; [done|].
        exfalso. apply (Hfail n client Hn). by exists evs. }
      by rewrite Hnil.
Qed.

(* The only service fails: no event, and no error either. *)
Lemma CollectEvents_error_iff_no_candidate_witness :
  let r := CollectEvents Scenario.onlyFailing ["failed"] Scenario.base
             (Scenario.Add Scenario.base (24 * Hour)) [] in
  events r = [] /\ err r = None.
Proof.
  cbv zeta.
  destruct (CollectEvents_error_iff_no_candidate Scenario.onlyFailing ["failed"]
              Scenario.base (Scenario.Add Scenario.base (24 * Hour)) [])
    as [_ Hall].
  destruct Hall as [Hev Herr].
  - intros name client Hlook [evs Hevs]. simpl in Hlook.
    unfold Scenario.onlyFailing in Hlook.
    apply lookup_singleton_Some in Hlook as [_ <-]. discriminate Hevs.
  - split; [exact Hev|]. apply Herr. simpl. unfold Scenario.onlyFailing.
    apply insert_non_empty.
Defined.

(* The claim as stated fails: the one candidate service fails, and the call
   returns a nil error. *)
Lemma CollectEvents_all_fail_no_error :
  let r := CollectEvents Scenario.onlyFailing ["failed"] Scenario.base
             (Scenario.Add Scenario.base (24 * Hour)) [] in
  schedule_of Scenario.onlyFailing ["failed"]
  /\ (forall name client, Scenario.onlyFailing !! name = Some client ->
        ~ succeeds Scenario.base (Scenario.Add Scenario.base (24 * Hour)) client)
  /\ err r = None.
Proof.
  cbv zeta. split; [|split].
  - unfold schedule_of. vm_compute. reflexivity.
  - intros name client Hlook [evs Hevs]. unfold Scenario.onlyFailing in Hlook.
    apply lookup_singleton_Some in Hlook as [_ <-]. discriminate Hevs.
  - vm_compute. reflexivity.
Qed.

(** C2. For any mix of succeeding and failing services and any schedule of
    the workers, as soon as one candidate succeeds [CollectEvents] returns a
    nil error and exactly the events of the successful services (as a
    multiset), in ascending order of timestamp; a failing service contributes
    nothing and does not keep the others' events back. *)
Theorem CollectEvents_partial_success
    (services : gmap string ServiceClient) (order : list string)
    (startTime endTime : Time) (serviceNames : list string) :
  let candidates := (servicesToCollect services serviceNames).1 in
  let r := CollectEvents services order startTime endTime serviceNames in
  schedule_of candidates order ->
  (exists name client, candidates !! name = Some client
                       /\ succeeds startTime endTime client) ->
  err r = None
  /\ events r ≡ₚ successfulEvents startTime endTime candidates
  /\ StronglySorted le_ts (events r).
Proof.
  cbv zeta. intros Hsched (name & client & Hlook & _).
  assert (Hne : (servicesToCollect services serviceNames).1 ≠ ∅).
  { intros He. rewrite He in Hlook. by rewrite lookup_empty in Hlook. }
  destruct (CollectEvents_run services order startTime endTime serviceNames Hne)
    as (-> & -> & _).
  split; [done|]. split; [|apply sort_sorted].
  rewrite sort_perm. by apply schedule_answers.
Qed.

(* TestCollectEventsKeepsPartialSuccessOnServiceError: "ok" answers with two
   events, "failed" with an error. *)
Lemma CollectEvents_partial_success_witness :
  let r := CollectEvents Scenario.partial ["failed"; "ok"] Scenario.base
             (Scenario.Add Scenario.base (24 * Hour)) [] in
  err r = None
  /\ events r ≡ₚ successfulEvents Scenario.base
                   (Scenario.Add Scenario.base (24 * Hour)) Scenario.partial
  /\ StronglySorted le_ts (events r).
Proof.
  apply (CollectEvents_partial_success Scenario.partial ["failed"; "ok"]
           Scenario.base (Scenario.Add Scenario.base (24 * Hour)) []).
  - unfold schedule_of. vm_compute. apply perm_swap.
  - exists "ok", Scenario.okService. split; [reflexivity|].
    eexists. reflexivity.
Defined.

Lemma candidate_lookup_named (services : gmap string ServiceClient)
    (serviceNames : list string) (n : string) :
  serviceNames ≠ [] ->
  is_Some ((servicesToCollect services serviceNames).1 !! n)
  <-> n ∈ serviceNames /\ is_Some (services !! n).
Proof.
  intros Hnames. rewrite servicesToCollect_lookup, decide_False by done.
  destruct (decide (n ∈ serviceNames)) as [Hin|Hnin].
  - tauto.
  - split; [by intros [? ?]|tauto].
Qed.

(** C7. With a non-empty service filter, the fetch functions that are
    invoked are exactly those of the named services that are initialized,
    each once, and no other; a name that is not initialized is warned about
    and skipped, and the call fails only when no named service is
    initialized at all. *)
Theorem CollectEvents_respects_filter
    (services : gmap string ServiceClient) (order : list string)
    (startTime endTime : Time) (serviceNames : list string) :
  let candidates := (servicesToCollect services serviceNames).1 in
  let r := CollectEvents services order startTime endTime serviceNames in
  serviceNames ≠ [] ->
  schedule_of candidates order ->
  NoDup (called r)
  /\ (forall n, n ∈ called r <-> n ∈ serviceNames /\ is_Some (services !! n))
  /\ warned r = filter (fun n => services !! n = None) serviceNames
  /\ (err r = None <-> exists n, n ∈ serviceNames /\ is_Some (services !! n)).
Proof.
  cbv zeta. intros Hnames Hsched.
  destruct (decide ((servicesToCollect services serviceNames).1 = ∅)) as [He|Hne].
  - assert (Hnone : forall n, ~ (n ∈ serviceNames /\ is_Some (services !! n))).
    { intros n Hn. apply candidate_lookup_named in Hn; [|done].
      rewrite He, lookup_empty in Hn. by destruct Hn. }
    rewrite CollectEvents_none by done. simpl.
    split; [constructor|]. split.
    { intros n. split; [by intros ?%elem_of_nil|]. intros Hn. by apply Hnone in Hn. }
    split; [apply servicesToCollect_warned|].
    split; [done|]. intros [n Hn]. by apply Hnone in Hn.
  - destruct (CollectEvents_run services order startTime endTime serviceNames Hne)
      as (-> & _ & -> & ->).
    rewrite schedule_invoked by done.
    split; [by eapply schedule_NoDup|]. split.
    { intros n. rewrite (schedule_elem _ _ n Hsched).
      by apply candidate_lookup_named. }
    split; [apply servicesToCollect_warned|].
    split; [|done]. intros _.
    apply map_choose in Hne as (n & c & Hn).
    exists n. apply candidate_lookup_named; eauto.
Qed.

(* TestCollectEventsRespectsServiceFilter: slack and github are initialized,
   the filter names slack. *)
Lemma CollectEvents_respects_filter_witness :
  let r := CollectEvents Scenario.slackAndGithub ["slack"] Scenario.base
             (Scenario.Add Scenario.base (24 * Hour)) ["slack"] in
  NoDup (called r)
  /\ (forall n, n ∈ called r
                <-> n ∈ ["slack"] /\ is_Some (Scenario.slackAndGithub !! n))
  /\ warned r = filter (fun n => Scenario.slackAndGithub !! n = None) ["slack"]
  /\ (err r = None
      <-> exists n, n ∈ ["slack"] /\ is_Some (Scenario.slackAndGithub !! n)).
Proof.
  apply (CollectEvents_respects_filter Scenario.slackAndGithub ["slack"]
           Scenario.base (Scenario.Add Scenario.base (24 * Hour)) ["slack"]).
  - discriminate.
  - unfold schedule_of. vm_compute. reflexivity.
Defined.

Example filter_scenario_called :
  called (CollectEvents Scenario.slackAndGithub ["slack"] Scenario.base
            (Scenario.Add Scenario.base (24 * Hour)) ["slack"]) = ["slack"].
Proof. vm_compute. reflexivity. Qed.

Example filter_scenario_unknown_name :
  let r := CollectEvents Scenario.slackAndGithub ["slack"] Scenario.base
             (Scenario.Add Scenario.base (24 * Hour)) ["jira"; "slack"] in
  called r = ["slack"] /\ warned r = ["jira"] /\ err r = None.
Proof. vm_compute. repeat split. Qed.

(* Whichever service answers first, the merged list is T+1, T+2, T+3, T+4. *)
Example parallel_scenario_fast_first :
  ID <$> events (CollectEvents Scenario.slowAndFast ["fast"; "slow"] Scenario.base
                   (Scenario.Add Scenario.base (24 * Hour)) [])
  = ["slow-1"; "fast-1"; "slow-2"; "fast-2"].
Proof. vm_compute. reflexivity. Qed.

Example parallel_scenario_slow_first :
  ID <$> events (CollectEvents Scenario.slowAndFast ["slow"; "fast"] Scenario.base
                   (Scenario.Add Scenario.base (24 * Hour)) [])
  = ["slow-1"; "fast-1"; "slow-2"; "fast-2"].
Proof. vm_compute. reflexivity. Qed.

Example partial_scenario_events :
  ID <$> events (CollectEvents Scenario.partial ["failed"; "ok"] Scenario.base
                   (Scenario.Add Scenario.base (24 * Hour)) [])
  = ["ok-1"; "ok-2"].
Proof. vm_compute. reflexivity. Qed.

End collect_claims.

(** ** ValidateTimeRange *)

Lemma Sub_exceeds (t u : Time) (d : Duration) :
  0 <= d < maxDuration -> unixNano u <= unixNano t ->
  (d <? Sub t u) = true <-> unixNano t - unixNano u > d.
Proof.
  unfold Sub, Before, minDuration, maxDuration.
  change (2 ^ 63) with 9223372036854775808. intros Hd Hle.
  rewrite Z.ltb_lt.
  repeat match goal with
         | |- context [Z.leb ?a ?b] => destruct (Z.leb_spec a b)
         | |- context [Z.ltb ?a ?b] => destruct (Z.ltb_spec a b)
         end; simpl; lia.
Qed.

(** C6. [ValidateTimeRange] at the collector boundary returns an error
    exactly when the start is after the end, the end is after the current
    time, or the end minus the start exceeds 365 days, and nil for every
    other window; the checks of the time normalizer give the same answer. *)
Theorem ValidateTimeRange_error_iff (location : Z) (now startTime endTime : Time) :
  (Collector.ValidateTimeRange now startTime endTime ≠ None
   <-> unixNano startTime > unixNano endTime
       \/ unixNano endTime > unixNano now
       \/ unixNano endTime - unixNano startTime > 365 * 24 * Hour)
  /\ TimezoneManager.ValidateTimeRange location now startTime endTime
     = Collector.ValidateTimeRange now startTime endTime.
Proof.
  split; [|reflexivity].
  unfold Collector.ValidateTimeRange, After.
  destruct (Z.ltb_spec (unixNano endTime) (unixNano startTime)) as [Hse|Hse].
  { split; [lia|done]. }
  destruct (Z.ltb_spec (unixNano now) (unixNano endTime)) as [Hen|Hen].
  { split; [lia|done]. }
  destruct (365 * 24 * Hour <? Sub endTime startTime) eqn:Hspan.
  - apply Sub_exceeds in Hspan; [|by vm_compute|lia]. split; [lia|done].
  - split; [done|]. intros [?|[?|Hbig]]; try lia.
    apply Sub_exceeds in Hbig; [congruence|by vm_compute|lia].
Qed.

Example ValidateTimeRange_one_day :
  Collector.ValidateTimeRange (Scenario.Add Scenario.base (48 * Hour))
    Scenario.base (Scenario.Add Scenario.base (24 * Hour)) = None.
Proof. reflexivity. Qed.

Example ValidateTimeRange_exactly_365_days :
  Collector.ValidateTimeRange (Scenario.Add Scenario.base (366 * 24 * Hour))
    Scenario.base (Scenario.Add Scenario.base (365 * 24 * Hour)) = None.
Proof. reflexivity. Qed.

Example ValidateTimeRange_over_365_days :
  Collector.ValidateTimeRange (Scenario.Add Scenario.base (366 * 24 * Hour))
    Scenario.base (Scenario.Add Scenario.base (365 * 24 * Hour + Nanosecond))
  = Some Collector.ErrRangeTooLarge.
Proof. reflexivity. Qed.

(** ** The retry transport *)

Section retry.
Import Retry.

Lemma getRetryAfterDelay_bounds (parseRFC1123 : string -> option Time)
    (now : Time) (resp : Response) :
  1 * Second <= getRetryAfterDelay parseRFC1123 now resp <= 300 * Second.
Proof.
  unfold getRetryAfterDelay, Minute, Second.
  destruct (String.eqb _ _); [lia|].
  destruct (Atoi _) as [seconds|].
  - destruct (Z.ltb_spec 300 seconds);
      [|destruct (Z.ltb_spec seconds 1)]; simpl; lia.
  - destruct (parseRFC1123 _) as [retryTime|]; [|lia].
    generalize (Sub retryTime now). intros delay.
    destruct (Z.ltb_spec (5 * (60 * 1000000000)) delay); simpl.
    + lia.
    + destruct (Z.ltb_spec delay (1 * 1000000000)); lia.
Qed.

Lemma roundTripFrom_sleeps parseRFC1123 Transport clock MaxRetries left attempt slept :
  Forall rateLimitSleepBounded slept ->
  Forall rateLimitSleepBounded
    (sleeps (roundTripFrom parseRFC1123 Transport clock MaxRetries left attempt slept)).
Proof.
  revert attempt slept. induction left as [|left IH]; intros attempt slept Hs; simpl.
  - done.
  - destruct (Transport attempt) as [e|resp].
    + destruct (attempt =? MaxRetries); [done|].
      apply IH. apply Forall_app. split; [done|]. by repeat constructor.
    + destruct (negb _); [done|].
      destruct (attempt =? MaxRetries); [done|].
      apply IH. apply Forall_app. split; [done|].
      constructor; [|constructor]. apply getRetryAfterDelay_bounds.
Qed.

End retry.

(** C8. Whatever the Retry-After header holds (a number of seconds, an HTTP
    date, something unparseable, or nothing), the delay computed from a
    rate-limited response lies within [1s, 300s], and so does every sleep the
    retry transport takes after a 429 response. *)
Theorem retry_after_delay_clamped (parseRFC1123 : string -> option Time)
    (Transport : Z -> Retry.TransportError + Retry.Response) (clock : Z -> Time)
    (MaxRetries : Z) (now : Time) (resp : Retry.Response) :
  1 * Second <= Retry.getRetryAfterDelay parseRFC1123 now resp <= 300 * Second
  /\ Forall Retry.rateLimitSleepBounded
       (Retry.sleeps (Retry.RoundTrip parseRFC1123 Transport clock MaxRetries)).
Proof.
  split; [apply getRetryAfterDelay_bounds|].
  unfold Retry.RoundTrip. by apply roundTripFrom_sleeps.
Qed.

Example retry_after_2 parse now :
  Retry.getRetryAfterDelay parse now (Retry.mkResponse 429 "2") = 2 * Second.
Proof. reflexivity. Qed.

Example retry_after_huge parse now :
  Retry.getRetryAfterDelay parse now (Retry.mkResponse 429 "86400") = 300 * Second.
Proof. reflexivity. Qed.

Example retry_after_negative parse now :
  Retry.getRetryAfterDelay parse now (Retry.mkResponse 429 "-5") = 1 * Second.
Proof. reflexivity. Qed.

Example retry_after_absent parse now :
  Retry.getRetryAfterDelay parse now (Retry.mkResponse 429 "") = 60 * Second.
Proof. reflexivity. Qed.

(* A rate-limited call with Retry-After: 2 succeeds on the second attempt. *)
Example retry_then_success parse clock :
  Retry.RoundTrip parse
    (fun attempt => if attempt =? 0 then inr (Retry.mkResponse 429 "2")
                    else inr (Retry.mkResponse 200 ""))
    clock 3
  = Retry.mkOutcome (Some (Retry.mkResponse 200 "")) None
                    [Retry.SleepRateLimit (2 * Second)].
Proof. reflexivity. Qed.

(** ** The token store *)

Section token_store.
Import TokenStore.

Lemma replaceFirst_Some serviceName storedToken tokens tokens' :
  replaceFirst serviceName storedToken tokens = Some tokens' ->
  ServiceName storedToken = serviceName ->
  serviceNames tokens' = serviceNames tokens /\ serviceName ∈ serviceNames tokens.
Proof.
  revert tokens'. induction tokens as [|token rest IH]; intros tokens' Hr Hn;
    simpl in Hr; [done|].
  destruct (String.eqb_spec (ServiceName token) serviceName) as [Heq|Hne].
  - injection Hr as <-. unfold serviceNames. rewrite !fmap_cons, Hn, Heq.
    split; [done|]. apply elem_of_cons. by left.
  - destruct (replaceFirst serviceName storedToken rest) as [rest'|]; [|done].
    injection Hr as <-. destruct (IH rest' eq_refl Hn) as [Hnames Hin].
    unfold serviceNames in *. rewrite !fmap_cons, Hnames.
    split; [done|]. apply elem_of_cons. by right.
Qed.

Lemma replaceFirst_None serviceName storedToken tokens :
  replaceFirst serviceName storedToken tokens = None ->
  serviceName ∉ serviceNames tokens.
Proof.
  induction tokens as [|token rest IH]; simpl; intros Hr.
  - apply not_elem_of_nil.
  - destruct (String.eqb_spec (ServiceName token) serviceName) as [Heq|Hne]; [done|].
    destruct (replaceFirst serviceName storedToken rest); [done|].
    rewrite elem_of_cons.
    intros [?|?]; [congruence|]. by apply IH.
Qed.

Lemma upsert_names serviceName storedToken tokens :
  ServiceName storedToken = serviceName ->
  serviceNames (upsert serviceName storedToken tokens)
  = if decide (serviceName ∈ serviceNames tokens)
    then serviceNames tokens
    else serviceNames tokens ++ [serviceName].
Proof.
  intros Hn. unfold upsert.
  destruct (replaceFirst serviceName storedToken tokens) as [tokens'|] eqn:Hr.
  - destruct (replaceFirst_Some _ _ _ _ Hr Hn) as [-> Hin].
    by rewrite decide_True.
  - apply replaceFirst_None in Hr. rewrite decide_False by done.
    unfold serviceNames. by rewrite fmap_app, <- Hn.
Qed.





Lemma loadTokens_inr env file tokens :
  loadTokens env file = inr tokens -> file = TokensFile tokens.
Proof.
  unfold loadTokens. destruct (read_denied env); [done|].
  destruct file; intros; simplify_eq; done.
Qed.

Lemma loadTokens_NotExist env file :
  loadTokens env file = inl ErrNotExist -> file = NoFile.
Proof.
  unfold loadTokens. destruct (read_denied env); [done|]. by destruct file.
Qed.



Lemma StoreToken_success env file n a r e s :
  (StoreToken env file n a r e s).1 = None ->
  exists tokens',
    (StoreToken env file n a r e s).2 = TokensFile tokens'
    /\ serviceNames tokens'
       = if decide (n ∈ serviceNames (tokensOf file))
         then serviceNames (tokensOf file)
         else serviceNames (tokensOf file) ++ [n].
Proof.
  unfold StoreToken.
  destruct (seal env a r e s) as [encryptedData|]; [|done].
  destruct (loadTokens env file) as [err|tokens] eqn:Hload.
  - destruct err; try done.
    apply loadTokens_NotExist in Hload as ->.
    unfold saveTokens. destruct (write env); try done.
    intros _. eexists. split; [done|]. by rewrite upsert_names.
  - apply loadTokens_inr in Hload as ->.
    unfold saveTokens. destruct (write env); try done.
    intros _. eexists. split; [done|]. by rewrite upsert_names.
Qed.




Lemma loadTokens_readable env tokens :
  read_denied env = false -> loadTokens env (TokensFile tokens) = inr tokens.
Proof. intros Hr. unfold loadTokens. by rewrite Hr. Qed.

Lemma saveTokens_ok env tokens file :
  (saveTokens env tokens file).1 = None ->
  (saveTokens env tokens file).2 = TokensFile tokens.
Proof. unfold saveTokens. by destruct (write env). Qed.

(* The file a successful StoreToken leaves. *)
Lemma StoreToken_file env file n a r e s :
  (StoreToken env file n a r e s).1 = None ->
  exists c, seal env a r e s = Some c
            /\ (StoreToken env file n a r e s).2
               = TokensFile (upsert n (mkStoredToken n "" "" "access" None []
                                                     (now env) None c)
                                    (tokensOf file)).
Proof.
  unfold StoreToken.
  destruct (seal env a r e s) as [c|]; [|done].
  intros Hok. exists c. split; [done|].
  destruct (loadTokens env file) as [err|tokens] eqn:Hload.
  - destruct err; try done.
    apply loadTokens_NotExist in Hload as ->. by apply saveTokens_ok.
  - apply loadTokens_inr in Hload as ->. by apply saveTokens_ok.
Qed.

End token_store.



Example token_store_run_names :
  TokenStore.serviceNames
    (tokensOf (TokenStore.run (TokenStore.TokensFile [Scenario.slackToken])
                 Scenario.tokenCalls))
  = ["github"].
Proof. vm_compute. reflexivity. Qed.

(* Storing a token for slack again: the entry stays first and holds the new
   sealed payload; the github entry stored before it is untouched. *)
Example token_store_replaces_payload :
  TokenStore.EncryptedData
    <$> tokensOf (TokenStore.run (TokenStore.TokensFile [Scenario.slackToken])
                    (take 2 Scenario.tokenCalls))
  = ["sealed:xoxp"; "sealed:ghp"].
Proof. vm_compute. reflexivity. Qed.

Example token_store_replace_in_place :
  TokenStore.serviceNames
    (tokensOf (TokenStore.run (TokenStore.TokensFile [Scenario.slackToken])
                 (take 2 Scenario.tokenCalls)))
  = ["slack"; "github"].
Proof. vm_compute. reflexivity. Qed.

(** ** The persistence layer: InsertEvents *)

Section insert_events.
Import Database.
Variable env : Env.

Lemma clean_add a c1 c2 :
  clean env a (c1 + c2) <-> clean env a c1 /\ clean env (a + c1) c2.
Proof.
  unfold clean. split.
  - intros H. split; intros n Hn; apply H; lia.
  - intros [H1 H2] n Hn. destruct (decide (n < a + c1)%nat).
    + apply H1. lia.
    + apply H2. lia.
Qed.

Lemma obeys_ext m F F' cost :
  (forall c, F c = F' c) -> obeys env m F cost -> obeys env m F' cost.
Proof.
  intros Hext Hm s. destruct (Hm s) as (H1 & H2 & H3).
  split; [done|]. split; [|done]. intros Hs. rewrite <- Hext. by apply H2.
Qed.

Lemma obeys_ret : obeys env (ret tt) id 0.
Proof.
  intros s. simpl. split; [|split].
  - split; [|done]. intros _ n Hn. lia.
  - intros _. split; [done|lia].
  - tauto.
Qed.

Lemma obeys_driverCall e effect : obeys env (driverCall env e effect) effect 1.
Proof.
  intros s. unfold driverCall.
  destruct (fails env (calls s)) eqn:Hf; simpl.
  - split; [|split]; try done.
    split; [done|]. intros Hc. rewrite Hc in Hf; [done|lia].
  - split; [|split].
    + split; [|done]. intros _ n Hn. by replace n with (calls s) by lia.
    + intros _. split; [done|lia].
    + tauto.
Qed.

Lemma obeys_bind m1 m2 F1 F2 c1 c2 :
  obeys env m1 F1 c1 ->
  (forall c, committed (F1 c) = committed c) ->
  obeys env m2 F2 c2 ->
  obeys env (m1 ;;; m2) (fun c => F2 (F1 c)) (c1 + c2).
Proof.
  intros H1 Hkeep H2 s. unfold bind.
  destruct (H1 s) as (Hiff1 & Hok1 & Herr1).
  destruct (m1 s) as [[e|[]] s1]; simpl in *.
  - split; [|split]; try tauto.
    rewrite clean_add. tauto.
  - destruct (Hok1 I) as [Hconn Hcalls].
    destruct (H2 s1) as (Hiff2 & Hok2 & Herr2).
    rewrite clean_add, <- Hcalls, <- Hiff2, <- Hiff1.
    split; [tauto|]. split.
    + intros Hs. destruct (Hok2 Hs) as [-> ->]. rewrite Hconn. split; [done|lia].
    + intros Hs. rewrite (Herr2 Hs), Hconn. apply Hkeep.
Qed.

(* The same, with the effect and the cost given up to equality. *)
Lemma obeys_seq m1 m2 F1 F2 c1 c2 F cost :
  obeys env m1 F1 c1 ->
  (forall c, committed (F1 c) = committed c) ->
  obeys env m2 F2 c2 ->
  (forall c, F2 (F1 c) = F c) ->
  cost = (c1 + c2)%nat ->
  obeys env (m1 ;;; m2) F cost.
Proof.
  intros H1 Hkeep H2 HF ->.
  eapply obeys_ext; [apply HF|]. by apply obeys_bind.
Qed.

Lemma obeys_forEach {A} (xs : list A) (body : A -> M unit)
    (G : A -> Conn -> Conn) (cost : A -> nat) :
  (forall x, obeys env (body x) (G x) (cost x)) ->
  (forall x c, committed (G x c) = committed c) ->
  obeys env (forEach xs body) (fun c => foldl (fun c x => G x c) c xs)
        (sum_list (cost <$> xs)).
Proof.
  intros Hbody Hkeep. induction xs as [|x xs IH]; simpl.
  - apply obeys_ret.
  - eapply obeys_ext; [|apply obeys_bind; [apply Hbody|apply Hkeep|apply IH]].
    done.
Qed.

Lemma obeys_defer m F cost cleanup :
  (forall c, committed (cleanup c) = committed c) ->
  obeys env m F cost ->
  obeys env (defer cleanup m) (fun c => cleanup (F c)) cost.
Proof.
  intros Hkeep Hm s. unfold defer.
  destruct (Hm s) as (Hiff & Hok & Herr).
  destruct (m s) as [r s']; simpl in *.
  split; [done|]. split.
  - intros Hs. destruct (Hok Hs) as [-> ->]. done.
  - intros Hs. rewrite Hkeep. by apply Herr.
Qed.

Lemma onPending_committed f c : committed (onPending f c) = committed c.
Proof. done. Qed.

Lemma onPending_id f c : (forall t, f t = t) -> onPending f c = c.
Proof.
  intros Hf. destruct c as [t [w|]]; unfold onPending; simpl; [|done].
  by rewrite Hf.
Qed.

Lemma attachmentEffect_fold event atts c :
  foldl (fun c a => attachmentEffect env event a c) c atts
  = onPending (fun t => mkTables (events t)
                 (foldl (applyAttachment env event) (event_attachments t) atts)) c.
Proof.
  revert c. induction atts as [|a atts IH]; intros c; simpl.
  - symmetry. apply onPending_id. by intros [].
  - rewrite IH. unfold attachmentEffect, applyAttachment.
    destruct (String.eqb (FileID a) ""); [done|].
    by destruct c as [t [w|]].
Qed.

Lemma attachment_cost atts :
  sum_list ((fun a : EventAttachment => if String.eqb (FileID a) "" then 0 else 1)%nat
              <$> atts)
  = length (filter (fun a => FileID a ≠ "") atts).
Proof.
  induction atts as [|a atts IH]; [done|].
  rewrite fmap_cons, filter_cons. simpl. rewrite IH.
  destruct (String.eqb_spec (FileID a) "") as [Heq|Hne].
  - by rewrite decide_False by (by intros ?).
  - by rewrite decide_True.
Qed.

Lemma obeys_insertAttachmentsTx event :
  obeys env (insertAttachmentsTx env event)
    (onPending (fun t => mkTables (events t)
                  (foldl (applyAttachment env event) (event_attachments t)
                         (Attachments event))))
    (attachmentCalls event).
Proof.
  unfold insertAttachmentsTx, attachmentCalls.
  destruct (Nat.eqb_spec (length (Attachments event)) 0) as [Hz|Hnz].
  - eapply obeys_ext; [|apply obeys_ret].
    intros c. symmetry. apply onPending_id.
    destruct (Attachments event); [by intros []|done].
  - eapply obeys_seq.
    + apply obeys_driverCall.
    + done.
    + apply (obeys_forEach _ _ (attachmentEffect env event)
               (fun a => if String.eqb (FileID a) "" then 0 else 1)%nat).
      * intros a. unfold attachmentEffect.
        destruct (String.eqb (FileID a) ""); [apply obeys_ret|].
        apply obeys_driverCall.
      * intros a c. unfold attachmentEffect.
        by destruct (String.eqb (FileID a) "").
    + intros c. simpl. apply attachmentEffect_fold.
    + by rewrite attachment_cost.
Qed.

Lemma obeys_insert_event event :
  obeys env (execInsertEvent env event ;;; insertAttachmentsTx env event)
    (onPending (fun t => applyEvent env t event))
    (S (attachmentCalls event)).
Proof.
  eapply obeys_seq.
  - apply obeys_driverCall.
  - done.
  - apply obeys_insertAttachmentsTx.
  - intros c. by destruct c as [t [w|]].
  - done.
Qed.

Lemma applyBatch_fold evs c :
  foldl (fun c e => onPending (fun t => applyEvent env t e) c) c evs
  = onPending (fun t => applyBatch env t evs) c.
Proof.
  revert c. induction evs as [|e evs IH]; intros c; simpl.
  - symmetry. by apply onPending_id.
  - rewrite IH. by destruct c as [t [w|]].
Qed.

Lemma obeys_insertEventsBody evs :
  obeys env (insertEventsBody env evs)
    (fun c => txCommit (onPending (fun t => applyBatch env t evs) c))
    (1 + (sum_list ((fun e => S (attachmentCalls e)) <$> evs) + 1)).
Proof.
  unfold insertEventsBody.
  eapply obeys_seq.
  - apply obeys_driverCall.
  - done.
  - eapply obeys_seq.
    + apply (obeys_forEach _ _ (fun e => onPending (fun t => applyEvent env t e))).
      * apply obeys_insert_event.
      * done.
    + intros c. cbv beta. by rewrite applyBatch_fold.
    + apply obeys_driverCall.
    + intros c. cbv beta. rewrite applyBatch_fold. reflexivity.
    + reflexivity.
  - done.
  - done.
Qed.

Lemma obeys_insertEventsM evs :
  obeys env (insertEventsM env evs)
    (fun c => txRollback (txCommit (onPending (fun t => applyBatch env t evs)
                                              (txBegin c))))
    (callCount evs).
Proof.
  unfold insertEventsM.
  eapply obeys_seq.
  - apply obeys_driverCall.
  - done.
  - apply obeys_defer; [done|]. apply obeys_insertEventsBody.
  - done.
  - unfold callCount. lia.
Qed.

(* What a call of [InsertEvents] comes to. *)
Lemma InsertEvents_spec db evs :
  ((InsertEvents env db evs).1 = None <-> clean env 0 (callCount evs))
  /\ ((InsertEvents env db evs).1 = None ->
      (InsertEvents env db evs).2 = applyBatch env db evs)
  /\ ((InsertEvents env db evs).1 ≠ None -> (InsertEvents env db evs).2 = db).
Proof.
  unfold InsertEvents.
  destruct (obeys_insertEventsM evs (mkSt 0 (mkConn db None))) as (Hiff & Hok & Herr).
  destruct (insertEventsM env evs (mkSt 0 (mkConn db None))) as [[e|[]] s];
    simpl in *.
  - split; [|split]; try done.
    + split; [done|]. intros Hc. by apply Hiff in Hc.
    + intros _. apply Herr. tauto.
  - destruct (Hok I) as [-> _]. split; [|split]; try done.
    split; [|done]. intros _. by apply Hiff.
Qed.

End insert_events.

Section events_table.
Import Database.
Variable env : Env.

Lemma events_applyBatch t evs :
  events (applyBatch env t evs) = storeRows env (events t) evs.
Proof.
  unfold applyBatch, storeRows. revert t.
  induction evs as [|e evs IH]; intros t; [done|]. simpl. by rewrite IH.
Qed.

Lemma rowsWithID_insert id r rows :
  rowsWithID id (insertOrReplaceEvent r rows)
  = if decide (row_id r = id) then [r] else rowsWithID id rows.
Proof.
  unfold rowsWithID, insertOrReplaceEvent.
  rewrite filter_app, filter_cons, filter_nil.
  assert (Hrest : filter (fun x => row_id x = id)
                    (filter (fun x => row_id x ≠ row_id r) rows)
                  = if decide (row_id r = id) then []
                    else filter (fun x => row_id x = id) rows).
  { induction rows as [|x rows IH]; [by destruct (decide _)|].
    rewrite (filter_cons _ x). destruct (decide (row_id x ≠ row_id r)) as [Hne|Heq].
    - rewrite !filter_cons, IH.
      destruct (decide (row_id r = id)), (decide (row_id x = id)); congruence.
    - rewrite IH, filter_cons.
      destruct (decide (row_id r = id)), (decide (row_id x = id)); try done.
      exfalso. apply Heq. congruence. }
  rewrite Hrest. destruct (decide (row_id r = id)); [done|].
  by rewrite app_nil_r.
Qed.

Lemma length_insert_event r rows :
  (length (insertOrReplaceEvent r rows) + length (rowsWithID (row_id r) rows)
   = S (length rows))%nat.
Proof.
  unfold insertOrReplaceEvent, rowsWithID. rewrite length_app. simpl.
  induction rows as [|x rows IH]; [done|].
  rewrite !filter_cons.
  destruct (decide (row_id x ≠ row_id r)), (decide (row_id x = row_id r));
    simpl; try lia; tauto.
Qed.

Lemma NoDup_insert_event r rows :
  NoDup (row_id <$> rows) -> NoDup (row_id <$> insertOrReplaceEvent r rows).
Proof.
  intros Hnd. unfold insertOrReplaceEvent. rewrite fmap_app.
  apply NoDup_app. split; [|split].
  - revert Hnd. induction rows as [|x rows IH]; [done|].
    rewrite fmap_cons. intros [Hnin Hnd]%NoDup_cons.
    rewrite filter_cons. destruct (decide _); [|by apply IH].
    rewrite fmap_cons. apply NoDup_cons. split; [|by apply IH].
    intros (y & Hy & Hin)%list_elem_of_fmap.
    apply list_elem_of_filter in Hin as [_ Hin].
    apply Hnin. rewrite Hy. by apply list_elem_of_fmap_2.
  - intros id (y & -> & Hin)%list_elem_of_fmap Hr.
    apply list_elem_of_filter in Hin as [Hne _].
    apply list_elem_of_singleton in Hr. done.
  - apply NoDup_singleton.
Qed.

Lemma NoDup_storeRows rows evs :
  NoDup (row_id <$> rows) -> NoDup (row_id <$> storeRows env rows evs).
Proof.
  unfold storeRows. revert rows.
  induction evs as [|e evs IH]; intros rows Hnd; [done|].
  simpl. by apply IH, NoDup_insert_event.
Qed.

Lemma rowsWithID_storeRows_other id rows evs :
  id ∉ ID <$> evs -> rowsWithID id (storeRows env rows evs) = rowsWithID id rows.
Proof.
  unfold storeRows. revert rows.
  induction evs as [|e evs IH]; intros rows Hnin; [done|].
  rewrite fmap_cons, not_elem_of_cons in Hnin. destruct Hnin as [Hne Hnin].
  simpl. rewrite IH by done. rewrite rowsWithID_insert.
  by rewrite decide_False by (simpl; congruence).
Qed.

(* Last write wins: the row of an id is the one of the last event of the
   batch that carries it, and it is the only one. *)
Lemma rowsWithID_storeRows_last rows l1 e l2 :
  ID e ∉ ID <$> l2 ->
  rowsWithID (ID e) (storeRows env rows (l1 ++ e :: l2)) = [eventRow env e].
Proof.
  intros Hnin. unfold storeRows. rewrite foldl_app. simpl.
  fold (storeRows env rows l1).
  fold (storeRows env (insertOrReplaceEvent (eventRow env e) (storeRows env rows l1)) l2).
  rewrite rowsWithID_storeRows_other by done.
  rewrite rowsWithID_insert. by rewrite decide_True.
Qed.

Lemma last_occurrence id evs :
  id ∈ ID <$> evs ->
  exists l1 e l2, evs = l1 ++ e :: l2 /\ ID e = id /\ id ∉ ID <$> l2.
Proof.
  induction evs as [|x evs IH]; [by intros ?%elem_of_nil|].
  rewrite fmap_cons. intros Hin.
  destruct (decide (id ∈ ID <$> evs)) as [Hrest|Hrest].
  - destruct (IH Hrest) as (l1 & e & l2 & -> & He & Hl2).
    by exists (x :: l1), e, l2.
  - apply elem_of_cons in Hin as [->|Hin]; [|done].
    by exists [], x, evs.
Qed.

Lemma storeRows_one_row rows evs e :
  e ∈ evs -> length (rowsWithID (ID e) (storeRows env rows evs)) = 1%nat.
Proof.
  intros Hin.
  destruct (last_occurrence (ID e) evs) as (l1 & e' & l2 & -> & He & Hl2).
  { by apply list_elem_of_fmap_2. }
  rewrite <- He in *. by rewrite rowsWithID_storeRows_last.
Qed.

(* Storing events whose ids each have one row already keeps the row count. *)
Lemma storeRows_length env' rows evs :
  (forall e, e ∈ evs -> length (rowsWithID (ID e) rows) = 1%nat) ->
  length (storeRows env' rows evs) = length rows.
Proof.
  unfold storeRows. revert rows.
  induction evs as [|e evs IH]; intros rows Hone; [done|].
  simpl. rewrite IH.
  - pose proof (length_insert_event (eventRow env' e) rows) as Hlen.
    simpl in Hlen. rewrite (Hone e) in Hlen by (apply elem_of_cons; auto). lia.
  - intros e' He'. rewrite rowsWithID_insert. simpl.
    destruct (decide (ID e = ID e')); [done|].
    apply Hone. apply elem_of_cons. auto.
Qed.

End events_table.

(** C3. When a run of [InsertEvents] has stored a batch, running it again
    with the same batch leaves the number of rows of the events table as it
    is, whether the second run commits or fails; no id gets a second row, and
    after a second run that commits the one row of each id of the batch is
    the row written for the last event with that id. *)
Theorem InsertEvents_idempotent (env1 env2 : Database.Env) (db : Database.Tables)
    (evs : list Event) :
  (Database.InsertEvents env1 db evs).1 = None ->
  let db1 := (Database.InsertEvents env1 db evs).2 in
  let out2 := Database.InsertEvents env2 db1 evs in
  length (Database.events out2.2) = length (Database.events db1)
  /\ (NoDup (Database.row_id <$> Database.events db1) ->
      NoDup (Database.row_id <$> Database.events out2.2))
  /\ (out2.1 = None ->
      forall l1 e l2, evs = l1 ++ e :: l2 -> ID e ∉ ID <$> l2 ->
        rowsWithID (ID e) (Database.events out2.2) = [Database.eventRow env2 e]).
Proof.
  intros Hok1. cbv zeta.
  destruct (InsertEvents_spec env1 db evs) as (_ & Hdb1 & _).
  rewrite (Hdb1 Hok1).
  set (db1 := applyBatch env1 db evs).
  destruct (InsertEvents_spec env2 db1 evs) as (_ & Hcommit & Hfail).
  destruct ((Database.InsertEvents env2 db1 evs).1) as [e2|] eqn:Hout.
  - rewrite Hfail by done. split; [done|]. split; done.
  - rewrite Hcommit by done. rewrite events_applyBatch.
    split; [|split].
    + apply storeRows_length. intros e He. unfold db1.
      rewrite events_applyBatch. by apply storeRows_one_row.
    + apply NoDup_storeRows.
    + intros _ l1 e l2 -> Hl2. by apply rowsWithID_storeRows_last.
Qed.

Lemma InsertEvents_idempotent_witness :
  let db1 := (Database.InsertEvents Scenario.steady Scenario.emptyDB Scenario.batch).2 in
  let out2 := Database.InsertEvents Scenario.steady db1 Scenario.batch in
  length (Database.events out2.2) = length (Database.events db1)
  /\ (NoDup (Database.row_id <$> Database.events db1) ->
      NoDup (Database.row_id <$> Database.events out2.2))
  /\ (out2.1 = None ->
      forall l1 e l2, Scenario.batch = l1 ++ e :: l2 -> ID e ∉ ID <$> l2 ->
        rowsWithID (ID e) (Database.events out2.2)
        = [Database.eventRow Scenario.steady e]).
Proof.
  apply (InsertEvents_idempotent Scenario.steady Scenario.steady Scenario.emptyDB
           Scenario.batch).
  vm_compute. reflexivity.
Defined.

Example InsertEvents_twice_two_rows :
  let db1 := (Database.InsertEvents Scenario.steady Scenario.emptyDB Scenario.batch).2 in
  let db2 := (Database.InsertEvents Scenario.steady db1 Scenario.batch).2 in
  length (Database.events db1) = 2%nat /\ length (Database.events db2) = 2%nat
  /\ length (Database.event_attachments db2) = 1%nat.
Proof. vm_compute. repeat split. Qed.

(** C4. [InsertEvents] runs the event rows of a batch and all their
    attachment rows in one transaction: it returns nil exactly when no call
    into the driver fails, and then the whole batch is stored; as soon as one
    insertion (or any other call of the run) fails it returns an error and
    the stored tables are what they were, with no row of the batch kept. *)
Theorem InsertEvents_all_or_nothing (env : Database.Env) (db : Database.Tables)
    (evs : list Event) :
  let out := Database.InsertEvents env db evs in
  (out.1 = None <-> clean env 0 (callCount evs))
  /\ (out.1 ≠ None -> out.2 = db)
  /\ (out.1 = None -> out.2 = applyBatch env db evs).
Proof.
  cbv zeta. destruct (InsertEvents_spec env db evs) as (Hiff & Hok & Herr).
  done.
Qed.

(* The attachment of the first event cannot be inserted: the event row that
   was already written in the transaction is not kept. *)
Example InsertEvents_attachment_failure_rolls_back :
  Database.InsertEvents (Scenario.failingAt 4) Scenario.emptyDB Scenario.batch
  = (Some (Database.ErrInsertAttachment "cal-1"), Scenario.emptyDB).
Proof. vm_compute. reflexivity. Qed.

Example InsertEvents_second_event_failure_rolls_back :
  Database.InsertEvents (Scenario.failingAt 5) Scenario.emptyDB Scenario.batch
  = (Some (Database.ErrInsertEvent "ok-2"), Scenario.emptyDB).
Proof. vm_compute. reflexivity. Qed.

Example InsertEvents_commit_failure_keeps_nothing :
  Database.InsertEvents (Scenario.failingAt 6) Scenario.emptyDB Scenario.batch
  = (Some Database.ErrCommit, Scenario.emptyDB).
Proof. vm_compute. reflexivity. Qed.

(** ** The persistence layer: GetEvents *)

Section get_events.
Import Database.
Variable env : Env.







Lemma offsetSign_cases t : offsetSign t = 0 \/ offsetSign t = 1.
Proof. unfold offsetSign. destruct (textOffset t <? 0); auto. Qed.

Global Instance text_le_trans : Transitive text_le.
Proof. unfold text_le. intros a b c. lia. Qed.

Global Instance text_le_total : Total text_le.
Proof. unfold text_le. intros a b. lia. Qed.

Global Instance row_le_trans : Transitive row_le.
Proof. unfold row_le. intros a b c. apply text_le_trans. Qed.

Global Instance row_le_total : Total row_le.
Proof. unfold row_le. intros a b. apply text_le_total. Qed.

Lemma selectEvents_elem lo hi services db r :
  r ∈ selectEvents lo hi services db
  <-> r ∈ events db /\ rowInRange lo hi r = true /\ serviceSelected services r = true.
Proof.
  unfold selectEvents. rewrite merge_sort_Permutation, list_elem_of_filter.
  rewrite andb_True, !Is_true_true. tauto.
Qed.



Lemma textOffset_whole t :
  zoneOffset t `mod` 60 = 0 -> textOffset t * 60 = zoneOffset t.
Proof.
  intros Hm. unfold textOffset.
  apply Z.mod_divide in Hm as [k Hk]; [|lia].
  rewrite Hk, Z.quot_mul by lia. done.
Qed.

End get_events.

Lemma plain_inv t :
  plain t = true ->
  Database.fourDigitYear (unixNano t `div` Second) = true
  /\ Database.fourDigitYear (Database.wallNano t `div` Second) = true
  /\ zoneOffset t `mod` 60 = 0
  /\ Z.abs (zoneOffset t) < 15 * 3600
  /\ unixNano t `mod` Second < 999500000.
Proof.
  unfold plain. rewrite !andb_true_iff, Z.eqb_eq, !Z.ltb_lt. tauto.
Qed.

(* The driver reads a timestamp back as it was written when its offset is a
   whole number of minutes. *)
Lemma readBack_whole t : zoneOffset t `mod` 60 = 0 -> Database.readBack t = t.
Proof.
  intros Hm. destruct t as [u off].
  unfold Database.readBack, Database.wallNano. simpl in *.
  pose proof (textOffset_whole (mkTime u off) Hm) as Hoff. simpl in Hoff.
  rewrite Hoff. f_equal. unfold Minute. lia.
Qed.

Lemma readBack_plain t : plain t = true -> Database.readBack t = t.
Proof. intros (_ & _ & Hm & _)%plain_inv. by apply readBack_whole. Qed.

(* The engine reads a plain timestamp to the whole second of its instant. *)
Lemma datetime_plain t :
  plain t = true -> Database.datetime t = Some (unixNano t `div` Second).
Proof.
  intros (Hutc & Hwall & Hm & Habs & Hfrac)%plain_inv.
  pose proof (textOffset_whole t Hm) as Hoff.
  unfold Database.datetime. rewrite Hwall.
  assert (Hsmall : (Z.abs (Database.textOffset t) <? 15 * 60) = true).
  { apply Z.ltb_lt. lia. }
  rewrite Hsmall. cbn [andb]. cbv zeta.
  assert (Hsec : (if Database.textOffset t =? 0
                  then Database.wallNano t `div` Second
                  else ((Database.wallNano t + 500000) `div` 1000000
                        - Database.textOffset t * 60000) `div` 1000)
                 = unixNano t `div` Second).
  { unfold Database.wallNano.
    destruct (Z.eqb_spec (Database.textOffset t) 0) as [Hz|Hnz].
    - rewrite Hz in Hoff. rewrite <- Hoff. f_equal. lia.
    - replace (unixNano t + zoneOffset t * Second + 500000)
        with (unixNano t + 500000 + Database.textOffset t * 60000 * 1000000)
        by (rewrite <- Hoff; unfold Second; lia).
      rewrite Z.div_add by lia.
      replace (((unixNano t + 500000) `div` 1000000)
               + Database.textOffset t * 60000 - Database.textOffset t * 60000)
        with ((unixNano t + 500000) `div` 1000000) by lia.
      rewrite Z.div_div by lia. unfold Second in *.
      change (1000000 * 1000) with 1000000000.
      pose proof (Z.div_mod (unixNano t) 1000000000 ltac:(lia)).
      pose proof (Z.mod_pos_bound (unixNano t) 1000000000 ltac:(lia)).
      symmetry. apply (Z.div_unique _ _ _ (unixNano t `mod` 1000000000 + 500000)); lia. }
  rewrite Hsec, Hutc. done.
Qed.





Lemma datetimeBound_Some seconds :
  Database.fourDigitYear seconds = true -> Database.datetimeBound seconds = Some seconds.
Proof. intros H. unfold Database.datetimeBound. by rewrite H. Qed.

(* A plain row is selected exactly when its whole second lies between the
   whole seconds of bounds with four-digit years. *)
Lemma rowInRange_plain lo hi r :
  Database.fourDigitYear lo = true -> Database.fourDigitYear hi = true ->
  plain (Database.row_timestamp r) = true ->
  Database.rowInRange (Database.datetimeBound lo) (Database.datetimeBound hi) r = true
  <-> lo <= unixNano (Database.row_timestamp r) `div` Second <= hi.
Proof.
  intros Hlo Hhi Hp. unfold Database.rowInRange.
  rewrite !datetimeBound_Some, datetime_plain by done.
  rewrite andb_true_iff, !Z.leb_le. tauto.
Qed.






(** The order is that of the stored texts.  An event stored at 10:30 UTC and
    one stored half an hour earlier in Tokyo, where the wall clock shows
    19:00: the query returns the UTC event first. *)
Example GetEvents_orders_by_wall_clock :
  let dayEnd := Scenario.Add Scenario.base (12 * Hour) in
  exists first second,
    Database.GetEvents Scenario.steady
      (Database.mkTables [Scenario.tokyoRow; Scenario.utcRow] [])
      Scenario.base dayEnd [] = inr [first; second]
    /\ ID first = "b-utc" /\ ID second = "a-jst"
    /\ ts second < ts first.
Proof.
  cbv zeta. eexists _, _. split; [vm_compute; reflexivity|].
  repeat split; vm_compute; reflexivity.
Qed.

(** Why the fraction matters: in a text with an offset other than 00:00 the
    engine rounds the fraction to milliseconds before it takes the whole
    second.  Of two rows stored 0.4 ms before [base + 1s], one in Tokyo and
    one in UTC, the window of the single second [base + 1s] holds the one
    from Tokyo only. *)
Example GetEvents_rounds_to_milliseconds :
  let second := Scenario.Add Scenario.base (1 * Second) in
  exists e,
    Database.GetEvents Scenario.steady
      (Database.mkTables [Scenario.almostTokyoRow; Scenario.almostUtcRow] [])
      second second [] = inr [e]
    /\ ID e = "almost-jst" /\ ts e < unixNano second.
Proof.
  cbv zeta. eexists. split; [vm_compute; reflexivity|].
  split; vm_compute; reflexivity.
Qed.

(** A bound in the year 10000 is a text the engine does not read: nothing is
    returned. *)
Example GetEvents_bound_beyond_9999 :
  Database.GetEvents Scenario.steady
    (Database.mkTables [Scenario.earlyRow] [])
    Scenario.base (mkTime (Database.year10000 * Second) 0) []
  = inr [].
Proof. vm_compute. reflexivity. Qed.

(** * Further properties *)

(** ** Initialization of the collector *)

Section initialization.
Import Collector EventCollector.

Lemma prioritize_fold names p o :
  foldl prioritizeStep (p, o) names
  = (p ++ filter (fun n => n = "google_calendar") names,
     o ++ filter (fun n => n ≠ "google_calendar") names).
Proof.
  revert p o. induction names as [|n names IH]; intros p o; simpl.
  - by rewrite !app_nil_r.
  - rewrite !filter_cons. unfold prioritizeStep at 2.
    destruct (String.eqb_spec n "google_calendar") as [Heq|Hne]; cbn [fst snd].
    + rewrite IH. rewrite decide_True by done.
      rewrite decide_False by (by intros ?). by rewrite <- app_assoc.
    + rewrite IH. rewrite decide_False by done.
      rewrite decide_True by done. by rewrite <- app_assoc.
Qed.

Lemma prioritize_filter names :
  prioritizeCalendarService names
  = filter (fun n => n = "google_calendar") names
    ++ filter (fun n => n ≠ "google_calendar") names.
Proof. unfold prioritizeCalendarService. by rewrite prioritize_fold. Qed.

Lemma prioritize_perm names : prioritizeCalendarService names ≡ₚ names.
Proof. rewrite prioritize_filter. apply filter_app_complement. Qed.

End initialization.

(** X1. [prioritizeCalendarService] returns a permutation of the names it is
    given: the google_calendar entries first, then all other names in the
    order they had. *)
Theorem prioritizeCalendarService_partition (serviceNames : list string) :
  EventCollector.prioritizeCalendarService serviceNames ≡ₚ serviceNames
  /\ EventCollector.prioritizeCalendarService serviceNames
     = filter (fun n => n = "google_calendar") serviceNames
       ++ filter (fun n => n ≠ "google_calendar") serviceNames.
Proof. split; [apply prioritize_perm|apply prioritize_filter]. Qed.

Section initialization_for.
Import Collector EventCollector.
Variable k : Clients.
Variable cfg : Config.Config.

Lemma initializeEach_ok names services :
  (forall n, n ∈ names -> is_Some (built k cfg n)) ->
  (initializeEach k cfg names services).1 = None
  /\ forall n, (initializeEach k cfg names services).2 !! n
               = if decide (n ∈ names) then built k cfg n else services !! n.
Proof.
  revert services. induction names as [|x names IH]; intros services Hall; simpl.
  - done.
  - destruct (Hall x) as [c Hc]; [apply elem_of_cons; auto|].
    unfold built in Hc. destruct (initializeOne k cfg x) as [e|client] eqn:Hx; [done|].
    injection Hc as ->.
    destruct (IH (<[x:=c]> services)) as [Hnone Hlook].
    { intros n Hn. apply Hall. apply elem_of_cons. auto. }
    split; [done|]. intros n. rewrite Hlook.
    destruct (decide (n ∈ names)) as [Hin|Hnin].
    + rewrite decide_True; [done|]. apply elem_of_cons. auto.
    + destruct (decide (n = x)) as [->|Hne].
      * rewrite lookup_insert_eq, decide_True by (apply elem_of_cons; auto).
        unfold built. by rewrite Hx.
      * rewrite lookup_insert_ne by done.
        rewrite decide_False; [done|]. rewrite elem_of_cons. tauto.
Qed.

Lemma initializeEach_error names services :
  (initializeEach k cfg names services).1 = None ->
  forall n, n ∈ names -> is_Some (built k cfg n).
Proof.
  revert services. induction names as [|x names IH]; intros services Hnone n Hn.
  - by apply elem_of_nil in Hn.
  - simpl in Hnone. unfold built.
    destruct (initializeOne k cfg x) as [e|client] eqn:Hx; [done|].
    apply elem_of_cons in Hn as [->|Hn].
    + rewrite Hx. eauto.
    + by apply (IH _ Hnone).
Qed.

Lemma InitializeServicesFor_spec names :
  ((InitializeServicesFor k cfg names).1 = None
   <-> names ≠ [] /\ forall n, n ∈ names -> is_Some (built k cfg n))
  /\ ((InitializeServicesFor k cfg names).1 = None ->
      forall n, (InitializeServicesFor k cfg names).2 !! n
                = if decide (n ∈ names) then built k cfg n else None).
Proof.
  unfold InitializeServicesFor.
  destruct names as [|x names]; [simpl; split; [split; [done|by intros [? _]]|done]|].
  change (length (x :: names) =? 0)%nat with false. cbv iota.
  set (ordered := prioritizeCalendarService (x :: names)).
  assert (Hmem : forall n, n ∈ ordered <-> n ∈ x :: names).
  { intros n. unfold ordered. by rewrite prioritize_perm. }
  destruct (initializeEach k cfg ordered ∅) as [[e|] services] eqn:Heach.
  - simpl. split; [|done]. split; [done|]. intros [_ Hall].
    destruct (initializeEach_ok ordered ∅) as [Hnone _].
    { intros n Hn. apply Hall. by apply Hmem. }
    rewrite Heach in Hnone. done.
  - assert (Hall : forall n, n ∈ x :: names -> is_Some (built k cfg n)).
    { intros n Hn. apply (initializeEach_error ordered ∅).
      - by rewrite Heach.
      - by apply Hmem. }
    destruct (initializeEach_ok ordered ∅) as [_ Hlook].
    { intros n Hn. apply Hall. by apply Hmem. }
    rewrite Heach in Hlook. simpl in Hlook.
    assert (Hsize : size services ≠ 0%nat).
    { intros Hz. apply map_size_empty_iff in Hz. subst services.
      specialize (Hlook x). rewrite lookup_empty in Hlook.
      rewrite decide_True in Hlook by (apply Hmem, elem_of_cons; auto).
      destruct (Hall x) as [c Hc]; [apply elem_of_cons; auto|]. congruence. }
    destruct (Nat.eqb_spec (size services) 0) as [?|_]; [done|]. simpl.
    split; [split; [done|by intros _]|].
    intros _ n. rewrite Hlook. rewrite lookup_empty.
    destruct (decide (n ∈ ordered)) as [Hin|Hnin].
    + rewrite decide_True; [done|]. by apply Hmem.
    + rewrite decide_False; [done|]. by rewrite <- Hmem.
Qed.

(* One step of InitializeServices: a client is registered under [key] when
   the condition holds and the constructor answers. *)
Lemma register_lookup_ne (b : bool) (o : option ServiceClient) key
    (m : gmap string ServiceClient) n :
  key ≠ n ->
  (if b then match o with Some c => <[key:=c]> m | None => m end else m) !! n = m !! n.
Proof. intros Hne. destruct b, o; try done. by rewrite lookup_insert_ne. Qed.

Lemma register_lookup_eq (b : bool) (o : option ServiceClient) key
    (m : gmap string ServiceClient) :
  m !! key = None ->
  (if b then match o with Some c => <[key:=c]> m | None => m end else m) !! key
  = if b then o else None.
Proof. intros Hm. destruct b, o; try done. by rewrite lookup_insert_eq. Qed.

Lemma InitializeServices_lookup n :
  (InitializeServices k cfg).2 !! n = built k cfg n.
Proof.
  unfold InitializeServices. cbv zeta.
  match goal with
  | |- (if ?c then (_, ?m) else (_, ?m)).2 !! _ = _ =>
      replace (if c then (Some ErrNoServices, m) else (None, m)).2 with m
        by (by destruct c)
  end.
  unfold built, initializeOne.
  destruct (decide (n = "google_calendar")) as [->|Hc].
  { rewrite register_lookup_eq.
    - simpl. destruct (Config.Enabled (Config.GoogleCal cfg)); [|done].
      by destruct (NewCalendarClient k cfg).
    - rewrite !register_lookup_ne by done. apply lookup_empty. }
  rewrite register_lookup_ne by done.
  destruct (decide (n = "github")) as [->|Hg].
  { rewrite register_lookup_eq.
    - simpl. destruct (Config.Enabled (Config.GitHub cfg)); [|done]. simpl.
      destruct (String.eqb (Config.AccessToken (Config.GitHub cfg)) ""); [done|].
      simpl. by destruct (NewGitHubClientWithConfig k _ cfg).
    - rewrite register_lookup_ne by done. apply lookup_empty. }
  rewrite register_lookup_ne by done.
  destruct (decide (n = "slack")) as [->|Hs].
  { rewrite register_lookup_eq by apply lookup_empty.
    simpl. destruct (Config.Enabled (Config.Slack cfg)); [|done]. simpl.
    destruct (String.eqb (Config.AccessToken (Config.Slack cfg)) ""); [done|].
    simpl. by destruct (NewSlackClient k _ cfg). }
  rewrite register_lookup_ne, lookup_empty by done.
  apply String.eqb_neq in Hs, Hg, Hc. by rewrite Hs, Hg, Hc.
Qed.

Lemma InitializeServices_error :
  (InitializeServices k cfg).1 = None <-> (InitializeServices k cfg).2 ≠ ∅.
Proof.
  unfold InitializeServices.
  repeat match goal with
         | |- context [let s := ?v in _] => idtac
         end.
  cbv zeta.
  match goal with
  | |- context [(size ?m =? 0)%nat] =>
      generalize m; intros services
  end.
  destruct (Nat.eqb_spec (size services) 0) as [Hz|Hnz]; simpl.
  - apply map_size_empty_iff in Hz. split; [done|]. by intros ?.
  - split; [|done]. intros _ He. apply Hnz. by apply map_size_empty_iff.
Qed.

End initialization_for.

(** X2. [InitializeServicesFor] fails fast: it returns nil exactly when at
    least one name is given and for every given name the service is known,
    enabled, has its token where one is needed, and its client can be built;
    the registered services are then exactly the given ones. *)
Theorem InitializeServicesFor_all_or_error (k : EventCollector.Clients)
    (cfg : Config.Config) (serviceNames : list string) :
  let out := EventCollector.InitializeServicesFor k cfg serviceNames in
  (out.1 = None
   <-> serviceNames ≠ [] /\ forall n, n ∈ serviceNames -> is_Some (built k cfg n))
  /\ (out.1 = None ->
      forall n, out.2 !! n = if decide (n ∈ serviceNames) then built k cfg n else None).
Proof. cbv zeta. apply InitializeServicesFor_spec. Qed.

Lemma InitializeServicesFor_all_or_error_witness :
  (EventCollector.InitializeServicesFor Scenario.mockClients Scenario.twoEnabled
     ["github"; "slack"]).2 !! "github"
  = if decide ("github" ∈ ["github"; "slack"])
    then built Scenario.mockClients Scenario.twoEnabled "github" else None.
Proof.
  apply (InitializeServicesFor_all_or_error Scenario.mockClients Scenario.twoEnabled
           ["github"; "slack"]).
  vm_compute. reflexivity.
Defined.

Example InitializeServicesFor_unknown_name :
  (EventCollector.InitializeServicesFor Scenario.mockClients Scenario.twoEnabled
     ["slack"; "jira"]).1
  = Some (EventCollector.ErrUnknownService "jira").
Proof. vm_compute. reflexivity. Qed.

Example InitializeServicesFor_calendar_first :
  (EventCollector.InitializeServicesFor Scenario.mockClients Scenario.twoEnabled
     ["slack"; "google_calendar"]).1
  = Some (EventCollector.ErrDisabled "google_calendar").
Proof. vm_compute. reflexivity. Qed.

(** X3. [InitializeServices] registers exactly the services
    [InitializeServicesFor] would accept by name (enabled, token present where
    needed, client built) and skips the others; it returns an error exactly
    when it registers none.  So when [InitializeServicesFor] succeeds, the
    services it registers are those of [InitializeServices] restricted to the
    given names. *)
Theorem InitializeServices_registers_buildable (k : EventCollector.Clients)
    (cfg : Config.Config) (serviceNames : list string) :
  let all := EventCollector.InitializeServices k cfg in
  let some := EventCollector.InitializeServicesFor k cfg serviceNames in
  (forall n, all.2 !! n = built k cfg n)
  /\ (all.1 = None <-> exists n, is_Some (built k cfg n))
  /\ (some.1 = None ->
      forall n, some.2 !! n = if decide (n ∈ serviceNames) then all.2 !! n else None).
Proof.
  cbv zeta. split; [apply InitializeServices_lookup|]. split.
  - rewrite InitializeServices_error. split.
    + intros Hne. apply map_choose in Hne as (n & c & Hn).
      exists n. rewrite <- InitializeServices_lookup. eauto.
    + intros [n [c Hn]] He. rewrite <- InitializeServices_lookup, He in Hn.
      by rewrite lookup_empty in Hn.
  - intros Hok n.
    destruct (InitializeServicesFor_spec k cfg serviceNames) as [_ Hlook].
    rewrite (Hlook Hok). by rewrite InitializeServices_lookup.
Qed.

Lemma InitializeServices_registers_buildable_witness :
  (EventCollector.InitializeServicesFor Scenario.mockClients Scenario.twoEnabled
     ["slack"]).2 !! "slack"
  = if decide ("slack" ∈ ["slack"])
    then (EventCollector.InitializeServices Scenario.mockClients
            Scenario.twoEnabled).2 !! "slack"
    else None.
Proof.
  apply (InitializeServices_registers_buildable Scenario.mockClients
           Scenario.twoEnabled ["slack"]).
  vm_compute. reflexivity.
Defined.

Section status.
Import Collector EventCollector.

Lemma GetServiceStatus_lookup cfg services n :
  GetServiceStatus cfg services !! n
  = if decide (n ∈ ["slack"; "github"; "google_calendar"])
    then Some (mkServiceStatus n (isServiceEnabled cfg n)
                               (isServiceAuthenticated cfg n)
                               (isServiceInitialized services n))
    else None.
Proof.
  unfold GetServiceStatus. simpl.
  destruct (decide (n = "google_calendar")) as [->|Hc]; [by simplify_map_eq|].
  destruct (decide (n = "github")) as [->|Hg]; [by simplify_map_eq|].
  destruct (decide (n = "slack")) as [->|Hs]; [by simplify_map_eq|].
  rewrite decide_False.
  - by simplify_map_eq.
  - rewrite !elem_of_cons, elem_of_nil. tauto.
Qed.

Lemma built_enabled_authenticated k cfg n :
  is_Some (built k cfg n) ->
  isServiceEnabled cfg n = true /\ isServiceAuthenticated cfg n = true.
Proof.
  unfold built, initializeOne, isServiceEnabled, isServiceAuthenticated,
    isGCloudAuthenticated.
  destruct (String.eqb n "slack").
  { destruct (Config.Enabled (Config.Slack cfg)); simpl; [|by intros [? ?]].
    destruct (String.eqb (Config.AccessToken (Config.Slack cfg)) ""); simpl;
      [by intros [? ?]|done]. }
  destruct (String.eqb n "github").
  { destruct (Config.Enabled (Config.GitHub cfg)); simpl; [|by intros [? ?]].
    destruct (String.eqb (Config.AccessToken (Config.GitHub cfg)) ""); simpl;
      [by intros [? ?]|done]. }
  destruct (String.eqb n "google_calendar").
  { destruct (Config.Enabled (Config.GoogleCal cfg)); simpl; [|by intros [? ?]].
    intros _. split; [done|]. apply orb_true_r. }
  by intros [? ?].
Qed.

End status.

(** X4. After [InitializeServices], [GetServiceStatus] reports the three
    known services and no other, and a service it reports as initialized is
    also reported as enabled and as authenticated. *)
Theorem GetServiceStatus_after_InitializeServices (k : EventCollector.Clients)
    (cfg : Config.Config) (n : string) :
  let services := (EventCollector.InitializeServices k cfg).2 in
  let report := EventCollector.GetServiceStatus cfg services in
  (is_Some (report !! n) <-> n ∈ ["slack"; "github"; "google_calendar"])
  /\ forall st, report !! n = Some st ->
       EventCollector.Name st = n
       /\ (EventCollector.Initialized st = true ->
           EventCollector.StatusEnabled st = true
           /\ EventCollector.Authenticated st = true).
Proof.
  cbv zeta. rewrite GetServiceStatus_lookup. split.
  - destruct (decide _); [by eauto|]. split; [by intros [? ?]|done].
  - intros st. destruct (decide _); [|done]. intros [= <-]. simpl.
    split; [done|]. unfold EventCollector.isServiceInitialized.
    intros Hinit%bool_decide_eq_true.
    rewrite InitializeServices_lookup in Hinit.
    by apply (built_enabled_authenticated k).
Qed.

(** X5. [CollectAndStore] stores all or nothing: when it returns an error
    (from the collection or from the insertion) the stored tables are
    unchanged; when it returns nil they hold the whole sorted batch.  It
    returns nil exactly when the collection returns no error and either no
    event was collected or no driver call of the insertion fails; with no
    event collected the database is not called at all. *)
Theorem CollectAndStore_all_or_nothing
    (services : gmap string Collector.ServiceClient) (order : list string)
    (env : Database.Env) (db : Database.Tables) (startTime endTime : Time)
    (serviceNames : list string) :
  let r := Collector.CollectEvents services order startTime endTime serviceNames in
  let out := EventCollector.CollectAndStore services order env db
               startTime endTime serviceNames in
  (out.1 ≠ None -> out.2 = db)
  /\ (out.1 = None -> out.2 = applyBatch env db (Collector.events r))
  /\ (out.1 = None
      <-> Collector.err r = None
          /\ (Collector.events r = []
              \/ clean env 0 (callCount (Collector.events r)))).
Proof.
  cbv zeta. unfold EventCollector.CollectAndStore.
  destruct (Collector.err _) as [e|]; simpl.
  { split; [done|]. split; [done|]. split; [done|]. by intros [? _]. }
  destruct (Collector.events _) as [|ev evs] eqn:Hevs; simpl.
  { split; [done|]. split; [done|]. split; [|done]. intros _. split; [done|by left]. }
  destruct (InsertEvents_spec env db (ev :: evs)) as (Hiff & Hok & Herr).
  destruct (Database.InsertEvents env db (ev :: evs)) as [[e|] db']; simpl in *.
  - split; [intros _; by apply Herr|]. split; [done|].
    split; [done|]. intros [_ [?|Hc]]; [done|]. by apply Hiff in Hc.
  - split; [done|]. split; [intros _; by apply Hok|].
    split; [|done]. intros _. split; [done|]. right. by apply Hiff.
Qed.

(* Every service fails: nothing is collected, the database is not touched
   even though each of its calls would fail. *)
Example CollectAndStore_nothing_collected :
  EventCollector.CollectAndStore Scenario.onlyFailing ["failed"]
    (Scenario.failingAt 0) Scenario.emptyDB Scenario.base
    (Scenario.Add Scenario.base (24 * Hour)) []
  = (None, Scenario.emptyDB).
Proof. vm_compute. reflexivity. Qed.

Example CollectAndStore_stores_partial_success :
  let out := EventCollector.CollectAndStore Scenario.partial ["failed"; "ok"]
               Scenario.steady Scenario.emptyDB Scenario.base
               (Scenario.Add Scenario.base (24 * Hour)) [] in
  out.1 = None
  /\ Database.row_id <$> Database.events out.2 = ["ok-1"; "ok-2"].
Proof. vm_compute. split; reflexivity. Qed.

(** ** The persistence layer: the other operations *)

Section insert_event.
Import Database.
Variable env : Env.

Lemma obeys_insertEventM event :
  obeys env (insertEventM env event)
    (fun c => txRollback (txCommit (onPending (fun t => applyBatch env t [event])
                                              (txBegin c))))
    (callCount [event]).
Proof.
  unfold insertEventM.
  eapply obeys_seq.
  - apply obeys_driverCall.
  - done.
  - apply obeys_defer; [done|].
    eapply obeys_seq; [apply obeys_driverCall|done| |reflexivity|reflexivity].
    eapply obeys_seq; [apply obeys_driverCall|done| |reflexivity|reflexivity].
    eapply obeys_seq;
      [apply obeys_insertAttachmentsTx|done|apply obeys_driverCall
      |reflexivity|reflexivity].
  - intros c. cbv beta. unfold id. by destruct c as [t [w|]].
  - unfold callCount. simpl. lia.
Qed.

(* Running a computation that obeys a description on stored tables. *)
Lemma obeys_run m F cost db :
  obeys env m F cost ->
  (succeeded (m (mkSt 0 (mkConn db None))).1 <-> clean env 0 cost)
  /\ (succeeded (m (mkSt 0 (mkConn db None))).1 ->
      committed (conn (m (mkSt 0 (mkConn db None))).2)
      = committed (F (mkConn db None)))
  /\ (~ succeeded (m (mkSt 0 (mkConn db None))).1 ->
      committed (conn (m (mkSt 0 (mkConn db None))).2) = db).
Proof.
  intros Hm. destruct (Hm (mkSt 0 (mkConn db None))) as (Hiff & Hok & Herr).
  simpl in *. split; [done|]. split; [|done].
  intros Hs. by destruct (Hok Hs) as [-> _].
Qed.

Lemma InsertEvent_as_batch db event :
  (InsertEvent env db event).2 = (InsertEvents env db [event]).2
  /\ ((InsertEvent env db event).1 = None <-> (InsertEvents env db [event]).1 = None).
Proof.
  destruct (obeys_run _ _ _ db (obeys_insertEventM event)) as (Hs1 & Hok1 & Herr1).
  destruct (obeys_run _ _ _ db (obeys_insertEventsM env [event]))
    as (Hs2 & Hok2 & Herr2).
  unfold InsertEvent, InsertEvents.
  destruct (insertEventM env event _) as [[e1|[]] s1];
    destruct (insertEventsM env [event] _) as [[e2|[]] s2]; simpl in *.
  - split; [|done]. rewrite Herr1, Herr2 by tauto. done.
  - exfalso. apply Hs1. by apply Hs2.
  - exfalso. apply Hs2. by apply Hs1.
  - split; [|done]. by rewrite Hok1, Hok2.
Qed.

End insert_event.

(** X6. [InsertEvent] is [InsertEvents] on a batch of one: it leaves the same
    tables stored and returns nil in the same cases; so it replaces the row of
    the event's id, adds the event's attachment rows in the same transaction,
    and keeps nothing when any of its driver calls fails. *)
Theorem InsertEvent_is_batch_of_one (env : Database.Env) (db : Database.Tables)
    (event : Event) :
  (Database.InsertEvent env db event).2 = (Database.InsertEvents env db [event]).2
  /\ ((Database.InsertEvent env db event).1 = None
      <-> (Database.InsertEvents env db [event]).1 = None)
  /\ ((Database.InsertEvent env db event).1 = None ->
      (Database.InsertEvent env db event).2 = applyEvent env db event)
  /\ ((Database.InsertEvent env db event).1 ≠ None ->
      (Database.InsertEvent env db event).2 = db).
Proof.
  destruct (InsertEvent_as_batch env db event) as [Heq Hiff].
  destruct (InsertEvents_spec env db [event]) as (_ & Hok & Herr).
  split; [done|]. split; [done|]. split.
  - intros Hnone. rewrite Heq. apply Hok. by apply Hiff.
  - intros Hsome. rewrite Heq. apply Herr. by rewrite <- Hiff.
Qed.

Section hydration.
Import Database.
Variable env : Env.

Lemma stripped_updateFirst id a evs :
  withoutAttachments <$> updateFirst id (appendAttachment a) evs
  = withoutAttachments <$> evs.
Proof.
  induction evs as [|e evs IH]; [done|]. simpl.
  destruct (String.eqb (ID e) id); rewrite !fmap_cons; [done|by rewrite IH].
Qed.

Lemma stripped_attach evs r :
  withoutAttachments <$> attach evs r = withoutAttachments <$> evs.
Proof.
  unfold attach, updateByID.
  by rewrite fmap_reverse, stripped_updateFirst, <- fmap_reverse, reverse_involutive.
Qed.

Lemma from_updateFirst rows r evs :
  r ∈ rows ->
  attachmentsFrom rows evs ->
  attachmentsFrom rows
    (updateFirst (att_event_id r) (appendAttachment (scanAttachment r)) evs).
Proof.
  intros Hr. induction evs as [|e evs IH]; intros Hfrom; [done|]. simpl.
  assert (Htail : attachmentsFrom rows evs).
  { intros e' a He' Ha. apply (Hfrom e' a); [|done]. apply elem_of_cons. auto. }
  destruct (String.eqb_spec (ID e) (att_event_id r)) as [Heq|Hne].
  - intros e' a He' Ha. apply elem_of_cons in He' as [He'|He'].
    + subst e'. simpl in Ha.
      apply elem_of_app in Ha as [Ha|Ha%list_elem_of_singleton].
      * apply (Hfrom e a); [apply elem_of_cons; auto|done].
      * exists r. simpl. done.
    + by apply (Htail e' a).
  - intros e' a He' Ha. apply elem_of_cons in He' as [He'|He'].
    + subst e'. apply (Hfrom e a); [apply elem_of_cons; auto|done].
    + by apply (IH Htail e' a).
Qed.

Lemma from_attach rows r evs :
  r ∈ rows -> attachmentsFrom rows evs -> attachmentsFrom rows (attach evs r).
Proof.
  intros Hr Hfrom. unfold attach, updateByID.
  assert (Hrev : forall l, attachmentsFrom rows l -> attachmentsFrom rows (reverse l)).
  { intros l Hl e a He. apply Hl. by apply elem_of_reverse. }
  apply Hrev, from_updateFirst; [done|]. by apply Hrev.
Qed.

Lemma hydrate_rows (t : Tables) chunk evs :
  let evs' := foldl attach evs (selectAttachments chunk t) in
  withoutAttachments <$> evs' = withoutAttachments <$> evs
  /\ (attachmentsFrom (event_attachments t) evs ->
      attachmentsFrom (event_attachments t) evs').
Proof.
  cbv zeta.
  assert (Hsel : forall r, r ∈ selectAttachments chunk t -> r ∈ event_attachments t).
  { intros r. unfold selectAttachments.
    rewrite merge_sort_Permutation, list_elem_of_filter. tauto. }
  revert evs Hsel. induction (selectAttachments chunk t) as [|r rows IH];
    intros evs Hsel; [done|].
  simpl. destruct (IH (attach evs r)) as [Hs Hf].
  { intros r' Hr'. apply Hsel. apply elem_of_cons. auto. }
  split.
  - by rewrite Hs, stripped_attach.
  - intros Hfrom. apply Hf, from_attach; [|done]. apply Hsel, elem_of_cons. auto.
Qed.

Lemma hydrate_chunks (t : Tables) cs evs n evs' s' :
  foldM (fun evs chunk =>
           rows <- queryCall env ErrQueryAttachments (selectAttachments chunk) ;;
           ret (foldl (fun evs r =>
                         updateByID (att_event_id r)
                                    (appendAttachment (scanAttachment r)) evs)
                      evs rows))
        cs evs (mkSt n (mkConn t None)) = (inr evs', s') ->
  withoutAttachments <$> evs' = withoutAttachments <$> evs
  /\ (attachmentsFrom (event_attachments t) evs ->
      attachmentsFrom (event_attachments t) evs').
Proof.
  revert evs n. induction cs as [|chunk cs IH]; intros evs n; simpl.
  - unfold ret. by intros [= <- _].
  - unfold bind at 1. unfold bind at 1. unfold queryCall at 1. simpl.
    destruct (fails env n); [done|]. unfold ret at 1.
    intros Hrest. apply IH in Hrest as [Hs Hf].
    destruct (hydrate_rows t chunk evs) as [Hs' Hf'].
    split; [by rewrite Hs|]. intros Hfrom. by apply Hf, Hf'.
Qed.

Lemma hydrate_populate (t : Tables) evs n evs' s' :
  populateAttachments env evs (mkSt n (mkConn t None)) = (inr evs', s') ->
  withoutAttachments <$> evs' = withoutAttachments <$> evs
  /\ (attachmentsFrom (event_attachments t) evs ->
      attachmentsFrom (event_attachments t) evs').
Proof.
  unfold populateAttachments.
  destruct (length evs =? 0)%nat; [unfold ret; by intros [= <- _]|].
  destruct (length _ =? 0)%nat; [unfold ret; by intros [= <- _]|].
  apply hydrate_chunks.
Qed.

(* A successful GetEvents returns the selected rows, in the order of the
   query, each with the attachments found for its id. *)
Lemma GetEvents_structure db startTime endTime services evs :
  GetEvents env db startTime endTime services = inr evs ->
  withoutAttachments <$> evs
  = scanEvent <$> selectEvents (datetimeBound (unixNano startTime `div` Second))
                               (datetimeBound (unixNano endTime `div` Second))
                               services db
  /\ attachmentsFrom (event_attachments db) evs.
Proof.
  unfold GetEvents, getEventsM, bind, queryCall. simpl.
  destruct (fails env 0); [done|].
  unfold FormatSeconds, UTC. simpl. rewrite !Z.add_0_r.
  destruct (populateAttachments _ _ _) as [r s'] eqn:Hpop. simpl.
  intros ->. apply hydrate_populate in Hpop as [Hs Hf].
  split.
  - rewrite Hs, <- list_fmap_compose. apply list_fmap_ext.
    intros _ r _. by destruct r.
  - apply Hf. intros e a He Ha.
    apply list_elem_of_fmap in He as (r & -> & _). by apply elem_of_nil in Ha.
Qed.

End hydration.

(** X7. A successful [GetEvents] returns one event for each of the rows it
    selects: stored rows, none of them twice, all of a listed service when
    services are listed.  Every column is as stored, the timestamp as the
    driver reads it back from its text, which is the stored value when the
    offset is a whole number of minutes.  Hydration only fills [Attachments],
    and each attachment it adds is the scan of a stored attachment row whose
    event id is the id of the event it is attached to. *)
Theorem GetEvents_hydration (env : Database.Env) (db : Database.Tables)
    (startTime endTime : Time) (services : list string) (evs : list Event) :
  Database.GetEvents env db startTime endTime services = inr evs ->
  exists rows,
    rows ⊆+ Database.events db
    /\ Forall (fun r => Database.serviceSelected services r = true) rows
    /\ withoutAttachments <$> evs = Database.scanEvent <$> rows
    /\ (forall r, zoneOffset (Database.row_timestamp r) `mod` 60 = 0 ->
          Timestamp (Database.scanEvent r) = Database.row_timestamp r)
    /\ attachmentsFrom (Database.event_attachments db) evs.
Proof.
  intros Hget. apply GetEvents_structure in Hget as [Hrows Hfrom].
  eexists. split; [|split; [|split; [exact Hrows|split; [|exact Hfrom]]]].
  - unfold Database.selectEvents. rewrite merge_sort_Permutation.
    apply sublist_submseteq, sublist_filter.
  - apply Forall_forall. intros r Hr.
    by apply selectEvents_elem in Hr as (_ & _ & Hsvc).
  - intros r Hm. simpl. by apply readBack_whole.
Qed.

Lemma GetEvents_hydration_witness :
  let db := (Database.InsertEvents Scenario.steady Scenario.emptyDB Scenario.batch).2 in
  let evs := Scenario.batch in
  exists rows,
    rows ⊆+ Database.events db
    /\ Forall (fun r => Database.serviceSelected [] r = true) rows
    /\ withoutAttachments <$> evs = Database.scanEvent <$> rows
    /\ (forall r, zoneOffset (Database.row_timestamp r) `mod` 60 = 0 ->
          Timestamp (Database.scanEvent r) = Database.row_timestamp r)
    /\ attachmentsFrom (Database.event_attachments db) evs.
Proof.
  cbv zeta.
  apply (GetEvents_hydration Scenario.steady
           (Database.InsertEvents Scenario.steady Scenario.emptyDB Scenario.batch).2
           Scenario.base (Scenario.Add Scenario.base (1 * Hour)) []).
  vm_compute. reflexivity.
Defined.

(** X8. With a non-empty service list [GetEvents] returns only events of the
    listed services; [GetEventsByService] returns only events of the one
    service it is given. *)
Theorem GetEvents_service_filter (env : Database.Env) (db : Database.Tables)
    (startTime endTime : Time) (services : list string) (service : string)
    (evs byService : list Event) :
  Database.GetEvents env db startTime endTime services = inr evs ->
  Database.GetEventsByService env db service startTime endTime = inr byService ->
  (services ≠ [] -> forall e, e ∈ evs -> Service e ∈ services)
  /\ (forall e, e ∈ byService -> Service e = service).
Proof.
  assert (Hgen : forall svcs got,
             Database.GetEvents env db startTime endTime svcs = inr got ->
             svcs ≠ [] -> forall e, e ∈ got -> Service e ∈ svcs).
  { intros svcs got Hget Hne e He.
    apply GetEvents_structure in Hget as [Hrows _].
    apply (list_elem_of_fmap_2 withoutAttachments) in He.
    rewrite Hrows in He. apply list_elem_of_fmap in He as (r & Hr & Hsel).
    apply selectEvents_elem in Hsel as (_ & _ & Hsvc).
    unfold Database.serviceSelected in Hsvc.
    destruct svcs as [|s svcs]; [done|].
    change (0 <? length (s :: svcs))%nat with true in Hsvc. cbv iota in Hsvc.
    apply bool_decide_eq_true in Hsvc.
    replace (Service e) with (Service (withoutAttachments e)) by done.
    by rewrite Hr. }
  intros Hget Hby. split; [by apply Hgen|].
  intros e He. unfold Database.GetEventsByService in Hby.
  apply (Hgen [service] byService Hby) in He; [|done].
  by apply list_elem_of_singleton in He.
Qed.

Lemma GetEvents_service_filter_witness :
  let db := (Database.InsertEvents Scenario.steady Scenario.emptyDB Scenario.batch).2 in
  (["test"; "slack"] ≠ [] ->
   forall e, e ∈ [Scenario.makeEvent "ok-2" (Scenario.Add Scenario.base (2 * Minute))] ->
             Service e ∈ ["test"; "slack"])
  /\ (forall e, e ∈ take 1 Scenario.batch -> Service e = "google_calendar").
Proof.
  cbv zeta.
  apply (GetEvents_service_filter Scenario.steady
           (Database.InsertEvents Scenario.steady Scenario.emptyDB Scenario.batch).2
           Scenario.base (Scenario.Add Scenario.base (1 * Hour))
           ["test"; "slack"] "google_calendar").
  - vm_compute. reflexivity.
  - vm_compute. reflexivity.
Defined.

(** X9. Round trip: after a committed [InsertEvents], a successful
    [GetEvents] whose window covers (at whole-second granularity) the
    timestamp of an event of the batch, and whose service list is empty or
    names the event's service, returns that event with every column as
    inserted; for an id that occurs several times in the batch this holds for
    its last occurrence.  This is so for bounds within the years 0000 to 9999
    and a [plain] timestamp of the event: within those years, at an offset of
    whole minutes, and with a fraction below 0.9995 seconds. *)
Theorem InsertEvents_GetEvents_round_trip (env env' : Database.Env)
    (db : Database.Tables) (l1 l2 : list Event) (e : Event)
    (startTime endTime : Time) (services : list string) (got : list Event) :
  (Database.InsertEvents env db (l1 ++ e :: l2)).1 = None ->
  ID e ∉ ID <$> l2 ->
  plain (Timestamp e) = true ->
  Database.fourDigitYear (unixNano startTime `div` Second) = true ->
  Database.fourDigitYear (unixNano endTime `div` Second) = true ->
  unixNano startTime `div` Second <= ts e `div` Second
                                  <= unixNano endTime `div` Second ->
  services = [] \/ Service e ∈ services ->
  Database.GetEvents env' (Database.InsertEvents env db (l1 ++ e :: l2)).2
                     startTime endTime services = inr got ->
  exists e', e' ∈ got /\ withoutAttachments e' = withoutAttachments e.
Proof.
  intros Hok Hlast Hplain Hlo Hhi Hwin Hsvc Hget.
  destruct (InsertEvents_spec env db (l1 ++ e :: l2)) as (_ & Hdb & _).
  rewrite (Hdb Hok) in Hget. clear Hdb.
  apply GetEvents_structure in Hget as [Hrows _].
  assert (Hrow : Database.eventRow env e
                 ∈ Database.events (applyBatch env db (l1 ++ e :: l2))).
  { rewrite events_applyBatch.
    pose proof (rowsWithID_storeRows_last env (Database.events db) l1 e l2 Hlast)
      as Hone.
    assert (Hin : Database.eventRow env e
                  ∈ rowsWithID (ID e)
                      (storeRows env (Database.events db) (l1 ++ e :: l2))).
    { rewrite Hone. by apply list_elem_of_singleton. }
    unfold rowsWithID in Hin. by apply list_elem_of_filter in Hin as [_ ?]. }
  assert (Hsel : Database.eventRow env e
                 ∈ Database.selectEvents
                     (Database.datetimeBound (unixNano startTime `div` Second))
                     (Database.datetimeBound (unixNano endTime `div` Second))
                     services (applyBatch env db (l1 ++ e :: l2))).
  { apply selectEvents_elem. split; [done|]. split.
    - apply rowInRange_plain; [done|done|done|]. exact Hwin.
    - unfold Database.serviceSelected. simpl.
      destruct Hsvc as [->|Hin]; [done|].
      destruct (0 <? length services)%nat; [|done].
      by apply bool_decide_eq_true. }
  apply (list_elem_of_fmap_2 Database.scanEvent) in Hsel.
  rewrite <- Hrows in Hsel.
  apply list_elem_of_fmap in Hsel as (e' & He' & Hin).
  exists e'. split; [done|]. rewrite <- He'.
  unfold Database.scanEvent, Database.eventRow, withoutAttachments. simpl.
  by rewrite readBack_plain.
Qed.

Lemma InsertEvents_GetEvents_round_trip_witness :
  exists e', e' ∈ Scenario.batch
             /\ withoutAttachments e'
                = withoutAttachments
                    (Scenario.makeEvent "ok-2" (Scenario.Add Scenario.base (2 * Minute))).
Proof.
  apply (InsertEvents_GetEvents_round_trip Scenario.steady Scenario.steady
           Scenario.emptyDB (take 1 Scenario.batch) []
           (Scenario.makeEvent "ok-2" (Scenario.Add Scenario.base (2 * Minute)))
           Scenario.base (Scenario.Add Scenario.base (1 * Hour)) []).
  - vm_compute. reflexivity.
  - apply not_elem_of_nil.
  - reflexivity.
  - reflexivity.
  - reflexivity.
  - vm_compute. split; discriminate.
  - by left.
  - vm_compute. reflexivity.
Defined.

Section maintenance.
Import Database.


(* Putting groups keyed by [ks] into a map. *)
Lemma stats_fold (f : string -> nat) ks (m : gmap string nat) k :
  foldl (fun stats g => <[g.1 := g.2]> stats) m ((fun s => (s, f s)) <$> ks) !! k
  = if decide (k ∈ ks) then Some (f k) else m !! k.
Proof.
  revert m. induction ks as [|x ks IH]; intros m; [done|].
  rewrite fmap_cons. simpl. rewrite IH.
  destruct (decide (k ∈ ks)) as [Hin|Hnin].
  - rewrite decide_True; [done|]. apply elem_of_cons. auto.
  - destruct (decide (k = x)) as [->|Hne].
    + rewrite lookup_insert_eq. rewrite decide_True; [done|]. apply elem_of_cons. auto.
    + rewrite lookup_insert_ne by done.
      rewrite decide_False; [done|]. rewrite elem_of_cons. tauto.
Qed.

(* The loop of GetStats puts a prefix of the groups into the map: all of
   them when no call of the iteration fails. *)
Lemma statsLoop_prefix (env : Env) call order rows stats out :
  statsLoop env call (groupsIn order rows) stats = inr out ->
  exists delivered,
    delivered `prefix_of` order
    /\ out = foldl (fun stats g => <[g.1 := g.2]> stats) stats
                   (groupsIn delivered rows)
    /\ ((forall i, (i < 2 * length order)%nat -> fails env (call + i) = false) ->
        delivered = order).
Proof.
  revert call stats. induction order as [|service order IH]; intros call stats.
  - simpl. intros [= <-]. exists []. done.
  - unfold groupsIn. rewrite fmap_cons. cbn [statsLoop].
    destruct (fails env call) eqn:Hnext.
    + intros [= <-]. exists []. split; [apply prefix_nil|]. split; [done|].
      intros Hclean. specialize (Hclean 0%nat ltac:(simpl; lia)).
      rewrite Nat.add_0_r in Hclean. congruence.
    + destruct (fails env (S call)) eqn:Hscan; [done|].
      intros Hrest. apply IH in Hrest as (delivered & Hpre & -> & Hall).
      exists (service :: delivered). split; [by apply prefix_cons|].
      split; [done|]. intros Hclean. f_equal. apply Hall.
      intros i Hi. replace (S (S call) + i)%nat with (call + (2 + i))%nat by lia.
      apply Hclean. simpl. lia.
Qed.

End maintenance.




Example DeleteOldEvents_deletes_newer_event :
  (Database.DeleteOldEvents Scenario.steady Scenario.tokyoEvening 0
     (Database.mkTables [Scenario.tokyoRow; Scenario.noonRow] [])).2
  = Database.mkTables [] []
  /\ unixNano Scenario.tokyoEvening
     < unixNano (Database.row_timestamp Scenario.noonRow).
Proof. split; vm_compute; reflexivity. Qed.

(** X11. [GetStats] counts what the iteration delivers.  On success the map
    holds, for a prefix of the services in the order the engine delivers
    them, the number of rows of each, and "total" with the number of all
    rows unless a delivered service is itself called "total", whose count
    then stands there; it has no other key.  The prefix is all services when
    no call of the iteration fails.  The loop does not ask why the iteration
    ended, so when a call to Next fails the map is returned with the
    services delivered so far and a nil error. *)
Theorem GetStats_counts (env : Database.Env) (order : list string)
    (db : Database.Tables) (stats : gmap string nat) :
  order ≡ₚ remove_dups (Database.row_service <$> Database.events db) ->
  Database.GetStats env order db = inr stats ->
  exists delivered,
    delivered `prefix_of` order
    /\ (forall s, stats !! s
          = if decide (s ∈ delivered)
            then Some (Database.countOf s (Database.events db))
            else if decide (s = "total") then Some (length (Database.events db))
            else None)
    /\ (forall s, s ∈ delivered ->
          s ∈ Database.row_service <$> Database.events db)
    /\ ((forall i, (i < 2 * length order)%nat ->
           Database.fails env (2 + i) = false) ->
        forall s, s ∈ delivered <-> s ∈ Database.row_service <$> Database.events db).
Proof.
  intros Horder. unfold Database.GetStats.
  destruct (Database.fails env 0); [done|].
  destruct (Database.fails env 1); [done|].
  intros Hloop. apply statsLoop_prefix in Hloop as (delivered & Hpre & -> & Hall).
  assert (Hin : forall s, s ∈ order
                          <-> s ∈ Database.row_service <$> Database.events db).
  { intros s. by rewrite Horder, elem_of_remove_dups. }
  exists delivered. split; [done|]. split; [|split].
  - intros s. unfold Database.groupsIn. rewrite stats_fold.
    destruct (decide (s ∈ delivered)); [done|].
    destruct (decide (s = "total")) as [->|Hne].
    + by rewrite lookup_insert_eq.
    + by rewrite lookup_insert_ne, lookup_empty.
  - intros s Hs. apply Hin. destruct Hpre as [rest ->].
    apply elem_of_app. by left.
  - intros Hclean s. by rewrite (Hall Hclean).
Qed.

Lemma GetStats_counts_witness :
  exists delivered,
    delivered `prefix_of` ["google_calendar"; "test"]
    /\ forall s, ({[ "total" := 2%nat; "google_calendar" := 1%nat;
                     "test" := 1%nat ]} : gmap string nat) !! s
          = if decide (s ∈ delivered)
            then Some (Database.countOf s
                         (Database.events
                            (Database.InsertEvents Scenario.steady Scenario.emptyDB
                               Scenario.batch).2))
            else if decide (s = "total")
                 then Some (length (Database.events
                                      (Database.InsertEvents Scenario.steady
                                         Scenario.emptyDB Scenario.batch).2))
            else None.
Proof.
  destruct (GetStats_counts Scenario.steady ["google_calendar"; "test"]
              (Database.InsertEvents Scenario.steady Scenario.emptyDB Scenario.batch).2
              {[ "total" := 2%nat; "google_calendar" := 1%nat; "test" := 1%nat ]})
    as (delivered & Hpre & Hstats & _).
  - vm_compute. reflexivity.
  - vm_compute. reflexivity.
  - exists delivered. split; [exact Hpre|exact Hstats].
Defined.

(* A service called "total" takes the place of the total. *)
Example GetStats_service_named_total :
  Database.GetStats Scenario.steady ["slack"; "total"]
    (Database.mkTables
       [Database.mkEventRow "a" "total" "t" "" "" Scenario.base "" "" Scenario.base;
        Database.mkEventRow "b" "slack" "t" "" "" Scenario.base "" "" Scenario.base;
        Database.mkEventRow "c" "slack" "t" "" "" Scenario.base "" "" Scenario.base] [])
  = inr {[ "total" := 1%nat; "slack" := 2%nat ]}.
Proof. vm_compute. reflexivity. Qed.

(* The second call to Next fails (the run's call 4): the statistics come back
   without the second service and without an error. *)
Example GetStats_partial_without_error :
  Database.GetStats (Scenario.failingAt 4) ["google_calendar"; "test"]
    (Database.InsertEvents Scenario.steady Scenario.emptyDB Scenario.batch).2
  = inr {[ "total" := 2%nat; "google_calendar" := 1%nat ]}.
Proof. vm_compute. reflexivity. Qed.

Section chunking.
Import Database.

Lemma chunks_join (c n : nat) (ids : list string) :
  mjoin ((fun k => take c (drop (k * c) ids)) <$> seq 0 n) = take (n * c) ids.
Proof.
  induction n as [|n IH]; [done|].
  rewrite seq_S, fmap_app, join_app, IH. simpl. rewrite app_nil_r.
  rewrite take_take_drop. f_equal. lia.
Qed.

End chunking.

(** X12. The chunks [populateAttachments] queries with cut the list of ids
    without dropping or repeating one: joined in order they give the list
    back, and each chunk holds at least one and at most 900 ids. *)
Theorem chunks_partition (ids : list string) :
  mjoin (Database.chunks ids) = ids
  /\ Forall (fun chunk => (1 <= length chunk <= Database.chunkSize)%nat)
            (Database.chunks ids).
Proof.
  unfold Database.chunks, Database.chunkSize. split.
  - rewrite chunks_join. apply take_ge.
    pose proof (Nat.div_mod_eq (length ids + 900 - 1) 900).
    pose proof (Nat.mod_upper_bound (length ids + 900 - 1) 900). lia.
  - apply Forall_fmap, Forall_forall. intros k Hk%elem_of_seq. simpl.
    rewrite length_take, length_drop.
    pose proof (Nat.div_mod_eq (length ids + 900 - 1) 900).
    pose proof (Nat.mod_upper_bound (length ids + 900 - 1) 900). lia.
Qed.

Example chunks_of_1801_ids :
  length <$> Database.chunks (replicate 1801 "id") = [900; 900; 1]%nat.
Proof. vm_compute. reflexivity. Qed.

Section never_removed.
Import Database.
Variable env : Env.

Lemma insert_event_keeps_ids r rows id :
  id ∈ row_id <$> rows -> id ∈ row_id <$> insertOrReplaceEvent r rows.
Proof.
  intros (x & -> & Hx)%list_elem_of_fmap.
  unfold insertOrReplaceEvent. rewrite fmap_app, elem_of_app.
  destruct (decide (row_id x = row_id r)) as [Heq|Hne].
  - right. rewrite Heq. by apply list_elem_of_singleton.
  - left. apply list_elem_of_fmap_2. by apply list_elem_of_filter.
Qed.

Lemma storeRows_keeps_ids rows evs id :
  id ∈ row_id <$> rows -> id ∈ row_id <$> storeRows env rows evs.
Proof.
  unfold storeRows. revert rows.
  induction evs as [|e evs IH]; intros rows Hin; [done|].
  simpl. by apply IH, insert_event_keeps_ids.
Qed.

Lemma applyAttachment_keeps event atts rows r :
  r ∈ rows ->
  r ∈ foldl (applyAttachment env event) rows atts
  \/ att_id r ∈ (fun a => attachmentRowID (ID event) (FileID a))
                  <$> filter (fun a => FileID a ≠ "") atts.
Proof.
  revert rows. induction atts as [|a atts IH]; intros rows Hr; [by left|].
  simpl. rewrite filter_cons. unfold applyAttachment at 2.
  destruct (String.eqb_spec (FileID a) "") as [Heq|Hne].
  - rewrite decide_False by (by intros ?). by apply IH.
  - rewrite decide_True by done. rewrite fmap_cons.
    destruct (decide (att_id r = attachmentRowID (ID event) (FileID a)))
      as [Hsame|Hother].
    + right. apply elem_of_cons. by left.
    + destruct (IH (insertOrReplaceAttachment (attachmentRow env event a) rows))
        as [?|?].
      * unfold insertOrReplaceAttachment. apply elem_of_app. left.
        by apply list_elem_of_filter.
      * by left.
      * right. apply elem_of_cons. by right.
Qed.

Lemma applyBatch_keeps evs t r :
  r ∈ event_attachments t ->
  r ∈ event_attachments (applyBatch env t evs)
  \/ att_id r ∈ writtenAttachmentIDs evs.
Proof.
  unfold applyBatch, writtenAttachmentIDs. revert t.
  induction evs as [|e evs IH]; intros t Hr; [by left|].
  simpl. rewrite elem_of_app.
  destruct (applyAttachment_keeps e (Attachments e) (event_attachments t) r Hr)
    as [Hkept|Hwritten]; [|by right; left].
  destruct (IH (applyEvent env t e)) as [?|?]; [done|by left|by right; right].
Qed.

End never_removed.

(** X13. [InsertEvents] only adds and replaces: whatever its outcome, every
    event id stored before is still stored afterwards, and a stored attachment
    row is still there unless the batch wrote a row with the same row id.  In
    particular, inserting an event again with fewer attachments leaves its
    earlier attachment rows in place. *)
Theorem InsertEvents_keeps_rows (env : Database.Env) (db : Database.Tables)
    (evs : list Event) :
  let out := Database.InsertEvents env db evs in
  (forall id, id ∈ Database.row_id <$> Database.events db ->
              id ∈ Database.row_id <$> Database.events out.2)
  /\ (forall r, r ∈ Database.event_attachments db ->
        r ∈ Database.event_attachments out.2
        \/ Database.att_id r ∈ writtenAttachmentIDs evs).
Proof.
  cbv zeta. destruct (InsertEvents_spec env db evs) as (_ & Hok & Herr).
  destruct ((Database.InsertEvents env db evs).1) as [e|] eqn:Hout.
  - rewrite Herr by done. split; [done|]. intros r Hr. by left.
  - rewrite Hok by done. split.
    + intros id Hid. rewrite events_applyBatch. by apply storeRows_keeps_ids.
    + intros r Hr. by apply applyBatch_keeps.
Qed.

(* The calendar event is stored with its notes and then again without any:
   the notes are still returned with it. *)
Example reinserted_event_keeps_old_attachment :
  let bare := mkEvent "cal-1" "google_calendar" "event_attended" "Standup" ""
                      (Scenario.Add Scenario.base (1 * Minute)) "" "me" [] in
  let db1 := (Database.InsertEvents Scenario.steady Scenario.emptyDB Scenario.batch).2 in
  let db2 := (Database.InsertEvents Scenario.steady db1 [bare]).2 in
  Database.GetEvents Scenario.steady db2 Scenario.base
                     (Scenario.Add Scenario.base (90 * Second)) []
  = inr [mkEvent "cal-1" "google_calendar" "event_attended" "Standup" ""
                 (Scenario.Add Scenario.base (1 * Minute)) "" "me" [Scenario.notes]].
Proof. vm_compute. reflexivity. Qed.

(** ** The token store: reading back *)

Section token_lookup.
Import TokenStore.

Lemma findToken_upsert n storedToken tokens :
  ServiceName storedToken = n ->
  findToken n (upsert n storedToken tokens) = Some storedToken.
Proof.
  intros Hn. unfold upsert.
  destruct (replaceFirst n storedToken tokens) as [tokens'|] eqn:Hr.
  - revert tokens' Hr. induction tokens as [|token rest IH]; intros tokens' Hr;
      simpl in Hr; [done|].
    destruct (String.eqb_spec (ServiceName token) n) as [Heq|Hne].
    + injection Hr as <-. simpl. rewrite Hn. by rewrite String.eqb_refl.
    + destruct (replaceFirst n storedToken rest) as [rest'|]; [|done].
      injection Hr as <-. simpl.
      apply String.eqb_neq in Hne. rewrite Hne. by apply IH.
  - induction tokens as [|token rest IH]; simpl in *.
    + rewrite Hn. by rewrite String.eqb_refl.
    + destruct (String.eqb (ServiceName token) n); [done|].
      destruct (replaceFirst n storedToken rest); [done|]. by apply IH.
Qed.

Lemma findToken_upsert_other n m storedToken tokens :
  ServiceName storedToken = n -> m ≠ n ->
  findToken m (upsert n storedToken tokens) = findToken m tokens.
Proof.
  intros Hn Hne. unfold upsert.
  assert (Hm : String.eqb n m = false) by (apply String.eqb_neq; congruence).
  destruct (replaceFirst n storedToken tokens) as [tokens'|] eqn:Hr.
  - revert tokens' Hr. induction tokens as [|token rest IH]; intros tokens' Hr;
      simpl in Hr; [done|].
    destruct (String.eqb_spec (ServiceName token) n) as [Heq|Hneq].
    + injection Hr as <-. simpl. by rewrite Hn, Heq, Hm.
    + destruct (replaceFirst n storedToken rest) as [rest'|]; [|done].
      injection Hr as <-. simpl.
      destruct (String.eqb (ServiceName token) m); [done|]. by apply IH.
  - clear Hr. induction tokens as [|token rest IH]; simpl.
    + by rewrite Hn, Hm.
    + destruct (String.eqb (ServiceName token) m); [done|]. apply IH.
Qed.

Lemma findToken_delete n m tokens :
  findToken m (filter (fun token => ServiceName token ≠ n) tokens)
  = if decide (m = n) then None else findToken m tokens.
Proof.
  induction tokens as [|token rest IH]; [by destruct (decide _)|].
  rewrite filter_cons. simpl.
  destruct (decide (ServiceName token ≠ n)) as [Hkeep|Hdrop].
  - simpl. destruct (String.eqb_spec (ServiceName token) m) as [Heq|Hneq].
    + rewrite decide_False; [done|]. congruence.
    + apply IH.
  - rewrite IH. destruct (decide (m = n)) as [->|Hne]; [done|].
    destruct (String.eqb_spec (ServiceName token) m) as [Heq|Hneq]; [|done].
    exfalso. apply Hdrop. congruence.
Qed.

Lemma findToken_touch n m t tokens :
  findToken m (touchFirst n t tokens) = refreshedAt t m n <$> findToken m tokens.
Proof.
  unfold refreshedAt.
  induction tokens as [|token rest IH]; [done|]. simpl.
  destruct (String.eqb_spec (ServiceName token) n) as [Heq|Hneq]; simpl.
  - destruct (String.eqb_spec (ServiceName token) m) as [Heq'|Hneq'];
      destruct (decide (m = n)) as [Hmn|Hmn]; simpl; try congruence.
    + by destruct (findToken m rest).
  - destruct (String.eqb_spec (ServiceName token) m) as [Heq'|Hneq'];
      destruct (decide (m = n)) as [Hmn|Hmn]; simpl; try congruence.
Qed.

Lemma fillToken_sealed opener env n a r e s c t :
  Opens opener env -> seal env a r e s = Some c ->
  exists d, unseal opener c = Opened d
            /\ fillToken opener (mkStoredToken n "" "" "access" None [] t None c) d
               = mkStoredToken n a r "access" e s t None c.
Proof.
  intros Hopens Hseal.
  destruct (Hopens a r e s c Hseal) as (d & Hd & Ha & Hr & Hs & He).
  exists d. split; [done|]. unfold fillToken. rewrite Ha, Hr. simpl.
  f_equal.
  - destruct e as [t'|]; simpl in He.
    + destruct He as (str & Hstr & Hne & Hparse). rewrite Hstr.
      apply String.eqb_neq in Hne. by rewrite Hne, Hparse.
    + by rewrite He.
  - destruct Hs as [[Hd' Hs']|Hd']; rewrite Hd'; [by rewrite Hs'|].
    rewrite <- list_fmap_compose. by rewrite list_fmap_id.
Qed.

End token_lookup.

Lemma StoreToken_GetToken_file opener env env' file n a r e s :
  Opens opener env ->
  (TokenStore.StoreToken env file n a r e s).1 = None ->
  TokenStore.read_denied env' = false ->
  exists c,
    TokenStore.GetToken opener env' (TokenStore.StoreToken env file n a r e s).2 n
    = inr (TokenStore.mkStoredToken n a r "access" e s (TokenStore.now env) None c).
Proof.
  intros Hopens Hok Hread.
  destruct (StoreToken_file env file n a r e s Hok) as (c & Hseal & ->).
  unfold TokenStore.GetToken. rewrite loadTokens_readable by done.
  exists c. rewrite findToken_upsert by done. simpl.
  destruct (fillToken_sealed opener env n a r e s c (TokenStore.now env)
              Hopens Hseal) as (d & -> & ->). done.
Qed.

(** X14. Round trip through the store: after a [StoreToken] that returned
    nil, [GetToken] for the same service on a readable file returns a token
    with the access token, refresh token, expiry and scopes that were stored
    (given that the cipher and JSON libraries open what they sealed), whether
    an older token of the service was replaced or the entry is new; the
    tokens of other services read as before. *)
Theorem StoreToken_GetToken_round_trip (opener : TokenStore.Opener)
    (env env' : TokenStore.Env) (file : TokenStore.StoreFile)
    (n a r : string) (e : option Time) (s : list string) :
  Opens opener env ->
  (TokenStore.StoreToken env file n a r e s).1 = None ->
  TokenStore.read_denied env' = false ->
  (exists c,
     TokenStore.GetToken opener env' (TokenStore.StoreToken env file n a r e s).2 n
     = inr (TokenStore.mkStoredToken n a r "access" e s (TokenStore.now env) None c))
  /\ forall m, m ≠ n ->
       TokenStore.GetToken opener env' (TokenStore.StoreToken env file n a r e s).2 m
       = match TokenStore.findToken m (tokensOf file) with
         | None => inl TokenStore.ErrTokenNotFound
         | Some _ => TokenStore.GetToken opener env' file m
         end.
Proof.
  intros Hopens Hok Hread. split.
  { by apply StoreToken_GetToken_file. }
  destruct (StoreToken_file env file n a r e s Hok) as (c & Hseal & ->).
  unfold TokenStore.GetToken. rewrite loadTokens_readable by done.
  - intros m Hm. rewrite findToken_upsert_other by done.
    destruct file as [| |tokens]; simpl; try done.
    rewrite loadTokens_readable by done.
    by destruct (TokenStore.findToken m tokens).
Qed.

Lemma vault_opens : Opens Scenario.vaultOpener Scenario.vault.
Proof.
  intros a r e s c. simpl. case_bool_decide as H; [|done].
  destruct H as (-> & -> & -> & ->). intros [= <-].
  eexists. split; [reflexivity|]. split; [done|]. split; [done|].
  split; [by right|done].
Defined.

Lemma StoreToken_GetToken_round_trip_witness :
  exists c,
    TokenStore.GetToken Scenario.vaultOpener Scenario.vault
      (TokenStore.StoreToken Scenario.vault
         (TokenStore.TokensFile [Scenario.slackToken]) "slack" "xoxp-1" "" None
         Scenario.slackScopes).2 "slack"
    = inr (TokenStore.mkStoredToken "slack" "xoxp-1" "" "access" None
             Scenario.slackScopes Scenario.base None c).
Proof.
  apply (StoreToken_GetToken_round_trip Scenario.vaultOpener Scenario.vault
           Scenario.vault (TokenStore.TokensFile [Scenario.slackToken])
           "slack" "xoxp-1" "" None Scenario.slackScopes).
  - exact vault_opens.
  - vm_compute. reflexivity.
  - reflexivity.
Defined.

Lemma DeleteToken_file env file n :
  (TokenStore.DeleteToken env file n).1 = None ->
  exists tokens,
    file = TokenStore.TokensFile tokens
    /\ (TokenStore.DeleteToken env file n).2
       = TokenStore.TokensFile
           (filter (fun token => TokenStore.ServiceName token ≠ n) tokens).
Proof.
  unfold TokenStore.DeleteToken.
  destruct (TokenStore.loadTokens env file) as [err|tokens] eqn:Hload; [done|].
  apply loadTokens_inr in Hload as ->. intros Hok. exists tokens.
  split; [done|]. by apply saveTokens_ok.
Qed.

Lemma UpdateRefreshTime_file env file n :
  (TokenStore.UpdateRefreshTime env file n).1 = None ->
  exists tokens,
    file = TokenStore.TokensFile tokens
    /\ (TokenStore.UpdateRefreshTime env file n).2
       = TokenStore.TokensFile (TokenStore.touchFirst n (TokenStore.now env) tokens).
Proof.
  unfold TokenStore.UpdateRefreshTime.
  destruct (TokenStore.loadTokens env file) as [err|tokens] eqn:Hload; [done|].
  apply loadTokens_inr in Hload as ->. intros Hok. exists tokens.
  split; [done|]. by apply saveTokens_ok.
Qed.

Lemma GetToken_deleted opener env env' file n :
  (TokenStore.DeleteToken env file n).1 = None ->
  TokenStore.read_denied env' = false ->
  TokenStore.GetToken opener env' (TokenStore.DeleteToken env file n).2 n
  = inl TokenStore.ErrTokenNotFound.
Proof.
  intros Hok Hread.
  destruct (DeleteToken_file env file n Hok) as (tokens & -> & ->).
  unfold TokenStore.GetToken. rewrite !loadTokens_readable by done.
  by rewrite findToken_delete, decide_True.
Qed.

(** X15. After a [DeleteToken] that returned nil, [GetToken] for that service
    reports that no token is found, and [GetToken] for every other service
    answers what it answered before the deletion. *)
Theorem DeleteToken_then_GetToken (opener : TokenStore.Opener)
    (env env' : TokenStore.Env) (file : TokenStore.StoreFile) (n : string) :
  (TokenStore.DeleteToken env file n).1 = None ->
  TokenStore.read_denied env' = false ->
  TokenStore.GetToken opener env' (TokenStore.DeleteToken env file n).2 n
  = inl TokenStore.ErrTokenNotFound
  /\ forall m, m ≠ n ->
       TokenStore.GetToken opener env' (TokenStore.DeleteToken env file n).2 m
       = TokenStore.GetToken opener env' file m.
Proof.
  intros Hok Hread. split; [by apply GetToken_deleted|].
  destruct (DeleteToken_file env file n Hok) as (tokens & -> & ->).
  unfold TokenStore.GetToken. rewrite !loadTokens_readable by done.
  intros m Hm. by rewrite findToken_delete, decide_False.
Qed.

Lemma DeleteToken_then_GetToken_witness :
  TokenStore.GetToken Scenario.vaultOpener Scenario.vault
    (TokenStore.DeleteToken Scenario.vault
       (TokenStore.TokensFile [Scenario.slackToken]) "slack").2 "slack"
  = inl TokenStore.ErrTokenNotFound.
Proof.
  apply (DeleteToken_then_GetToken Scenario.vaultOpener Scenario.vault
           Scenario.vault (TokenStore.TokensFile [Scenario.slackToken]) "slack");
    reflexivity.
Defined.

Lemma fillToken_setLastRefresh opener t token d :
  TokenStore.fillToken opener (TokenStore.setLastRefresh t token) d
  = TokenStore.setLastRefresh t (TokenStore.fillToken opener token d).
Proof. done. Qed.

(** X16. [UpdateRefreshTime] touches nothing but the refresh time: after a
    call that returned nil, [GetToken] for any service fails exactly as it
    failed before, and where it succeeded before it returns the same token,
    with [LastRefresh] set to the time of the call when the service is the one
    named.  In particular a call for a service without a token returns nil and
    changes no answer. *)
Theorem UpdateRefreshTime_then_GetToken (opener : TokenStore.Opener)
    (env env' : TokenStore.Env) (file : TokenStore.StoreFile) (n m : string) :
  (TokenStore.UpdateRefreshTime env file n).1 = None ->
  TokenStore.read_denied env' = false ->
  TokenStore.GetToken opener env' (TokenStore.UpdateRefreshTime env file n).2 m
  = match TokenStore.GetToken opener env' file m with
    | inl err => inl err
    | inr token => inr (refreshedAt (TokenStore.now env) m n token)
    end.
Proof.
  intros Hok Hread.
  destruct (UpdateRefreshTime_file env file n Hok) as (tokens & -> & ->).
  unfold TokenStore.GetToken. rewrite !loadTokens_readable by done.
  rewrite findToken_touch.
  destruct (TokenStore.findToken m tokens) as [token|]; [|done]. simpl.
  unfold refreshedAt. destruct (decide (m = n)); simpl;
    by destruct (TokenStore.unseal opener (TokenStore.EncryptedData token)).
Qed.

Lemma UpdateRefreshTime_then_GetToken_witness :
  TokenStore.GetToken Scenario.vaultOpener Scenario.vault
    (TokenStore.UpdateRefreshTime Scenario.vault
       (TokenStore.TokensFile [Scenario.slackToken]) "github").2 "github"
  = inl TokenStore.ErrTokenNotFound.
Proof.
  apply (UpdateRefreshTime_then_GetToken Scenario.vaultOpener Scenario.vault
           Scenario.vault (TokenStore.TokensFile [Scenario.slackToken])
           "github" "github"); reflexivity.
Defined.

Lemma serviceNames_upsert n storedToken tokens :
  TokenStore.ServiceName storedToken = n ->
  TokenStore.serviceNames (TokenStore.upsert n storedToken tokens)
  = if decide (n ∈ TokenStore.serviceNames tokens)
    then TokenStore.serviceNames tokens
    else TokenStore.serviceNames tokens ++ [n].
Proof.
  intros Hn. unfold TokenStore.upsert, TokenStore.serviceNames.
  induction tokens as [|token rest IH].
  - destruct (decide _) as [Hin|_]; [by apply elem_of_nil in Hin|].
    simpl. by rewrite Hn.
  - rewrite fmap_cons. cbn [TokenStore.replaceFirst].
    destruct (String.eqb_spec (TokenStore.ServiceName token) n) as [Heq|Hne].
    + rewrite decide_True by (rewrite Heq; apply elem_of_cons; by left).
      rewrite fmap_cons. by rewrite Hn, Heq.
    + destruct (decide (n ∈ TokenStore.ServiceName <$> rest)) as [Hin|Hnin].
      * rewrite decide_True by (apply elem_of_cons; by right).
        rewrite <- IH.
        by destruct (TokenStore.replaceFirst n storedToken rest).
      * rewrite decide_False
          by (intros [?|?]%elem_of_cons; [congruence|done]).
        transitivity (TokenStore.ServiceName token
                        :: ((TokenStore.ServiceName <$> rest) ++ [n])); [|done].
        rewrite <- IH.
        by destruct (TokenStore.replaceFirst n storedToken rest).
Qed.

Lemma serviceNames_touch n t tokens :
  TokenStore.serviceNames (TokenStore.touchFirst n t tokens)
  = TokenStore.serviceNames tokens.
Proof.
  unfold TokenStore.serviceNames.
  induction tokens as [|token rest IH]; [done|].
  cbn [TokenStore.touchFirst].
  destruct (String.eqb (TokenStore.ServiceName token) n); [done|].
  by rewrite !fmap_cons, IH.
Qed.

(** X17. What [ListServices] answers after a successful change of the store,
    in terms of the service names [names] that were stored before (none when
    the file did not exist): after [StoreToken] the same list when the
    service was already in it, and the list with the service appended
    otherwise; after [DeleteToken] the list without the service; after
    [UpdateRefreshTime] the same list.  The order of the other services never
    changes. *)
Theorem ListServices_after (env env' : TokenStore.Env) (file : TokenStore.StoreFile)
    (op : TokenStore.Op) :
  TokenStore.read_denied env' = false ->
  match op with
  | TokenStore.OpStoreToken n a r e s => (TokenStore.StoreToken env file n a r e s).1
  | TokenStore.OpUpdateRefreshTime n => (TokenStore.UpdateRefreshTime env file n).1
  | TokenStore.OpDeleteToken n => (TokenStore.DeleteToken env file n).1
  end = None ->
  let names := TokenStore.serviceNames (tokensOf file) in
  TokenStore.ListServices env' (TokenStore.step file (env, op))
  = inr match op with
        | TokenStore.OpStoreToken n _ _ _ _ =>
            if decide (n ∈ names) then names else names ++ [n]
        | TokenStore.OpUpdateRefreshTime _ => names
        | TokenStore.OpDeleteToken n => filter (fun name => name ≠ n) names
        end.
Proof.
  intros Hread Hok. unfold TokenStore.ListServices, TokenStore.step.
  destruct op as [n a r e s|n|n]; simpl in *.
  - destruct (StoreToken_file env file n a r e s Hok) as (c & _ & ->).
    rewrite loadTokens_readable by done. by rewrite serviceNames_upsert.
  - destruct (UpdateRefreshTime_file env file n Hok) as (tokens & -> & ->).
    rewrite loadTokens_readable by done. by rewrite serviceNames_touch.
  - destruct (DeleteToken_file env file n Hok) as (tokens & -> & ->).
    rewrite loadTokens_readable by done. simpl. f_equal.
    unfold TokenStore.serviceNames. clear.
    induction tokens as [|token rest IH]; [done|].
    rewrite fmap_cons, !filter_cons.
    destruct (decide (TokenStore.ServiceName token ≠ n)); [|done].
    by rewrite fmap_cons, IH.
Qed.

Lemma ListServices_after_witness :
  TokenStore.ListServices Scenario.vault
    (TokenStore.step TokenStore.NoFile
       (Scenario.vault,
        TokenStore.OpStoreToken "slack" "xoxp-1" "" None Scenario.slackScopes))
  = inr ["slack"].
Proof.
  apply (ListServices_after Scenario.vault Scenario.vault TokenStore.NoFile
           (TokenStore.OpStoreToken "slack" "xoxp-1" "" None Scenario.slackScopes));
    reflexivity.
Defined.

(** ** The Slack authentication manager *)

(** X18. [ClearToken] empties the access token, the refresh token and the
    expiry of the configuration and marks the status invalid whether or not
    it then returns an error.  When it returns nil, a later
    [UpdateTokenFromStore] brings no token back: it fails (no token found, or
    no store) and leaves the manager as it is.  With a store whose file does
    not exist it returns an error, although there was no token to delete. *)
Theorem ClearToken_clears (opener : TokenStore.Opener) (env env' : TokenStore.Env)
    (now : Time) (m : SlackAuthManager.Manager) (file : TokenStore.StoreFile) :
  TokenStore.read_denied env' = false ->
  let '(m', err, file') := SlackAuthManager.ClearToken env now m file in
  SlackAuthManager.config m'
  = SlackAuthManager.setToken "" "" None (SlackAuthManager.config m)
  /\ SlackAuthManager.IsValid (SlackAuthManager.status m') = false
  /\ SlackAuthManager.ShouldRefresh m' = false
  /\ (err = None ->
      SlackAuthManager.UpdateTokenFromStore opener env' m' file'
      = (m', Some (if SlackAuthManager.hasStore m
                   then SlackAuthManager.ErrFromStore TokenStore.ErrTokenNotFound
                   else SlackAuthManager.ErrNoStore)))
  /\ (SlackAuthManager.hasStore m = true -> file = TokenStore.NoFile ->
      err = Some (SlackAuthManager.ErrDelete TokenStore.ErrLoad)
      /\ file' = TokenStore.NoFile).
Proof.
  intros Hread. unfold SlackAuthManager.ClearToken.
  assert (Hmissing : TokenStore.DeleteToken env TokenStore.NoFile "slack"
                     = (Some TokenStore.ErrLoad, TokenStore.NoFile)).
  { unfold TokenStore.DeleteToken, TokenStore.loadTokens.
    by destruct (TokenStore.read_denied env). }
  destruct (SlackAuthManager.hasStore m) eqn:Hstore.
  - pose proof (GetToken_deleted opener env env' file "slack") as Hget.
    destruct (TokenStore.DeleteToken env file "slack") as [[e|] file'] eqn:Hdel;
      (split; [done|]); (split; [done|]); (split; [done|]); split; try done.
    + intros _ ->. rewrite Hmissing in Hdel. by simplify_eq.
    + intros _. pose proof (Hget eq_refl Hread) as Hnone. simpl in Hnone.
      unfold SlackAuthManager.UpdateTokenFromStore. simpl. by rewrite Hnone.
    + intros _ ->. rewrite Hmissing in Hdel. by simplify_eq.
  - split; [done|]. split; [done|]. split; [done|]. split; [|done].
    intros _. unfold SlackAuthManager.UpdateTokenFromStore. simpl.
    by rewrite ?Hstore.
Qed.

Lemma ClearToken_clears_witness :
  let r := SlackAuthManager.ClearToken Scenario.vault Scenario.base
             Scenario.slackManager (TokenStore.TokensFile [Scenario.slackToken]) in
  r.1.2 = None
  /\ SlackAuthManager.UpdateTokenFromStore Scenario.vaultOpener Scenario.vault
       r.1.1 r.2
     = (r.1.1, Some (SlackAuthManager.ErrFromStore TokenStore.ErrTokenNotFound)).
Proof.
  pose proof (ClearToken_clears Scenario.vaultOpener Scenario.vault Scenario.vault
                Scenario.base Scenario.slackManager
                (TokenStore.TokensFile [Scenario.slackToken]) eq_refl) as H.
  simpl in H. destruct H as (_ & _ & _ & H & _).
  split; [reflexivity|]. exact (H eq_refl).
Defined.

(** X19. [ValidateToken] never changes the configuration.  It calls the
    remote validator exactly when the access token is non-empty and not
    expired; without the call it returns nil with an invalid status.  It
    returns an error exactly when the validator returned one, so a failure to
    store the token is not reported.  The token file changes only when the
    validator found the token valid and the manager has a store. *)
Theorem ValidateToken_guards (validate : SlackAuthManager.Validator)
    (env : TokenStore.Env) (now : Time) (m : SlackAuthManager.Manager)
    (file : TokenStore.StoreFile) :
  let '(m', err, file', called) :=
    SlackAuthManager.ValidateToken validate env now m file in
  let token := Config.authAccessToken (SlackAuthManager.config m) in
  SlackAuthManager.config m' = SlackAuthManager.config m
  /\ (called = false <-> token = "" \/ SlackAuthManager.IsTokenExpired now m = true)
  /\ (called = false ->
      err = None /\ SlackAuthManager.IsValid (SlackAuthManager.status m') = false)
  /\ (err <> None <-> called = true /\ exists text, validate token = inl text)
  /\ (file' <> file ->
      called = true /\ SlackAuthManager.hasStore m = true
      /\ SlackAuthManager.IsValid (SlackAuthManager.status m') = true).
Proof.
  unfold SlackAuthManager.ValidateToken.
  destruct (String.eqb_spec
              (Config.authAccessToken (SlackAuthManager.config m)) "") as [Hempty|Hne].
  { cbv zeta. split; [done|]. split; [by split; [left|]|]. split; [done|].
    split; [|done]. split; [done|]. by intros [? _]. }
  destruct (SlackAuthManager.IsTokenExpired now m) eqn:Hexp.
  { cbv zeta. split; [done|]. split; [by split; [right|]|]. split; [done|].
    split; [|done]. split; [done|]. by intros [? _]. }
  assert (Hcalled : true = false <->
                    Config.authAccessToken (SlackAuthManager.config m) = ""
                    \/ false = true).
  { split; [done|]. intros [?|?]; congruence. }
  destruct (validate (Config.authAccessToken (SlackAuthManager.config m)))
    as [text|[isValid errorMessage]] eqn:Hv.
  { cbv zeta. split; [done|]. split; [done|]. split; [done|].
    split; [|done]. split; [|done]. intros _. split; [done|]. by exists text. }
  assert (Herr : @None SlackAuthManager.AuthError <> None <->
                 true = true /\ exists text,
                   @inr string (bool * string) (isValid, errorMessage) = inl text).
  { split; [done|]. by intros [_ [? ?]]. }
  destruct isValid, (SlackAuthManager.hasStore m) eqn:Hstore; cbn [andb];
    cbv zeta; (split; [done|]); (split; [done|]); (split; [done|]);
    (split; [done|]); done.
Qed.

(** X20. A validated token can be fetched again: when the validator accepts
    the manager's token and the store saves it, [UpdateTokenFromStore] on any
    manager that reads this store sets that manager's access token, refresh
    token and expiry to those of the validated configuration (given that the
    cipher and JSON libraries open what they sealed). *)
Theorem ValidateToken_then_UpdateTokenFromStore (opener : TokenStore.Opener)
    (validate : SlackAuthManager.Validator) (env env' : TokenStore.Env)
    (now : Time) (m other : SlackAuthManager.Manager)
    (file : TokenStore.StoreFile) (msg : string) :
  let cfg := SlackAuthManager.config m in
  Opens opener env ->
  TokenStore.read_denied env' = false ->
  SlackAuthManager.hasStore m = true ->
  SlackAuthManager.hasStore other = true ->
  Config.authAccessToken cfg ≠ "" ->
  SlackAuthManager.IsTokenExpired now m = false ->
  validate (Config.authAccessToken cfg) = inr (true, msg) ->
  (TokenStore.StoreToken env file "slack" (Config.authAccessToken cfg)
     (Config.authRefreshToken cfg) (Config.authTokenExpiresAt cfg)
     ["chat:write"; "channels:read"]).1 = None ->
  SlackAuthManager.UpdateTokenFromStore opener env' other
    (SlackAuthManager.ValidateToken validate env now m file).1.2
  = (SlackAuthManager.mkManager
       (SlackAuthManager.setToken (Config.authAccessToken cfg)
          (Config.authRefreshToken cfg) (Config.authTokenExpiresAt cfg)
          (SlackAuthManager.config other))
       (SlackAuthManager.status other) true,
     None).
Proof.
  intros cfg Hopens Hread Hstore Hother Hne Hexp Hv Hok.
  unfold SlackAuthManager.ValidateToken. fold cfg.
  apply String.eqb_neq in Hne. rewrite Hne, Hexp, Hv, Hstore. simpl.
  unfold SlackAuthManager.UpdateTokenFromStore. rewrite Hother. simpl.
  destruct (StoreToken_GetToken_file opener env env' file "slack"
              (Config.authAccessToken cfg) (Config.authRefreshToken cfg)
              (Config.authTokenExpiresAt cfg) ["chat:write"; "channels:read"]
              Hopens Hok Hread) as (c & ->).
  done.
Qed.

Lemma ValidateToken_then_UpdateTokenFromStore_witness :
  SlackAuthManager.UpdateTokenFromStore Scenario.vaultOpener Scenario.vault
    (SlackAuthManager.NewBaseAuthManager Scenario.base
       (Config.mkAuthConfig "" "" None true 0 0 0%float) true)
    (SlackAuthManager.ValidateToken Scenario.acceptAll Scenario.vault Scenario.base
       Scenario.slackManager TokenStore.NoFile).1.2
  = (SlackAuthManager.mkManager
       (Config.mkAuthConfig "xoxp-1" "" None true 0 0 0%float)
       (SlackAuthManager.mkAuthStatus false None Scenario.base "" "access") true,
     None).
Proof.
  apply (ValidateToken_then_UpdateTokenFromStore Scenario.vaultOpener
           Scenario.acceptAll Scenario.vault Scenario.vault Scenario.base
           Scenario.slackManager
           (SlackAuthManager.NewBaseAuthManager Scenario.base
              (Config.mkAuthConfig "" "" None true 0 0 0%float) true)
           TokenStore.NoFile "").
  - exact vault_opens.
  - reflexivity.
  - reflexivity.
  - reflexivity.
  - simpl. discriminate.
  - reflexivity.
  - reflexivity.
  - vm_compute. reflexivity.
Defined.

(** ** Retries *)

Lemma seq_snoc_Z (n : Z) :
  0 <= n -> seq 0 (Z.to_nat (n + 1)) = seq 0 (Z.to_nat n) ++ [Z.to_nat n].
Proof.
  intros Hn. rewrite Z2Nat.inj_add by lia.
  change (Z.to_nat 1) with 1%nat. rewrite Nat.add_1_r. by rewrite seq_S.
Qed.

Lemma roundTripFrom_spec parse Transport clock MaxRetries left attempt slept :
  0 <= attempt <= MaxRetries ->
  Z.of_nat left = MaxRetries + 1 - attempt ->
  Forall2 (fun i s => retried parse Transport clock (Z.of_nat i) = Some s)
          (seq 0 (Z.to_nat attempt)) slept ->
  let out := Retry.roundTripFrom parse Transport clock MaxRetries left attempt slept in
  exists last,
    attempt <= last <= MaxRetries
    /\ Forall2 (fun i s => retried parse Transport clock (Z.of_nat i) = Some s)
               (seq 0 (Z.to_nat last)) (Retry.sleeps out)
    /\ (last < MaxRetries -> retried parse Transport clock last = None)
    /\ match Transport last with
       | inl _ => Retry.response out = None
                  /\ Retry.error out = Some (Retry.ErrRequestFailed (MaxRetries + 1))
       | inr resp => Retry.response out = Some resp /\ Retry.error out = None
       end.
Proof.
  revert attempt slept.
  induction left as [|left IH]; intros attempt slept Hrange Hleft Hslept; [lia|].
  cbv zeta. cbn [Retry.roundTripFrom].
  assert (Hstep : forall s,
            retried parse Transport clock attempt = Some s ->
            Forall2 (fun i s => retried parse Transport clock (Z.of_nat i) = Some s)
                    (seq 0 (Z.to_nat (attempt + 1))) (slept ++ [s])).
  { intros s Hs. rewrite seq_snoc_Z by lia.
    apply Forall2_app; [done|]. constructor; [|constructor].
    by rewrite Z2Nat.id by lia. }
  destruct (Transport attempt) as [err|resp] eqn:Ht.
  - destruct (Z.eqb_spec attempt MaxRetries) as [Heq|Hneq].
    + exists attempt. rewrite Ht. simpl. split; [lia|]. split; [done|].
      split; [lia|done].
    + destruct (IH (attempt + 1)
                  (slept ++ [Retry.SleepNetwork ((attempt + 1) * Second)]))
        as (last & Hl & Hrest); [lia|lia| |].
      { apply Hstep. unfold retried. by rewrite Ht. }
      exists last. split; [lia|]. exact Hrest.
  - destruct (Z.eqb_spec (Retry.StatusCode resp) Retry.StatusTooManyRequests)
      as [H429|Hother]; cbn [negb].
    + destruct (Z.eqb_spec attempt MaxRetries) as [Heq|Hneq].
      * exists attempt. rewrite Ht. simpl. split; [lia|]. split; [done|].
        split; [lia|done].
      * destruct (IH (attempt + 1)
                    (slept ++ [Retry.SleepRateLimit
                                 (Retry.getRetryAfterDelay parse (clock attempt) resp)]))
          as (last & Hl & Hrest); [lia|lia| |].
        { apply Hstep. unfold retried. rewrite Ht.
          apply Z.eqb_eq in H429. by rewrite H429. }
        exists last. split; [lia|]. exact Hrest.
    + exists attempt. rewrite Ht. simpl. split; [lia|]. split; [done|].
      split; [|done]. intros _. unfold retried. rewrite Ht.
      apply Z.eqb_neq in Hother. by rewrite Hother.
Qed.

(** X21. What [RoundTrip] returns with a retry budget [MaxRetries >= 0].
    There is a last attempt, numbered [last] with [0 <= last <= MaxRetries];
    every attempt before it was answered by a transport error or a 429
    response and was followed by exactly one sleep ([i+1] seconds after an
    error, the Retry-After delay after a 429), and no other sleep happens.
    If the last attempt comes before the budget is used up, its answer is
    a response other than 429.  The result is that last answer: the response
    with a nil error, or a nil response with the error "request failed after
    MaxRetries+1 attempts"; never both and never neither. *)
Theorem RoundTrip_last_attempt (parse : string -> option Time)
    (Transport : Z -> Retry.TransportError + Retry.Response) (clock : Z -> Time)
    (MaxRetries : Z) :
  0 <= MaxRetries ->
  let out := Retry.RoundTrip parse Transport clock MaxRetries in
  exists last,
    0 <= last <= MaxRetries
    /\ Forall2 (fun i s => retried parse Transport clock (Z.of_nat i) = Some s)
               (seq 0 (Z.to_nat last)) (Retry.sleeps out)
    /\ (last < MaxRetries -> retried parse Transport clock last = None)
    /\ match Transport last with
       | inl _ => Retry.response out = None
                  /\ Retry.error out = Some (Retry.ErrRequestFailed (MaxRetries + 1))
       | inr resp => Retry.response out = Some resp /\ Retry.error out = None
       end.
Proof.
  intros Hmax. unfold Retry.RoundTrip.
  apply roundTripFrom_spec; [lia|lia|constructor].
Qed.

Lemma RoundTrip_last_attempt_witness :
  exists last,
    0 <= last <= 2
    /\ Forall2 (fun i s => retried (fun _ => None)
                             (fun i => if i <? 2 then inr (Retry.mkResponse 429 "7")
                                       else inr (Retry.mkResponse 200 ""))
                             (fun _ => Scenario.base) (Z.of_nat i) = Some s)
               (seq 0 (Z.to_nat last))
               (Retry.sleeps
                  (Retry.RoundTrip (fun _ => None)
                     (fun i => if i <? 2 then inr (Retry.mkResponse 429 "7")
                               else inr (Retry.mkResponse 200 ""))
                     (fun _ => Scenario.base) 2)).
Proof.
  destruct (RoundTrip_last_attempt (fun _ => None)
              (fun i => if i <? 2 then inr (Retry.mkResponse 429 "7")
                        else inr (Retry.mkResponse 200 ""))
              (fun _ => Scenario.base) 2) as (last & Hl & Hs & _); [lia|].
  exists last. split; [exact Hl|exact Hs].
Defined.

(** With a negative budget [RoundTrip] does not call the transport and
    returns a nil response with a nil error. *)
Example RoundTrip_negative_budget :
  forall parse Transport clock,
    Retry.RoundTrip parse Transport clock (-1) = Retry.mkOutcome None None [].
Proof. done. Qed.

Lemma retryableFrom_spec apiCall r left attempt calls slept lastErr :
  0 <= attempt <= Retry.maxRetries r ->
  Z.of_nat left = Retry.maxRetries r + 1 - attempt ->
  calls = Z.to_nat attempt ->
  Forall2 (fun i d => rateLimitWait apiCall (Z.of_nat i) d)
          (seq 0 (Z.to_nat attempt)) slept ->
  let out := Retry.retryableFrom apiCall r left attempt calls slept lastErr in
  exists last,
    attempt <= last <= Retry.maxRetries r
    /\ Retry.callCount out = S (Z.to_nat last)
    /\ Forall2 (fun i d => rateLimitWait apiCall (Z.of_nat i) d)
               (seq 0 (Z.to_nat last)) (Retry.callSleeps out)
    /\ (last < Retry.maxRetries r ->
        forall retryAfter, apiCall last <> Retry.CallRateLimited retryAfter)
    /\ Retry.callError out
       = match apiCall last with
         | Retry.CallOk => None
         | e => Some (Retry.ErrFailedAfter (Retry.maxRetries r + 1) (Some e))
         end.
Proof.
  revert attempt calls slept lastErr.
  induction left as [|left IH]; intros attempt calls slept lastErr Hrange Hleft -> Hslept;
    [lia|].
  cbv zeta. cbn [Retry.retryableFrom].
  destruct (apiCall attempt) as [|retryAfter|] eqn:Hcall.
  - exists attempt. rewrite Hcall. simpl. split; [lia|]. split; [done|].
    split; [done|]. split; [|done]. intros _ ra. congruence.
  - destruct (Z.eqb_spec attempt (Retry.maxRetries r)) as [Heq|Hneq].
    + exists attempt. rewrite Hcall. simpl. split; [lia|]. split; [done|].
      split; [done|]. split; [lia|done].
    + cbv zeta.
      destruct (IH (attempt + 1) (S (Z.to_nat attempt))
                  (slept ++ [if 5 * Minute <? Retry.mul64 retryAfter Second
                             then 5 * Minute else Retry.mul64 retryAfter Second])
                  (Some (Retry.CallRateLimited retryAfter)))
        as (last & Hl & Hrest); [lia|lia|lia| |].
      { rewrite seq_snoc_Z by lia. apply Forall2_app; [done|].
        constructor; [|constructor]. rewrite Z2Nat.id by lia.
        exists retryAfter. split; [done|].
        destruct (Z.ltb_spec (5 * Minute) (Retry.mul64 retryAfter Second)); lia. }
      exists last. split; [lia|]. exact Hrest.
  - exists attempt. rewrite Hcall. simpl. split; [lia|]. split; [done|].
    split; [done|]. split; [|done]. intros _ ra. congruence.
Qed.

(** X22. What [RetryableAPICall] does with a budget [maxRetries >= 0].  It
    calls [apiCall] at least once and at most [maxRetries + 1] times; every
    call before the last returned a rate-limit error and was followed by one
    sleep of [RetryAfter] seconds, cut to five minutes and never longer; an
    error that is not a rate limit is never retried.  It returns nil exactly
    when the last call did, and otherwise an error that wraps the last call's
    error and always names [maxRetries + 1] attempts, however many were
    made. *)
Theorem RetryableAPICall_last_call (apiCall : Z -> Retry.CallResult)
    (r : Retry.RetryableSlackClient) :
  0 <= Retry.maxRetries r ->
  let out := Retry.RetryableAPICall apiCall r in
  exists last,
    0 <= last <= Retry.maxRetries r
    /\ Retry.callCount out = S (Z.to_nat last)
    /\ Forall2 (fun i d => rateLimitWait apiCall (Z.of_nat i) d)
               (seq 0 (Z.to_nat last)) (Retry.callSleeps out)
    /\ Forall (fun d => d <= 5 * Minute) (Retry.callSleeps out)
    /\ (last < Retry.maxRetries r ->
        forall retryAfter, apiCall last <> Retry.CallRateLimited retryAfter)
    /\ Retry.callError out
       = match apiCall last with
         | Retry.CallOk => None
         | e => Some (Retry.ErrFailedAfter (Retry.maxRetries r + 1) (Some e))
         end.
Proof.
  intros Hmax. unfold Retry.RetryableAPICall.
  destruct (retryableFrom_spec apiCall r (Z.to_nat (Retry.maxRetries r + 1)) 0 0
              [] None) as (last & Hl & Hcount & Hsleeps & Hrest);
    [lia|lia|done|constructor|].
  exists last. split; [done|]. split; [done|]. split; [done|]. split; [|done].
  clear -Hsleeps.
  induction Hsleeps as [|i d idx ds (ra & _ & ->) _ IH]; constructor; [lia|done].
Qed.

Lemma RetryableAPICall_last_call_witness :
  exists last,
    0 <= last <= 3
    /\ Retry.callCount
         (Retry.RetryableAPICall
            (fun i => if i =? 0 then Retry.CallRateLimited 2 else Retry.CallFailed)
            (Retry.NewRetryableSlackClient 0))
       = S (Z.to_nat last).
Proof.
  destruct (RetryableAPICall_last_call
              (fun i => if i =? 0 then Retry.CallRateLimited 2 else Retry.CallFailed)
              (Retry.NewRetryableSlackClient 0)) as (last & Hl & Hc & _);
    [simpl; lia|].
  exists last. split; [exact Hl|exact Hc].
Defined.

(** A call that fails at once is reported as failed after four attempts. *)
Example RetryableAPICall_single_failure :
  Retry.RetryableAPICall (fun _ => Retry.CallFailed) (Retry.NewRetryableSlackClient 3)
  = Retry.mkCallOutcome (Some (Retry.ErrFailedAfter 4 (Some Retry.CallFailed))) 1 [].
Proof. reflexivity. Qed.

(** The wait has no lower bound: a RetryAfter of 30000000000 (thirty seconds
    counted in nanoseconds) times time.Second wraps around to a negative
    duration, for which time.Sleep returns at once. *)
Example RetryableAPICall_negative_wait :
  Retry.callSleeps
    (Retry.RetryableAPICall
       (fun i => if i =? 0 then Retry.CallRateLimited (30 * Second) else Retry.CallOk)
       (Retry.NewRetryableSlackClient 3))
  = [-6893488147419103232].
Proof. reflexivity. Qed.

(** X23. A client made by [NewRetryableSlackClient] has the same budget for
    its transport and for its API calls, the given one when positive and 3
    otherwise; so its transport's [RoundTrip] returns a response or an error
    and never neither, and it returns an error only when the wrapped
    transport failed on the last attempt the budget allows, after one sleep
    for each attempt before it. *)
Theorem NewRetryableSlackClient_budget (maxRetries : Z)
    (parse : string -> option Time)
    (Transport : Z -> Retry.TransportError + Retry.Response) (clock : Z -> Time) :
  let r := Retry.NewRetryableSlackClient maxRetries in
  let out := Retry.RoundTrip parse Transport clock (Retry.transportMaxRetries r) in
  Retry.transportMaxRetries r = Retry.maxRetries r
  /\ Retry.maxRetries r = (if 0 <? maxRetries then maxRetries else 3)
  /\ (Retry.response out = None <-> Retry.error out <> None)
  /\ (Retry.error out <> None ->
      (exists e, Transport (Retry.maxRetries r) = inl e)
      /\ length (Retry.sleeps out) = Z.to_nat (Retry.maxRetries r)).
Proof.
  cbv zeta. unfold Retry.NewRetryableSlackClient. cbn [Retry.transportMaxRetries
    Retry.maxRetries].
  set (budget := if maxRetries <=? 0 then 3 else maxRetries).
  assert (Hbudget : 1 <= budget)
    by (unfold budget; destruct (Z.leb_spec maxRetries 0); lia).
  split; [done|]. split.
  { unfold budget. destruct (Z.leb_spec maxRetries 0), (Z.ltb_spec 0 maxRetries); lia. }
  unfold Retry.RoundTrip.
  destruct (roundTripFrom_spec parse Transport clock budget
              (Z.to_nat (budget + 1)) 0 [])
    as (last & Hl & Hsleeps & Hearly & Hout); [lia|lia|constructor|].
  apply Forall2_length in Hsleeps. rewrite length_seq in Hsleeps.
  destruct (Transport last) as [e|resp] eqn:Ht; destruct Hout as [-> ->].
  - assert (last = budget) as ->.
    { destruct (decide (last < budget)) as [Hlt|?]; [|lia].
      specialize (Hearly Hlt). unfold retried in Hearly. by rewrite Ht in Hearly. }
    split; [done|]. intros _. split; [by exists e|done].
  - split; [done|]. by intros [].
Qed.

(** ** Configuration *)

(** X24. [ToAuthConfig] and [UpdateFromAuthConfig] are inverse to each other
    on the authentication settings: converting after an update gives the
    settings written, updating with the converted settings changes nothing,
    and an update leaves the client id, the client secret and the flags
    [Enabled] and [UseOkta] alone. *)
Theorem AuthConfig_round_trip (sc : Config.ServiceConfig) (a : Config.AuthConfig) :
  Config.ToAuthConfig (Config.UpdateFromAuthConfig sc a) = a
  /\ Config.UpdateFromAuthConfig sc (Config.ToAuthConfig sc) = sc
  /\ identityOf (Config.UpdateFromAuthConfig sc a) = identityOf sc.
Proof. by destruct sc, a. Qed.

(** X25. Defaults and validation.  [SetDefaultAuthValues] is idempotent and
    leaves no zero in the three fields it fills.  After it,
    [ValidateAuthConfig] accepts the configuration exactly when the validation
    interval was unset or at least one minute, the retry count was not
    negative, and the backoff multiplier was unset or not below 1; so a
    configuration with the three fields unset passes once migrated. *)
Theorem SetDefaultAuthValues_then_validate (sc : Config.ServiceConfig) :
  let sc' := Config.SetDefaultAuthValues sc in
  Config.SetDefaultAuthValues sc' = sc'
  /\ Config.ValidationInterval sc' <> 0
  /\ Config.MaxRetries sc' <> 0
  /\ PrimFloat.eqb (Config.RetryBackoffMultiplier sc') 0 = false
  /\ (Config.ValidateAuthConfig sc' = None
      <-> (Config.ValidationInterval sc = 0 \/ Minute <= Config.ValidationInterval sc)
          /\ 0 <= Config.MaxRetries sc
          /\ (PrimFloat.eqb (Config.RetryBackoffMultiplier sc) 0 = true
              \/ PrimFloat.ltb (Config.RetryBackoffMultiplier sc) 1 = false)).
Proof.
  destruct sc as [cid sec tok ref exp en okta auto vi mr b].
  unfold Config.SetDefaultAuthValues, Config.ValidateAuthConfig. cbn -[Minute Z.mul].
  assert (Htwo : PrimFloat.eqb 2 0 = false) by reflexivity.
  assert (Hlt : PrimFloat.ltb 2 1 = false) by reflexivity.
  unfold Minute, Second.
  destruct (Z.eqb_spec vi 0) as [->|Hvi], (Z.eqb_spec mr 0) as [->|Hmr],
    (PrimFloat.eqb b 0) eqn:Hb; cbn -[Z.mul];
    rewrite ?Htwo, ?Hb, ?Hlt;
    repeat match goal with
      | |- context [?x =? ?y] => destruct (Z.eqb_spec x y); try lia
      | |- context [?x <? ?y] => destruct (Z.ltb_spec x y); try lia
      end;
    try (destruct (PrimFloat.ltb b 1) eqn:Hb1);
    (split; [done|]); (split; [lia|]); (split; [lia|]); (split; [done|]);
    split; try done; try (intros (? & ? & ?); lia);
    try (intros _; split; [lia|split; [lia|auto]]);
    try (intros (_ & _ & [?|?]); congruence).
Qed.

(** X26. [UpdateAuthConfig] accepts the names "slack", "github" and
    "calendar" and no other; on an unknown name the configuration is
    unchanged.  On success the named service holds the given settings, every
    other service keeps its own, and no service is enabled or disabled.  The
    calendar goes by another name here than in [GetEnabledServices]: the name
    "google_calendar" is rejected. *)
Theorem UpdateAuthConfig_names (cfg : Config.Config) (serviceName : string)
    (authConfig : Config.AuthConfig) :
  let r := EventCollector.UpdateAuthConfig cfg serviceName authConfig in
  (r.1 = None <-> serviceName ∈ ["slack"; "github"; "calendar"])
  /\ (r.1 <> None -> r.2 = cfg)
  /\ (r.1 = None ->
      authOf r.2 serviceName = Some authConfig
      /\ forall other, other <> serviceName -> authOf r.2 other = authOf cfg other)
  /\ EventCollector.GetEnabledServices r.2 = EventCollector.GetEnabledServices cfg
  /\ (serviceName ∈ EventCollector.GetEnabledServices cfg ->
      (r.1 = None <-> serviceName <> "google_calendar")).
Proof.
  cbv zeta. unfold EventCollector.UpdateAuthConfig.
  assert (Henabled : forall name,
            name ∈ EventCollector.GetEnabledServices cfg ->
            name ∈ ["slack"; "github"; "google_calendar"]).
  { intros name. unfold EventCollector.GetEnabledServices. cbv zeta.
    destruct (Config.Enabled (Config.Slack cfg)),
      (Config.Enabled (Config.GitHub cfg)),
      (Config.Enabled (Config.GoogleCal cfg)); simpl;
      rewrite ?elem_of_cons, ?elem_of_nil; tauto. }
  destruct (String.eqb_spec serviceName "slack") as [->|Hs].
  { simpl. split; [split; [intros _; apply elem_of_cons; by left|done]|].
    split; [done|]. split.
    - intros _. split; [by destruct (Config.Slack cfg), authConfig|].
      intros other Ho. unfold authOf. simpl.
      destruct (String.eqb_spec other "slack"); [done|]. done.
    - split; [done|]. intros _. split; [done|done]. }
  destruct (String.eqb_spec serviceName "github") as [->|Hg].
  { simpl. split; [split; [intros _; rewrite !elem_of_cons; tauto|done]|].
    split; [done|]. split.
    - intros _. split; [by destruct (Config.GitHub cfg), authConfig|].
      intros other Ho. unfold authOf. simpl.
      destruct (String.eqb_spec other "slack"); [done|].
      destruct (String.eqb_spec other "github"); [done|]. done.
    - split; [done|]. intros _. split; [done|done]. }
  destruct (String.eqb_spec serviceName "calendar") as [->|Hc].
  { simpl. split; [split; [intros _; rewrite !elem_of_cons; tauto|done]|].
    split; [done|]. split.
    - intros _. split; [by destruct (Config.GoogleCal cfg), authConfig|].
      intros other Ho. unfold authOf. simpl.
      destruct (String.eqb_spec other "slack"); [done|].
      destruct (String.eqb_spec other "github"); [done|].
      destruct (String.eqb_spec other "calendar"); [done|]. done.
    - split; [done|]. intros _. split; [done|done]. }
  simpl. split.
  { split; [done|]. rewrite !elem_of_cons, elem_of_nil. tauto. }
  split; [done|]. split; [done|]. split; [done|].
  intros Hin. apply Henabled in Hin.
  rewrite !elem_of_cons, elem_of_nil in Hin.
  split; [done|]. intros Hne. exfalso. tauto.
Qed.

(** ** Attachment row identifiers *)

Lemma replaceSpaces_id (s : string) :
  avoids [" "%char] s = true -> Database.replaceSpaces s = s.
Proof.
  induction s as [|c s IH]; [done|]. simpl.
  intros [Hc Hs]%andb_prop. rewrite IH by done.
  apply bool_decide_eq_true in Hc.
  destruct (Ascii.eqb_spec c " "%char) as [->|_]; [|done].
  exfalso. apply Hc. apply elem_of_cons. by left.
Qed.

Lemma replaceSpaces_prefix_inj (e1 e2 r1 r2 : string) :
  avoids [" "%char; "_"%char] e1 = true ->
  avoids [" "%char; "_"%char] e2 = true ->
  Database.replaceSpaces (e1 +:+ "__" +:+ r1)
  = Database.replaceSpaces (e2 +:+ "__" +:+ r2) ->
  e1 = e2 /\ Database.replaceSpaces r1 = Database.replaceSpaces r2.
Proof.
  assert (Hhead : forall c : ascii,
            bool_decide (c ∉ [" "%char; "_"%char]) = true ->
            (if Ascii.eqb c " "%char then "_"%char else c) = c /\ c <> "_"%char).
  { intros c Hc%bool_decide_eq_true.
    rewrite !elem_of_cons, elem_of_nil in Hc.
    destruct (Ascii.eqb_spec c " "%char); split; tauto. }
  revert e2. induction e1 as [|c1 e1 IH]; intros [|c2 e2] H1 H2 Heq; simpl in *.
  - split; [done|]. by simplify_eq.
  - apply andb_prop in H2 as [Hc2 _]. apply Hhead in Hc2 as [Hc2 Hne].
    rewrite Hc2 in Heq. by simplify_eq.
  - apply andb_prop in H1 as [Hc1 _]. apply Hhead in Hc1 as [Hc1 Hne].
    rewrite Hc1 in Heq. by simplify_eq.
  - apply andb_prop in H1 as [Hc1 H1]. apply andb_prop in H2 as [Hc2 H2].
    apply Hhead in Hc1 as [Hc1 _]. apply Hhead in Hc2 as [Hc2 _].
    rewrite Hc1, Hc2 in Heq. injection Heq as -> Heq.
    destruct (IH e2 H1 H2 Heq) as [-> Hr]. done.
Qed.

(** X27. [attachmentRowID] tells attachments apart when the identifiers are
    plain: for event ids without space or underscore and file ids without
    space, two attachment rows get the same id only when they belong to the
    same event and the same file. *)
Theorem attachmentRowID_injective (eventID1 fileID1 eventID2 fileID2 : string) :
  avoids [" "%char; "_"%char] eventID1 = true ->
  avoids [" "%char; "_"%char] eventID2 = true ->
  avoids [" "%char] fileID1 = true ->
  avoids [" "%char] fileID2 = true ->
  Database.attachmentRowID eventID1 fileID1 = Database.attachmentRowID eventID2 fileID2 ->
  eventID1 = eventID2 /\ fileID1 = fileID2.
Proof.
  intros He1 He2 Hf1 Hf2 Heq. unfold Database.attachmentRowID in Heq.
  destruct (replaceSpaces_prefix_inj eventID1 eventID2 fileID1 fileID2 He1 He2 Heq)
    as [-> Hf].
  split; [done|]. by rewrite !replaceSpaces_id in Hf.
Qed.

Lemma attachmentRowID_injective_witness :
  "cal-1" = "cal-1" /\ "doc-9" = "doc-9".
Proof.
  apply (attachmentRowID_injective "cal-1" "doc-9" "cal-1" "doc-9");
    reflexivity.
Defined.

(** Without that restriction two different attachments can share a row id,
    so that the second written replaces the first. *)
Example attachmentRowID_collision :
  Database.attachmentRowID "a_" "b" = Database.attachmentRowID "a" "_b"
  /\ Database.attachmentRowID "a b" "c" = Database.attachmentRowID "a_b" "c".
Proof. split; reflexivity. Qed.
